(** * The xv6 buffer cache with hashed buckets (kernel/bio.c)

    A shallow embedding of the bucketed buffer cache of [kernel/bio.c] and of
    its earlier variant [bio_after.c].  The cache is a fixed array of [NBUF]
    buffers, [NBUCKETS = 13] circular doubly-linked lists threaded through the
    buffers' [prev]/[next] pointers, a spin lock per bucket and one global
    spin lock.

    Memory is modelled as the two arrays [bcache.buf] and [bcache.head];
    a pointer is an index into one of them.  A dereference of a pointer that
    lies outside both arrays is a [Fault].  Every C function becomes a
    computation in a state monad whose outcomes are: normal return, [panic],
    the caller going to sleep on a sleep lock, a fault, or divergence of a
    list walk.  Spin-lock operations and disk transfers are recorded, in
    order, in an event log carried by the state.

    A computation of the monad is a call that runs from its first line to
    its last with no other caller inside the cache.  Calls that overlap are
    modelled by the same code run one memory access at a time ([code],
    [Conc]) by callers that exclude one another only through the spin locks
    and sleep locks they hold ([step], [reachable]). *)

From Stdlib Require Import ZArith Lia String.
From stdpp Require Import base tactics option numbers list.

Local Open Scope Z_scope.

(** * Definitions *)

(** ** Data *)

Definition NBUCKETS : Z := 13.

(** [struct buf *]: null, the address of [bcache.head[i]], or the address of
    [bcache.buf[i]]. *)
Inductive ptr : Type :=
| Null
| Hd (i : nat)
| Bf (i : nat).

#[global] Instance ptr_eq_dec : EqDecision ptr.
Proof. solve_decision. Defined.

(** Modelled from the spec: the exclusive-access token of an entry
    ([struct sleeplock], declared in sleeplock.h, which is not part of the
    sources at hand).  It is a blocking, single-holder lock: [locked] tells
    whether it is held and [pid] names the holder. *)
Record sleeplock : Type := Sleeplock { locked : Z; pid : Z }.

(** Modelled from the spec: [struct buf] (buf.h is not part of the sources at
    hand); the fields are the ones bio.c reads and writes.  [dev], [blockno]
    and [refcnt] are [uint], [valid] is an [int], [data] is the block. *)
Record buf_t : Type := Buf {
  valid : Z;
  dev : Z;
  blockno : Z;
  lock : sleeplock;
  refcnt : Z;
  prev : ptr;
  next : ptr;
  data : list Z
}.

Definition set_valid (v : Z) (e : buf_t) : buf_t :=
  Buf v (dev e) (blockno e) (lock e) (refcnt e) (prev e) (next e) (data e).

Definition set_dev (v : Z) (e : buf_t) : buf_t :=
  Buf (valid e) v (blockno e) (lock e) (refcnt e) (prev e) (next e) (data e).

Definition set_blockno (v : Z) (e : buf_t) : buf_t :=
  Buf (valid e) (dev e) v (lock e) (refcnt e) (prev e) (next e) (data e).

Definition set_lock (v : sleeplock) (e : buf_t) : buf_t :=
  Buf (valid e) (dev e) (blockno e) v (refcnt e) (prev e) (next e) (data e).

Definition set_refcnt (v : Z) (e : buf_t) : buf_t :=
  Buf (valid e) (dev e) (blockno e) (lock e) v (prev e) (next e) (data e).

Definition set_prev (v : ptr) (e : buf_t) : buf_t :=
  Buf (valid e) (dev e) (blockno e) (lock e) (refcnt e) v (next e) (data e).

Definition set_next (v : ptr) (e : buf_t) : buf_t :=
  Buf (valid e) (dev e) (blockno e) (lock e) (refcnt e) (prev e) v (data e).

Definition set_data (v : list Z) (e : buf_t) : buf_t :=
  Buf (valid e) (dev e) (blockno e) (lock e) (refcnt e) (prev e) (next e) v.

(** Arithmetic on [uint]: 32 bits, wrapping. *)
Definition wrap32 (z : Z) : Z := z mod 2 ^ 32.

(** The spin locks of [bcache]. *)
Inductive lockid : Type :=
| Global
| Bucket (i : nat).

#[global] Instance lockid_eq_dec : EqDecision lockid.
Proof. solve_decision. Defined.

(** What the cache does to its collaborators, in program order. *)
Inductive event : Type :=
| Acq (l : lockid)
| Rel (l : lockid)
| DiskRead (d b : Z)
| DiskWrite (d b : Z) (bytes : list Z).

(** The global [bcache], the disk behind it and the event log. *)
Record bcache : Type := Bcache {
  bc_buf : list buf_t;
  bc_head : list buf_t;
  bc_disk : list (Z * Z * list Z);
  bc_log : list event
}.

Definition load (st : bcache) (p : ptr) : option buf_t :=
  match p with
  | Null => None
  | Hd i => bc_head st !! i
  | Bf i => bc_buf st !! i
  end.

Definition store (st : bcache) (p : ptr) (e : buf_t) : bcache :=
  match p with
  | Null => st
  | Hd i => Bcache (bc_buf st) (<[i:=e]> (bc_head st)) (bc_disk st) (bc_log st)
  | Bf i => Bcache (<[i:=e]> (bc_buf st)) (bc_head st) (bc_disk st) (bc_log st)
  end.

Definition emit (ev : event) (st : bcache) : bcache :=
  Bcache (bc_buf st) (bc_head st) (bc_disk st) (bc_log st ++ [ev]).

(** ** The monad of kernel code *)

Inductive outcome (A : Type) : Type :=
| Ret (a : A) (st : bcache)
| Panic (msg : string) (st : bcache)
| Sleeps (b : ptr) (st : bcache)
| Fault
| Diverges.

Arguments Ret {A} a st.

Arguments Panic {A} msg st.

Arguments Sleeps {A} b st.

Arguments Fault {A}.

Arguments Diverges {A}.

Definition M (A : Type) : Type := bcache -> outcome A.

#[global] Instance M_ret : MRet M := fun A a st => Ret a st.

#[global] Instance M_bind : MBind M := fun A B k m st =>
  match m st with
  | Ret a st' => k a st'
  | Panic msg st' => Panic msg st'
  | Sleeps b st' => Sleeps b st'
  | Fault => Fault
  | Diverges => Diverges
  end.

Definition ret {A} (a : A) : M A := mret a.

Definition panic {A} (msg : string) : M A := fun st => Panic msg st.

(** [*p] as an rvalue. *)
Definition rd (p : ptr) : M buf_t :=
  fun st => match load st p with Some e => Ret e st | None => Fault end.

(** An assignment to a field of [*p]. *)
Definition upd (p : ptr) (f : buf_t -> buf_t) : M unit :=
  fun st => match load st p with Some e => Ret tt (store st p (f e)) | None => Fault end.

(** [NBUF], the length of [bcache.buf] (param.h is not part of the sources at
    hand: the pool size is whatever the state was built with). *)
Definition nbuf : M nat := fun st => Ret (length (bc_buf st)) st.

(** A walk along [next] or [prev] that has not met the list head after
    visiting more nodes than there are has entered a cycle that does not
    contain the head; the C loop then never ends. *)
Definition walk_fuel : M nat :=
  fun st => Ret (S (length (bc_buf st) + length (bc_head st))) st.

(** Modelled from the spec: the short mutual-exclusion locks (spinlock.c is
    not part of the sources at hand).  Taking and dropping one is recorded in
    the log; waiting for a lock held elsewhere is not modelled. *)
Definition acquire (l : lockid) : M unit := fun st => Ret tt (emit (Acq l) st).

Definition release (l : lockid) : M unit := fun st => Ret tt (emit (Rel l) st).

(** Modelled from the spec: the blocking exclusive-access token
    (sleeplock.c is not part of the sources at hand).  [acquiresleep]
    suspends the caller while the token is held, [holdingsleep] tells
    whether the caller [me] is the holder. *)
Definition acquiresleep (b : ptr) (me : Z) : M unit :=
  fun st =>
    match load st b with
    | None => Fault
    | Some e =>
        if locked (lock e) =? 0
        then Ret tt (store st b (set_lock (Sleeplock 1 me) e))
        else Sleeps b st
    end.

Definition releasesleep (b : ptr) : M unit :=
  upd b (set_lock (Sleeplock 0 0)).

Definition holdingsleep (b : ptr) (me : Z) : M bool :=
  e ← rd b;
  ret (negb (locked (lock e) =? 0) && (pid (lock e) =? me))%bool.

Fixpoint disk_lookup (dsk : list (Z * Z * list Z)) (d b : Z) : list Z :=
  match dsk with
  | [] => []
  | (d', b', bytes) :: rest =>
      if ((d' =? d) && (b' =? b))%bool then bytes else disk_lookup rest d b
  end.

(** Modelled from the spec: the Storage Adapter ([virtio_disk_rw], whose
    source is not at hand): one synchronous transfer of one block. *)
Definition virtio_disk_rw (b : ptr) (write : bool) : M unit :=
  fun st =>
    match load st b with
    | None => Fault
    | Some e =>
        if write then
          Ret tt (Bcache (bc_buf st) (bc_head st)
                    ((dev e, blockno e, data e) :: bc_disk st)
                    (bc_log st ++ [DiskWrite (dev e) (blockno e) (data e)]))
        else
          Ret tt (emit (DiskRead (dev e) (blockno e))
                    (store st b (set_data (disk_lookup (bc_disk st) (dev e) (blockno e)) e)))
    end.

(** ** kernel/bio.c *)

Definition bucket_of (blockno_ : Z) : nat := Z.to_nat (blockno_ mod NBUCKETS).

(** [b->next->prev = b->prev; b->prev->next = b->next;] (bget lines 128-129,
    brelse lines 187-188). *)
Definition unlink (b : ptr) : M unit :=
  e ← rd b; upd (next e) (set_prev (prev e));;
  e ← rd b; upd (prev e) (set_next (next e)).

(** The four assignments that put [b] right behind [bcache.head[id]] (bget
    lines 131-134, brelse lines 189-192). *)
Definition link_front (b : ptr) (id : nat) : M unit :=
  h ← rd (Hd id); upd b (set_next (next h));;
  upd b (set_prev (Hd id));;
  h ← rd (Hd id); upd (next h) (set_prev b);;
  upd (Hd id) (set_next b).

Definition move_to_head (b : ptr) (id : nat) : M unit :=
  unlink b;; link_front b id.

(** The body of binit's inner loop (lines 60-64). *)
Definition push_front (b : ptr) (i : nat) : M unit :=
  h ← rd (Hd i); upd b (set_next (next h));;
  upd b (set_prev (Hd i));;
  upd b (set_lock (Sleeplock 0 0));;
  h ← rd (Hd i); upd (next h) (set_prev b);;
  upd (Hd i) (set_next b).

Fixpoint binit_heads (n : nat) (i : nat) : M unit :=
  match n with
  | O => ret tt
  | S n' =>
      upd (Hd i) (set_prev (Hd i));;
      upd (Hd i) (set_next (Hd i));;
      binit_heads n' (S i)
  end.

(** [for(b = bcache.buf+i; b < bcache.buf+NBUF; b += NBUCKETS)]; the loop
    runs at most [NBUF] times. *)
Fixpoint binit_bucket (fuel : nat) (NBUF : nat) (i : nat) (k : nat) : M unit :=
  match fuel with
  | O => ret tt
  | S fuel' =>
      if decide (k < NBUF)%nat then
        push_front (Bf k) i;;
        binit_bucket fuel' NBUF i (k + Z.to_nat NBUCKETS)%nat
      else ret tt
  end.

Fixpoint binit_buckets (n : nat) (NBUF : nat) (i : nat) : M unit :=
  match n with
  | O => ret tt
  | S n' =>
      binit_bucket NBUF NBUF i i;;
      binit_buckets n' NBUF (S i)
  end.

Definition binit : M unit :=
  NBUF ← nbuf;
  binit_heads (Z.to_nat NBUCKETS) 0%nat;;
  binit_buckets (Z.to_nat NBUCKETS) NBUF 0%nat.

(** bget, lines 83-90: is the block already cached? *)
Fixpoint bget_cached (fuel : nat) (me dev_ blockno_ : Z) (id : nat) (b : ptr)
  : M (option ptr) :=
  match fuel with
  | O => fun _ => Diverges
  | S fuel' =>
      if decide (b = Hd id) then ret None else
      e ← rd b;
      if ((dev e =? dev_) && (blockno e =? blockno_))%bool then
        upd b (fun e => set_refcnt (wrap32 (refcnt e + 1)) e);;
        release (Bucket id);;
        acquiresleep b me;;
        ret (Some b)
      else bget_cached fuel' me dev_ blockno_ id (next e)
  end.

(** bget, lines 93-103: recycle an unused buffer of the same bucket, least
    recently used first. *)
Fixpoint bget_recycle (fuel : nat) (me dev_ blockno_ : Z) (id : nat) (b : ptr)
  : M (option ptr) :=
  match fuel with
  | O => fun _ => Diverges
  | S fuel' =>
      if decide (b = Hd id) then ret None else
      e ← rd b;
      if refcnt e =? 0 then
        upd b (set_dev dev_);;
        upd b (set_blockno blockno_);;
        upd b (set_valid 0);;
        upd b (set_refcnt 1);;
        release (Bucket id);;
        acquiresleep b me;;
        ret (Some b)
      else bget_recycle fuel' me dev_ blockno_ id (prev e)
  end.

(** bget, lines 111-145: take a buffer from another bucket.  [bs] are the
    indices of [bcache.buf] still to be probed. *)
Fixpoint bget_steal (me dev_ blockno_ : Z) (id : nat) (bs : list nat)
  : M (option ptr) :=
  match bs with
  | [] => ret None
  | i :: bs' =>
      let b := Bf i in
      e ← rd b;
      let new_id := bucket_of (blockno e) in
      if decide (new_id = id) then bget_steal me dev_ blockno_ id bs' else
      acquire (Bucket new_id);;
      e ← rd b;
      if refcnt e =? 0 then
        upd b (set_dev dev_);;
        upd b (set_blockno blockno_);;
        upd b (set_valid 0);;
        upd b (set_refcnt 1);;
        move_to_head b id;;
        release (Bucket new_id);;
        release (Bucket id);;
        release Global;;
        acquiresleep b me;;
        ret (Some b)
      else
        release (Bucket new_id);;
        bget_steal me dev_ blockno_ id bs'
  end.

(** bget up to line 106: the critical section of the target bucket. *)
Definition bget_fast (me dev_ blockno_ : Z) : M (option ptr) :=
  let id := bucket_of blockno_ in
  acquire (Bucket id);;
  fuel ← walk_fuel;
  h ← rd (Hd id);
  r ← bget_cached fuel me dev_ blockno_ id (next h);
  match r with
  | Some b => ret (Some b)
  | None =>
      h ← rd (Hd id);
      r ← bget_recycle fuel me dev_ blockno_ id (prev h);
      match r with
      | Some b => ret (Some b)
      | None => release (Bucket id);; ret None
      end
  end.

(** bget from line 109 on: the critical section of the global lock. *)
Definition bget_slow (me dev_ blockno_ : Z) : M ptr :=
  let id := bucket_of blockno_ in
  acquire Global;;
  acquire (Bucket id);;
  NBUF ← nbuf;
  r ← bget_steal me dev_ blockno_ id (seq 0 NBUF);
  match r with
  | Some b => ret b
  | None => panic "bget: no buffers"
  end.

Definition bget (me dev_ blockno_ : Z) : M ptr :=
  r ← bget_fast me dev_ blockno_;
  match r with
  | Some b => ret b
  | None => bget_slow me dev_ blockno_
  end.

Definition bread (me dev_ blockno_ : Z) : M ptr :=
  b ← bget me dev_ blockno_;
  e ← rd b;
  if valid e =? 0 then
    virtio_disk_rw b false;;
    upd b (set_valid 1);;
    ret b
  else ret b.

Definition bwrite (me : Z) (b : ptr) : M unit :=
  held ← holdingsleep b me;
  if negb held then panic "bwrite" else
  virtio_disk_rw b true.

Definition brelse (me : Z) (b : ptr) : M unit :=
  held ← holdingsleep b me;
  if negb held then panic "brelse" else
  releasesleep b;;
  e ← rd b;
  let id := bucket_of (blockno e) in
  acquire (Bucket id);;
  upd b (fun e => set_refcnt (wrap32 (refcnt e - 1)) e);;
  e ← rd b;
  (if refcnt e =? 0 then move_to_head b id else ret tt);;
  release (Bucket id).

Definition bpin (b : ptr) : M unit :=
  e ← rd b;
  let id := bucket_of (blockno e) in
  acquire (Bucket id);;
  upd b (fun e => set_refcnt (wrap32 (refcnt e + 1)) e);;
  release (Bucket id).

Definition bunpin (b : ptr) : M unit :=
  e ← rd b;
  let id := bucket_of (blockno e) in
  acquire (Bucket id);;
  upd b (fun e => set_refcnt (wrap32 (refcnt e - 1)) e);;
  release (Bucket id).

(** The memory of a freshly loaded kernel: everything is zero. *)
Definition zero_buf : buf_t := Buf 0 0 0 (Sleeplock 0 0) 0 Null Null [].

Definition boot (NBUF : nat) : bcache :=
  Bcache (replicate NBUF zero_buf) (replicate (Z.to_nat NBUCKETS) zero_buf) [] [].

Definition state_of {A} (o : outcome A) (dflt : bcache) : bcache :=
  match o with
  | Ret _ st => st
  | Panic _ st => st
  | Sleeps _ st => st
  | _ => dflt
  end.

(** The cache after [binit]. *)
Definition init (NBUF : nat) : bcache := state_of (binit (boot NBUF)) (boot NBUF).

(** ** bio_after.c

    The earlier variant of [bget]: no recycling inside the bucket, no skip of
    the bucket that is already locked, no relinking of the buffer it takes,
    and the locks are dropped global lock first.  Everything else in the file
    is the same as in kernel/bio.c. *)

Module After.

Fixpoint bget_steal (me dev_ blockno_ : Z) (id : nat) (bs : list nat)
  : M (option ptr) :=
  match bs with
  | [] => ret None
  | i :: bs' =>
      let b := Bf i in
      e ← rd b;
      let new_id := bucket_of (blockno e) in
      acquire (Bucket new_id);;
      e ← rd b;
      if refcnt e =? 0 then
        upd b (set_dev dev_);;
        upd b (set_blockno blockno_);;
        upd b (set_valid 0);;
        upd b (set_refcnt 1);;
        release Global;;
        release (Bucket id);;
        release (Bucket new_id);;
        acquiresleep b me;;
        ret (Some b)
      else
        release (Bucket new_id);;
        bget_steal me dev_ blockno_ id bs'
  end.

Definition bget (me dev_ blockno_ : Z) : M ptr :=
  let id := bucket_of blockno_ in
  acquire (Bucket id);;
  fuel ← walk_fuel;
  h ← rd (Hd id);
  r ← bget_cached fuel me dev_ blockno_ id (next h);
  match r with
  | Some b => ret b
  | None =>
      release (Bucket id);;
      acquire Global;;
      acquire (Bucket id);;
      NBUF ← nbuf;
      r ← bget_steal me dev_ blockno_ id (seq 0 NBUF);
      match r with
      | Some b => ret b
      | None =>
          release Global;;
          release (Bucket id);;
          panic "bget: no buffers"
      end
  end.

End After.

(** ** A weakest-precondition calculus for the monad

    [wp m Q P S st]: if [m] started in [st] returns, [Q] holds of the result
    and the final state; if it panics, [P] holds of the message and the state
    it stops in; if it puts the caller to sleep on a buffer, [S] holds of the
    buffer and that state. *)

Definition wp {A} (m : M A) (Q : A -> bcache -> Prop)
  (P : string -> bcache -> Prop) (S : ptr -> bcache -> Prop)
  (st : bcache) : Prop :=
  match m st with
  | Ret a st' => Q a st'
  | Panic msg st' => P msg st'
  | Sleeps b st' => S b st'
  | Fault => True
  | Diverges => True
  end.

(** No panic, nobody put to sleep. *)
Definition never {A} : A -> bcache -> Prop := fun _ _ => False.

(** ** What the fields other than the links hold *)

Definition payload (e : buf_t) : Z * Z * Z * sleeplock * Z * list Z :=
  (valid e, dev e, blockno e, lock e, refcnt e, data e).

Definition links (e : buf_t) : ptr * ptr := (prev e, next e).

(** The two states agree on everything but the list pointers. *)
Record same_payload (st st' : bcache) : Prop := {
  sp_load : forall q, payload <$> load st' q = payload <$> load st q;
  sp_log : bc_log st' = bc_log st;
  sp_disk : bc_disk st' = bc_disk st;
  sp_nbuf : length (bc_buf st') = length (bc_buf st);
  sp_nhead : length (bc_head st') = length (bc_head st)
}.

(** ** The two walks along a bucket's list *)

(** [walk st f id skip k p q]: starting at [p] and following [f] ([next] or
    [prev]) for [k] nodes, none of them [bcache.head[id]] and all of them
    passed over by the loop, one arrives at [q]. *)
Inductive walk (st : bcache) (f : buf_t -> ptr) (id : nat) (skip : buf_t -> Prop)
  : nat -> ptr -> ptr -> Prop :=
| walk_here p : walk st f id skip 0 p p
| walk_step k p e q :
    p <> Hd id -> load st p = Some e -> skip e ->
    walk st f id skip k (f e) q ->
    walk st f id skip (S k) p q.

Definition nomatch (d n : Z) (e : buf_t) : Prop :=
  ((dev e =? d) && (blockno e =? n))%bool = false.

Definition busy (e : buf_t) : Prop := (refcnt e =? 0) = false.

Definition bump (e : buf_t) : buf_t := set_refcnt (wrap32 (refcnt e + 1)) e.

Definition drop (e : buf_t) : buf_t := set_refcnt (wrap32 (refcnt e - 1)) e.

Definition granted (me : Z) (e : buf_t) : buf_t := set_lock (Sleeplock 1 me) e.

Definition claimed (d n : Z) (e : buf_t) : buf_t :=
  set_refcnt 1 (set_valid 0 (set_blockno n (set_dev d e))).

(** The state in which the hit path of bget leaves the spin locks. *)
Definition hit_state (st : bcache) (b : ptr) (e0 : buf_t) (id : nat) : bcache :=
  emit (Rel (Bucket id)) (store st b (bump e0)).

(** The state in which the in-bucket recycling leaves the spin locks. *)
Definition claim_state (st : bcache) (b : ptr) (e0 : buf_t) (d n : Z) (id : nat)
  : bcache :=
  emit (Rel (Bucket id)) (store st b (claimed d n e0)).

(** ** The scan of the whole pool *)

Definition with_log (st : bcache) (l : list event) : bcache :=
  Bcache (bc_buf st) (bc_head st) (bc_disk st) l.

(** The log of a scan that probed and gave back the buckets [js]. *)
Definition probe_log (js : list nat) : list event :=
  flat_map (fun j => [Acq (Bucket j); Rel (Bucket j)]) js.

Definition probing (st : bcache) (js : list nat) : bcache :=
  with_log st (bc_log st ++ probe_log js).

(** What [bget_steal] leaves behind when it takes [b]: the state [st2] after
    the relabelling and the relinking, with the three locks dropped. *)
Definition stolen (st2 : bcache) (new_id id : nat) : bcache :=
  emit (Rel Global) (emit (Rel (Bucket id)) (emit (Rel (Bucket new_id)) st2)).

Definition relabelled (st : bcache) (js : list nat) (b : ptr) (e0 : buf_t) (d n : Z)
  : bcache :=
  store (emit (Acq (Bucket (bucket_of (blockno e0)))) (probing st js)) b (claimed d n e0).

(** ** The three ways through bget *)

Definition walk_len (st : bcache) : nat := S (length (bc_buf st) + length (bc_head st)).

(** The request finds no buffer of its block on the list of its bucket, and
    no unused buffer there either. *)
Definition missed (st : bcache) (d n : Z) : Prop :=
  exists h k k', load st (Hd (bucket_of n)) = Some h /\
    (k < walk_len st)%nat /\
    walk st next (bucket_of n) (nomatch d n) k (next h) (Hd (bucket_of n)) /\
    (k' < walk_len st)%nat /\
    walk st prev (bucket_of n) busy k' (prev h) (Hd (bucket_of n)).

(** [fast_released st d n b s]: the first critical section of bget, started
    in [st], reserves [b] and drops the bucket lock in state [s]. *)
Inductive fast_released (st : bcache) (d n : Z) : ptr -> bcache -> Prop :=
| rel_hit h k b e0 :
    load st (Hd (bucket_of n)) = Some h ->
    (k < walk_len st)%nat ->
    walk st next (bucket_of n) (nomatch d n) k (next h) b ->
    b <> Hd (bucket_of n) ->
    load st b = Some e0 -> dev e0 = d -> blockno e0 = n ->
    fast_released st d n b
      (hit_state (emit (Acq (Bucket (bucket_of n))) st) b e0 (bucket_of n))
| rel_recycle h k k' b e0 :
    load st (Hd (bucket_of n)) = Some h ->
    (k < walk_len st)%nat ->
    walk st next (bucket_of n) (nomatch d n) k (next h) (Hd (bucket_of n)) ->
    (k' < walk_len st)%nat ->
    walk st prev (bucket_of n) busy k' (prev h) b ->
    b <> Hd (bucket_of n) ->
    load st b = Some e0 -> refcnt e0 = 0 ->
    fast_released st d n b
      (claim_state (emit (Acq (Bucket (bucket_of n))) st) b e0 d n (bucket_of n)).

(** The state in which the pool scan starts: global lock and bucket lock
    taken. *)
Definition slow_entry (st : bcache) (id : nat) : bcache :=
  emit (Acq (Bucket id)) (emit (Acq Global) st).

(** [slow_released st d n b s]: the second critical section of bget, started
    in [st], takes [b] from another bucket and drops its locks in state
    [s]. *)
Inductive slow_released (st : bcache) (d n : Z) : ptr -> bcache -> Prop :=
| rel_steal js i e0 st2 :
    Forall (fun j => j <> bucket_of n) js ->
    (i < length (bc_buf st))%nat ->
    load st (Bf i) = Some e0 -> refcnt e0 = 0 ->
    bucket_of (blockno e0) <> bucket_of n ->
    move_to_head (Bf i) (bucket_of n)
      (relabelled (slow_entry st (bucket_of n)) js (Bf i) e0 d n) = Ret tt st2 ->
    slow_released st d n (Bf i) (stolen st2 (bucket_of (blockno e0)) (bucket_of n)).

(** No buffer of the pool can be stolen for bucket [id]. *)
Definition none_to_steal (st : bcache) (id : nat) : Prop :=
  forall i e, load st (Bf i) = Some e -> bucket_of (blockno e) = id \/ refcnt e <> 0.

(** The state between the two critical sections of bget. *)
Definition mid (st : bcache) (id : nat) : bcache :=
  emit (Rel (Bucket id)) (emit (Acq (Bucket id)) st).

(** [released st d n b s]: bget, started in [st], reserves [b] and has
    dropped all its spin locks in state [s]. *)
Definition released (st : bcache) (d n : Z) (b : ptr) (s : bcache) : Prop :=
  fast_released st d n b s \/
  (missed st d n /\ slow_released (mid st (bucket_of n)) d n b s).

(** What a reservation does to the buffer it takes and to the others. *)
Definition reserved (st : bcache) (d n : Z) (b : ptr) (s : bcache) : Prop :=
  exists e0 e1, load st b = Some e0 /\ load s b = Some e1 /\
    dev e1 = d /\ blockno e1 = n /\ lock e1 = lock e0 /\ data e1 = data e0 /\
    ((dev e0 = d /\ blockno e0 = n /\ refcnt e1 = wrap32 (refcnt e0 + 1) /\
      valid e1 = valid e0) \/
     (refcnt e0 = 0 /\ refcnt e1 = 1 /\ valid e1 = 0)) /\
    (forall q, q <> b -> payload <$> load s q = payload <$> load st q) /\
    bc_disk s = bc_disk st.

(** ** bwrite, brelse, bpin, bunpin evaluated *)

Definition holding (e : buf_t) (me : Z) : bool :=
  (negb (locked (lock e) =? 0) && (pid (lock e) =? me))%bool.

Definition unlocked (e : buf_t) : buf_t := set_lock (Sleeplock 0 0) e.

(** The state of brelse right after [b->refcnt--]. *)
Definition brelse_dropped (st : bcache) (b : ptr) (e : buf_t) : bcache :=
  store (emit (Acq (Bucket (bucket_of (blockno e)))) (store st b (unlocked e)))
    b (drop (unlocked e)).

(** The state an outcome stops in, if any. *)
Definition final {A} (o : outcome A) : option bcache :=
  match o with
  | Ret _ st => Some st
  | Panic _ st => Some st
  | Sleeps _ st => Some st
  | Fault => None
  | Diverges => None
  end.

(** ** The order in which the spin locks are taken and dropped *)

Definition is_bucket (l : lockid) : bool :=
  match l with Bucket _ => true | Global => false end.

Fixpoint remove_lock (l : lockid) (held : list lockid) : list lockid :=
  match held with
  | [] => []
  | x :: r => if decide (x = l) then r else x :: remove_lock l r
  end.

(** [coarse_first held evs]: along [evs], started with the locks [held], the
    global lock is taken only while no bucket lock is held and dropped only
    while no bucket lock is held. *)
Fixpoint coarse_first (held : list lockid) (evs : list event) : bool :=
  match evs with
  | [] => true
  | Acq Global :: r =>
      negb (existsb is_bucket held) && coarse_first (Global :: held) r
  | Acq (Bucket i) :: r => coarse_first (Bucket i :: held) r
  | Rel Global :: r =>
      negb (existsb is_bucket held) && coarse_first (remove_lock Global held) r
  | Rel (Bucket i) :: r => coarse_first (remove_lock (Bucket i) held) r
  | DiskRead _ _ :: r => coarse_first held r
  | DiskWrite _ _ _ :: r => coarse_first held r
  end.

(** The events a call appends to the log. *)
Definition appends (st st' : bcache) (evs : list event) : Prop :=
  bc_log st' = bc_log st ++ evs.

(** The log of a bget that reserved a buffer: [None] stands for the two
    paths that stay inside the bucket, [Some (js, new_id)] for the path that
    probes the buckets [js] in vain and then takes a buffer of bucket
    [new_id]. *)
Definition bget_log (id : nat) (path : option (list nat * nat)) : list event :=
  match path with
  | None => [Acq (Bucket id); Rel (Bucket id)]
  | Some (js, new_id) =>
      [Acq (Bucket id); Rel (Bucket id)] ++ [Acq Global; Acq (Bucket id)] ++ probe_log js ++
      [Acq (Bucket new_id); Rel (Bucket new_id); Rel (Bucket id); Rel Global]
  end.

Definition locks_in_order (st st' : bcache) : Prop :=
  exists evs, appends st st' evs /\ coarse_first [] evs = true.

Definition disk_event (e : buf_t) (write : bool) : event :=
  if write then DiskWrite (dev e) (blockno e) (data e) else DiskRead (dev e) (blockno e).

Definition run_disk (st : bcache) (b : ptr) (write : bool) : bcache :=
  state_of (virtio_disk_rw b write st) st.

(** The calls of the cache's interface. *)
Inductive call : Type :=
| Cbget (me d n : Z)
| Cbread (me d n : Z)
| Cbwrite (me : Z) (b : ptr)
| Cbrelse (me : Z) (b : ptr)
| Cbpin (b : ptr)
| Cbunpin (b : ptr).

Definition exec (c : call) : M unit :=
  match c with
  | Cbget me d n => bget me d n;; mret tt
  | Cbread me d n => bread me d n;; mret tt
  | Cbwrite me b => bwrite me b
  | Cbrelse me b => brelse me b
  | Cbpin b => bpin b
  | Cbunpin b => bunpin b
  end.

(** ** The lists behind the pointers *)

Definition nxt (st : bcache) (p : ptr) : option ptr := next <$> load st p.

Definition prv (st : bcache) (p : ptr) : option ptr := prev <$> load st p.

(** [q] follows [p] and [p] precedes [q]. *)
Definition hop (st : bcache) (p q : ptr) : Prop :=
  nxt st p = Some q /\ prv st q = Some p.

(** From [p] the buffers [l] follow one another, and [q] follows the last. *)
Fixpoint path (st : bcache) (p : ptr) (l : list nat) (q : ptr) : Prop :=
  match l with
  | [] => hop st p q
  | i :: l' => hop st p (Bf i) /\ path st (Bf i) l' q
  end.

(** The circular list of bucket [id] holds the buffers [l], most recently
    released first. *)
Definition dll (st : bcache) (id : nat) (l : list nat) : Prop :=
  path st (Hd id) l (Hd id).

(** Buffer [i] is on the list of bucket [id]. *)
Definition on_list (st : bcache) (id : nat) (i : nat) : Prop :=
  exists l, dll st id l /\ i ∈ l.

Definition firstp (l : list nat) (q : ptr) : ptr :=
  match l with [] => q | i :: _ => Bf i end.

Fixpoint lastp (p : ptr) (l : list nat) : ptr :=
  match l with [] => p | i :: l' => lastp (Bf i) l' end.

Definition nbuckets : nat := Z.to_nat NBUCKETS.

(** [ls k] is the list of bucket [k]: the pointers of the state spell out
    these lists, and no buffer is on two of them or twice on one. *)
Record lists_ok (st : bcache) (ls : nat -> list nat) : Prop := {
  lo_heads : length (bc_head st) = nbuckets;
  lo_dll : forall k, (k < nbuckets)%nat -> dll st k (ls k);
  lo_nodup : forall k, NoDup (ls k);
  lo_disj : forall k k' i, i ∈ ls k -> i ∈ ls k' -> k = k';
  lo_range : forall k i, i ∈ ls k -> (k < nbuckets)%nat /\ (i < length (bc_buf st))%nat
}.

(** Every buffer of the pool is on some list. *)
Definition covers (st : bcache) (ls : nat -> list nat) : Prop :=
  forall i, (i < length (bc_buf st))%nat -> exists k, i ∈ ls k.

(** The pointers of the state spell out thirteen circular lists without
    repetition, and every buffer of the pool is on exactly one of them. *)
Definition well_linked (st : bcache) : Prop :=
  exists ls, lists_ok st ls /\ covers st ls.

(** The pointers of [st'] are those of [st] with [i] put behind the head
    of bucket [id]. *)
Definition pushed (st st' : bcache) (ls : nat -> list nat) (i id : nat) : Prop :=
  length (bc_buf st') = length (bc_buf st) /\
  length (bc_head st') = length (bc_head st) /\
  (forall x, nxt st' x =
     if decide (x = Hd id) then Some (Bf i)
     else if decide (x = Bf i) then Some (firstp (ls id) (Hd id)) else nxt st x) /\
  (forall y, prv st' y =
     if decide (y = firstp (ls id) (Hd id)) then Some (Bf i)
     else if decide (y = Bf i) then Some (Hd id) else prv st y).

(** The lists after buffer [i] has been moved to the head of bucket [id]. *)
Definition moved (ls : nat -> list nat) (i id : nat) : nat -> list nat :=
  fun k => (if decide (k = id) then [i] else []) ++ filter (fun c => c <> i) (ls k).

(** ** The invariant of the cache *)

(** Every referenced buffer is on the list of the bucket its block number
    hashes to. *)
Definition in_bucket (st : bcache) (ls : nat -> list nat) : Prop :=
  forall i e, load st (Bf i) = Some e -> refcnt e <> 0 -> i ∈ ls (bucket_of (blockno e)).

Record inv_at (st : bcache) (ls : nat -> list nat) : Prop := {
  ia_ok : lists_ok st ls;
  ia_cov : covers st ls;
  ia_bucket : in_bucket st ls
}.

Definition inv (st : bcache) : Prop := exists ls, inv_at st ls.

(** ** The cache run by several callers at once

    [code A] is kernel code run one step at a time.  A step is one access
    to a cell of [bcache] ([Get] reads [*p], [Put] assigns to a field of
    [*p]), one disk transfer ([Disk]), the taking or dropping of one spin
    lock ([Acquire], [Release]), or the taking of a sleep lock
    ([AcquireSleep]); [Size] hands over the constants [NBUF] and
    [NBUCKETS], [Abort] is [panic] and [Spin] is a loop that never ends.
    Between two steps of one caller the other callers may take any number
    of steps.  [Acquire] waits while the spin lock is held, [AcquireSleep]
    while the sleep lock is held.  The processors of the real machine
    interleave their accesses at least this finely, so that every run of
    [step] below is a run of the kernel. *)

Inductive code (A : Type) : Type :=
| Fin (a : A)
| Abort (msg : string)
| Spin
| Get (p : ptr) (k : buf_t -> code A)
| Put (p : ptr) (f : buf_t -> buf_t) (k : code A)
| Size (k : nat -> nat -> code A)
| Disk (b : ptr) (write : bool) (k : code A)
| Acquire (l : lockid) (k : code A)
| Release (l : lockid) (k : code A)
| AcquireSleep (b : ptr) (me : Z) (k : code A).

Arguments Fin {A} a.

Arguments Abort {A} msg.

Arguments Spin {A}.

Arguments Get {A} p k.

Arguments Put {A} p f k.

Arguments Size {A} k.

Arguments Disk {A} b write k.

Arguments Acquire {A} l k.

Arguments Release {A} l k.

Arguments AcquireSleep {A} b me k.

Fixpoint code_bind {A B} (f : A -> code B) (c : code A) : code B :=
  match c with
  | Fin a => f a
  | Abort msg => Abort msg
  | Spin => Spin
  | Get p k => Get p (fun e => code_bind f (k e))
  | Put p g k => Put p g (code_bind f k)
  | Size k => Size (fun n h => code_bind f (k n h))
  | Disk b w k => Disk b w (code_bind f k)
  | Acquire l k => Acquire l (code_bind f k)
  | Release l k => Release l (code_bind f k)
  | AcquireSleep b me k => AcquireSleep b me (code_bind f k)
  end.

#[global] Instance code_ret : MRet code := fun A a => Fin a.

#[global] Instance code_mbind : MBind code := fun A B f c => code_bind f c.

(** The code run from its first step to its last with no other caller in
    between. *)
Fixpoint alone {A} (c : code A) : M A :=
  match c with
  | Fin a => ret a
  | Abort msg => panic msg
  | Spin => fun _ => Diverges
  | Get p k => e ← rd p; alone (k e)
  | Put p f k => upd p f;; alone k
  | Size k => fun st => alone (k (length (bc_buf st)) (length (bc_head st))) st
  | Disk b w k => virtio_disk_rw b w;; alone k
  | Acquire l k => acquire l;; alone k
  | Release l k => release l;; alone k
  | AcquireSleep b me k => acquiresleep b me;; alone k
  end.

(** [c], run without interruption, does what [m] does. *)
Definition sim {A} (c : code A) (m : M A) : Prop := forall st, alone c st = m st.

Fixpoint remove_first {A} `{EqDecision A} (x : A) (l : list A) : list A :=
  match l with
  | [] => []
  | y :: r => if decide (y = x) then r else y :: remove_first x r
  end.

(** One step of caller [t], who runs [c], in memory [st] while the spin
    locks [h] are held: the code that is left, the memory and the locks
    after the step.  There is no step when the caller has to wait, when its
    code has come to an end, or when it would dereference a pointer outside
    the two arrays. *)
Definition advance {A} (t : Z) (c : code A) (st : bcache) (h : list (lockid * Z))
  : option (code A * bcache * list (lockid * Z)) :=
  match c with
  | Fin _ => None
  | Abort _ => None
  | Spin => None
  | Get p k =>
      match rd p st with Ret e st' => Some (k e, st', h) | _ => None end
  | Put p f k =>
      match upd p f st with Ret _ st' => Some (k, st', h) | _ => None end
  | Size k => Some (k (length (bc_buf st)) (length (bc_head st)), st, h)
  | Disk b w k =>
      match virtio_disk_rw b w st with Ret _ st' => Some (k, st', h) | _ => None end
  | Acquire l k =>
      if bool_decide (l ∈ h.*1) then None
      else match acquire l st with Ret _ st' => Some (k, st', (l, t) :: h) | _ => None end
  | Release l k =>
      if bool_decide ((l, t) ∈ h)
      then match release l st with
           | Ret _ st' => Some (k, st', remove_first (l, t) h)
           | _ => None
           end
      else None
  | AcquireSleep b me k =>
      match acquiresleep b me st with Ret _ st' => Some (k, st', h) | _ => None end
  end.

(** What a piece of code does next. *)
Inductive op : Type :=
| OFin
| OAbort
| OSpin
| OGet (p : ptr)
| OPut (p : ptr)
| OSize
| ODisk (b : ptr)
| OAcquire (l : lockid)
| ORelease (l : lockid)
| OAcquireSleep (b : ptr).

Definition next_op {A} (c : code A) : op :=
  match c with
  | Fin _ => OFin
  | Abort _ => OAbort
  | Spin => OSpin
  | Get p _ => OGet p
  | Put p _ _ => OPut p
  | Size _ => OSize
  | Disk b _ _ => ODisk b
  | Acquire l _ => OAcquire l
  | Release l _ => ORelease l
  | AcquireSleep b _ _ => OAcquireSleep b
  end.

(** kernel/bio.c once more, as code that is run step by step.  The text of
    each function is the one of the section kernel/bio.c above. *)
Module Conc.

Definition ret {A} (a : A) : code A := Fin a.

Definition panic {A} (msg : string) : code A := Abort msg.

Definition rd (p : ptr) : code buf_t := Get p Fin.

Definition upd (p : ptr) (f : buf_t -> buf_t) : code unit := Put p f (Fin tt).

Definition nbuf : code nat := Size (fun n _ => Fin n).

Definition walk_fuel : code nat := Size (fun n h => Fin (S (n + h))).

Definition acquire (l : lockid) : code unit := Acquire l (Fin tt).

Definition release (l : lockid) : code unit := Release l (Fin tt).

Definition acquiresleep (b : ptr) (me : Z) : code unit := AcquireSleep b me (Fin tt).

Definition releasesleep (b : ptr) : code unit :=
  upd b (set_lock (Sleeplock 0 0)).

Definition holdingsleep (b : ptr) (me : Z) : code bool :=
  e ← rd b;
  ret (negb (locked (lock e) =? 0) && (pid (lock e) =? me))%bool.

Definition virtio_disk_rw (b : ptr) (write : bool) : code unit := Disk b write (Fin tt).

Definition unlink (b : ptr) : code unit :=
  e ← rd b; upd (next e) (set_prev (prev e));;
  e ← rd b; upd (prev e) (set_next (next e)).

Definition link_front (b : ptr) (id : nat) : code unit :=
  h ← rd (Hd id); upd b (set_next (next h));;
  upd b (set_prev (Hd id));;
  h ← rd (Hd id); upd (next h) (set_prev b);;
  upd (Hd id) (set_next b).

Definition move_to_head (b : ptr) (id : nat) : code unit :=
  unlink b;; link_front b id.

Fixpoint bget_cached (fuel : nat) (me dev_ blockno_ : Z) (id : nat) (b : ptr)
  : code (option ptr) :=
  match fuel with
  | O => Spin
  | S fuel' =>
      if decide (b = Hd id) then ret None else
      e ← rd b;
      if ((dev e =? dev_) && (blockno e =? blockno_))%bool then
        upd b (fun e => set_refcnt (wrap32 (refcnt e + 1)) e);;
        release (Bucket id);;
        acquiresleep b me;;
        ret (Some b)
      else bget_cached fuel' me dev_ blockno_ id (next e)
  end.

Fixpoint bget_recycle (fuel : nat) (me dev_ blockno_ : Z) (id : nat) (b : ptr)
  : code (option ptr) :=
  match fuel with
  | O => Spin
  | S fuel' =>
      if decide (b = Hd id) then ret None else
      e ← rd b;
      if refcnt e =? 0 then
        upd b (set_dev dev_);;
        upd b (set_blockno blockno_);;
        upd b (set_valid 0);;
        upd b (set_refcnt 1);;
        release (Bucket id);;
        acquiresleep b me;;
        ret (Some b)
      else bget_recycle fuel' me dev_ blockno_ id (prev e)
  end.

Fixpoint bget_steal (me dev_ blockno_ : Z) (id : nat) (bs : list nat)
  : code (option ptr) :=
  match bs with
  | [] => ret None
  | i :: bs' =>
      let b := Bf i in
      e ← rd b;
      let new_id := bucket_of (blockno e) in
      if decide (new_id = id) then bget_steal me dev_ blockno_ id bs' else
      acquire (Bucket new_id);;
      e ← rd b;
      if refcnt e =? 0 then
        upd b (set_dev dev_);;
        upd b (set_blockno blockno_);;
        upd b (set_valid 0);;
        upd b (set_refcnt 1);;
        move_to_head b id;;
        release (Bucket new_id);;
        release (Bucket id);;
        release Global;;
        acquiresleep b me;;
        ret (Some b)
      else
        release (Bucket new_id);;
        bget_steal me dev_ blockno_ id bs'
  end.

Definition bget_fast (me dev_ blockno_ : Z) : code (option ptr) :=
  let id := bucket_of blockno_ in
  acquire (Bucket id);;
  fuel ← walk_fuel;
  h ← rd (Hd id);
  r ← bget_cached fuel me dev_ blockno_ id (next h);
  match r with
  | Some b => ret (Some b)
  | None =>
      h ← rd (Hd id);
      r ← bget_recycle fuel me dev_ blockno_ id (prev h);
      match r with
      | Some b => ret (Some b)
      | None => release (Bucket id);; ret None
      end
  end.

Definition bget_slow (me dev_ blockno_ : Z) : code ptr :=
  let id := bucket_of blockno_ in
  acquire Global;;
  acquire (Bucket id);;
  NBUF ← nbuf;
  r ← bget_steal me dev_ blockno_ id (seq 0 NBUF);
  match r with
  | Some b => ret b
  | None => panic "bget: no buffers"
  end.

Definition bget (me dev_ blockno_ : Z) : code ptr :=
  r ← bget_fast me dev_ blockno_;
  match r with
  | Some b => ret b
  | None => bget_slow me dev_ blockno_
  end.

Definition bread (me dev_ blockno_ : Z) : code ptr :=
  b ← bget me dev_ blockno_;
  e ← rd b;
  if valid e =? 0 then
    virtio_disk_rw b false;;
    upd b (set_valid 1);;
    ret b
  else ret b.

Definition bwrite (me : Z) (b : ptr) : code unit :=
  held ← holdingsleep b me;
  if negb held then panic "bwrite" else
  virtio_disk_rw b true.

Definition brelse (me : Z) (b : ptr) : code unit :=
  held ← holdingsleep b me;
  if negb held then panic "brelse" else
  releasesleep b;;
  e ← rd b;
  let id := bucket_of (blockno e) in
  acquire (Bucket id);;
  upd b (fun e => set_refcnt (wrap32 (refcnt e - 1)) e);;
  e ← rd b;
  (if refcnt e =? 0 then move_to_head b id else ret tt);;
  release (Bucket id).

Definition bpin (b : ptr) : code unit :=
  e ← rd b;
  let id := bucket_of (blockno e) in
  acquire (Bucket id);;
  upd b (fun e => set_refcnt (wrap32 (refcnt e + 1)) e);;
  release (Bucket id).

Definition bunpin (b : ptr) : code unit :=
  e ← rd b;
  let id := bucket_of (blockno e) in
  acquire (Bucket id);;
  upd b (fun e => set_refcnt (wrap32 (refcnt e - 1)) e);;
  release (Bucket id).

Definition exec (c : call) : code unit :=
  match c with
  | Cbget me d n => bget me d n;; ret tt
  | Cbread me d n => bread me d n;; ret tt
  | Cbwrite me b => bwrite me b
  | Cbrelse me b => brelse me b
  | Cbpin b => bpin b
  | Cbunpin b => bunpin b
  end.

End Conc.

(** The callers keep to the discipline of reference counts: bwrite, brelse,
    bpin and bunpin are called on a buffer of the pool whose count is not
    zero. *)
Definition referenced (st : bcache) (b : ptr) : bool :=
  match b with
  | Bf i => match load st b with Some e => negb (refcnt e =? 0) | None => false end
  | _ => false
  end.

(** Caller [t] may start the call [c] in memory [st]. *)
Definition entitled (st : bcache) (t : Z) (c : call) : bool :=
  match c with
  | Cbget me _ _ => me =? t
  | Cbread me _ _ => me =? t
  | Cbwrite me b => (me =? t) && referenced st b
  | Cbrelse me b => (me =? t) && referenced st b
  | Cbpin b => referenced st b
  | Cbunpin b => referenced st b
  end.

(** The cache and its callers: the memory, who holds which spin lock, and
    what each caller that is inside a call has left to run. *)
Record sys : Type := Sys {
  mem : bcache;
  held : list (lockid * Z);
  running : list (Z * code unit)
}.

(** A caller enters a call, a caller inside a call takes one step, or a
    caller whose call has come to its end leaves. *)
Inductive step : sys -> sys -> Prop :=
| step_call σ t c :
    t ∉ (running σ).*1 -> entitled (mem σ) t c = true ->
    step σ (Sys (mem σ) (held σ) (running σ ++ [(t, Conc.exec c)]))
| step_run σ r1 t c r2 c' st' h' :
    running σ = r1 ++ (t, c) :: r2 ->
    advance t c (mem σ) (held σ) = Some (c', st', h') ->
    step σ (Sys st' h' (r1 ++ (t, c') :: r2))
| step_return σ r1 t r2 :
    running σ = r1 ++ (t, Fin tt) :: r2 ->
    step σ (Sys (mem σ) (held σ) (r1 ++ r2)).

(** The states the cache of [NBUF] buffers can be in. *)
Inductive reachable (NBUF : nat) : sys -> Prop :=
| reach_init : reachable NBUF (Sys (init NBUF) [] [])
| reach_step σ σ' : reachable NBUF σ -> step σ σ' -> reachable NBUF σ'.

(** A schedule: who enters which call and who takes how many steps. *)
Inductive cmd : Type :=
| Call (t : Z) (c : call)
| Go (t : Z) (n : nat).

(** The first caller [t] of [r], with the callers before and after it. *)
Fixpoint pick (t : Z) (r : list (Z * code unit))
  : option (list (Z * code unit) * code unit * list (Z * code unit)) :=
  match r with
  | [] => None
  | (t', c) :: r' =>
      if decide (t' = t) then Some ([], c, r')
      else match pick t r' with
           | Some (r1, c', r2) => Some ((t', c) :: r1, c', r2)
           | None => None
           end
  end.

Definition is_fin (c : code unit) : bool :=
  match c with Fin _ => true | _ => false end.

(** One step of caller [t], if it can take one. *)
Definition move (t : Z) (σ : sys) : option sys :=
  match pick t (running σ) with
  | None => None
  | Some (r1, c, r2) =>
      if is_fin c then Some (Sys (mem σ) (held σ) (r1 ++ r2))
      else match advance t c (mem σ) (held σ) with
           | Some (c', st', h') => Some (Sys st' h' (r1 ++ (t, c') :: r2))
           | None => None
           end
  end.

(** At most [n] steps of caller [t]: it stops when it has to wait or has
    left. *)
Fixpoint go (n : nat) (t : Z) (σ : sys) : sys :=
  match n with
  | O => σ
  | S n' => match move t σ with Some σ' => go n' t σ' | None => σ end
  end.

Definition obey (σ : sys) (c : cmd) : sys :=
  match c with
  | Call t c =>
      if bool_decide (t ∉ (running σ).*1) && entitled (mem σ) t c
      then Sys (mem σ) (held σ) (running σ ++ [(t, Conc.exec c)])
      else σ
  | Go t n => go n t σ
  end.

(** The state a schedule leads to. *)
Definition play (s : list cmd) (σ : sys) : sys := foldl obey σ s.

(** What caller [t] does next, if it is inside a call. *)
Definition about_to (σ : sys) (t : Z) : option op :=
  match pick t (running σ) with
  | Some (_, c, _) => Some (next_op c)
  | None => None
  end.

(** ** binit *)

Definition all_free (st : bcache) : Prop :=
  forall q e, load st q = Some e -> refcnt e = 0.

(** The state after the first loop of binit: every head is linked to
    itself. *)
Definition heads_ready (NBUF : nat) : bcache :=
  state_of (binit_heads nbuckets 0 (boot NBUF)) (boot NBUF).

(** Nothing but the list pointers has been written since the kernel was
    loaded. *)
Definition pristine (st : bcache) : Prop :=
  (forall q e, load st q = Some e -> payload e = payload zero_buf) /\
  bc_log st = [] /\ bc_disk st = [].

(** The buffers binit puts on the list of bucket [k], from the head on: the
    one pushed last comes first. *)
Definition binit_list (NBUF k : nat) : list nat :=
  reverse (filter (fun c => (c mod 13 = k)%nat) (seq 0 NBUF)).

(** ** The cache used by one caller at a time

    When the callers take turns, no two referenced buffers ever carry the
    same identity. *)

(** On each list a referenced buffer comes before every other buffer of its
    identity: the walk of lines 83-90 meets it first. *)
Definition first_match (st : bcache) (ls : nat -> list nat) : Prop :=
  forall k l1 i l2 e j e',
    ls k = l1 ++ i :: l2 -> j ∈ l1 ->
    load st (Bf i) = Some e -> load st (Bf j) = Some e' ->
    refcnt e <> 0 -> dev e' = dev e -> blockno e' = blockno e -> False.

(** No two referenced buffers carry the same device and block number. *)
Definition unique_live (st : bcache) : Prop :=
  forall i j e e',
    load st (Bf i) = Some e -> load st (Bf j) = Some e' ->
    refcnt e <> 0 -> refcnt e' <> 0 ->
    dev e = dev e' -> blockno e = blockno e' -> i = j.

(** The invariant of the cache together with [first_match]. *)
Record inv2_at (st : bcache) (ls : nat -> list nat) : Prop := {
  i2_inv : inv_at st ls;
  i2_first : first_match st ls
}.

Definition inv2 (st : bcache) : Prop := exists ls, inv2_at st ls.

(** bread's part after bget: [virtio_disk_rw(b, 0); b->valid = 1]. *)
Definition fill (b : ptr) : M unit :=
  virtio_disk_rw b false;; upd b (set_valid 1).

(** The cache used by one caller at a time: no two callers are inside the
    cache at once, every call runs from its first line to its last before
    the next one starts.  A caller whom bget has put to sleep on a sleep
    lock goes on later, when the lock is free; bread is bget followed by the
    reading of the block, and the holder of a sleep lock may change the
    data.  The callers keep to the discipline of reference counts: brelse,
    bpin and bunpin are called on buffers of the pool whose count is not
    zero. *)
Record serial_sys : Type := SerialSys {
  cache : bcache;
  asleep : list (Z * ptr)
}.

Inductive serial_step : serial_sys -> serial_sys -> Prop :=
| serial_bget_return σ me d n b st' :
    bget me d n (cache σ) = Ret b st' ->
    serial_step σ (SerialSys st' (asleep σ))
| serial_bget_sleep σ me d n b st' :
    bget me d n (cache σ) = Sleeps b st' ->
    serial_step σ (SerialSys st' ((me, b) :: asleep σ))
| serial_wake σ me b st' :
    (me, b) ∈ asleep σ ->
    acquiresleep b me (cache σ) = Ret tt st' ->
    serial_step σ (SerialSys st' (remove_first (me, b) (asleep σ)))
| serial_fill σ me b st' :
    holdingsleep b me (cache σ) = Ret true (cache σ) ->
    fill b (cache σ) = Ret tt st' ->
    serial_step σ (SerialSys st' (asleep σ))
| serial_data σ me b bytes st' :
    holdingsleep b me (cache σ) = Ret true (cache σ) ->
    upd b (set_data bytes) (cache σ) = Ret tt st' ->
    serial_step σ (SerialSys st' (asleep σ))
| serial_bwrite σ me b st' :
    bwrite me b (cache σ) = Ret tt st' ->
    serial_step σ (SerialSys st' (asleep σ))
| serial_brelse σ me i e st' :
    load (cache σ) (Bf i) = Some e -> refcnt e <> 0 ->
    brelse me (Bf i) (cache σ) = Ret tt st' ->
    serial_step σ (SerialSys st' (asleep σ))
| serial_bpin σ i e st' :
    load (cache σ) (Bf i) = Some e -> refcnt e <> 0 ->
    bpin (Bf i) (cache σ) = Ret tt st' ->
    serial_step σ (SerialSys st' (asleep σ))
| serial_bunpin σ i e st' :
    load (cache σ) (Bf i) = Some e -> refcnt e <> 0 ->
    bunpin (Bf i) (cache σ) = Ret tt st' ->
    serial_step σ (SerialSys st' (asleep σ)).

(** The states the cache of [NBUF] buffers can be in when its callers take
    turns. *)
Inductive serial (NBUF : nat) : serial_sys -> Prop :=
| serial_init : serial NBUF (SerialSys (init NBUF) [])
| serial_next σ σ' : serial NBUF σ -> serial_step σ σ' -> serial NBUF σ'.

(** ** The states the claims are stated on *)

(** A pool of thirty buffers, the size xv6 is built with, right after
    [binit]. *)
Definition pool30 : bcache := init 30.

Definition run {A} (m : M A) (st : bcache) : bcache := state_of (m st) st.

(** Bucket 12 of the thirty-buffer pool holds two buffers; both are pinned. *)
Definition pinned12 : bcache := run (bget 7 1 25) (run (bget 7 1 12) pool30).

(** Bucket 0 of the thirty-buffer pool holds three buffers; all are
    pinned. *)
Definition pinned0 : bcache :=
  run (bget 7 1 26) (run (bget 7 1 13) (run (bget 7 1 0) pool30)).

(** Block 5 of device 1 has been read once and released: it is cached in
    buffer 5. *)
Definition cached5 : bcache := run (brelse 7 (Bf 5)) (run (bread 7 1 5) pool30).

(** The thirty-buffer cache after caller 7 has pinned the two buffers of
    bucket 12: bget(1, 12) and bget(1, 25) have run one after the other. *)
Definition sys_pinned12 : sys :=
  play [Call 7 (Cbget 7 1 12); Go 7 100; Call 7 (Cbget 7 1 25); Go 7 100] (Sys pool30 [] []).

(** Two callers, 8 and 9, ask for block 38 of device 1 while bucket 12 is
    fully pinned.  Each takes the nine steps of lines 80-106: both miss and
    drop the bucket lock.  Then caller 8 runs the rest of its bget, and
    after it caller 9. *)
Definition race_missed : sys :=
  play [Call 8 (Cbget 8 1 38); Go 8 9; Call 9 (Cbget 9 1 38); Go 9 9] sys_pinned12.

Definition race_first : sys := play [Go 8 100] race_missed.

Definition race_second : sys := play [Go 9 100] race_first.

(** Caller 7 pins buffer 0 as well.  Then caller 8 asks for block 38, which
    belongs to the fully pinned bucket 12, and caller 9 asks for block 1.
    Buffer 1 has never been used: it is on the list of bucket 1 and its
    block number is still 0. *)
Definition race_entered : sys :=
  play [Call 7 (Cbget 7 1 0); Go 7 100; Call 8 (Cbget 8 1 38); Call 9 (Cbget 9 1 1)]
    sys_pinned12.

(** Caller 8 takes nineteen steps: it misses in bucket 12, takes the global
    lock and the lock of bucket 12, passes over buffer 0, takes the lock of
    bucket 0 for buffer 1 and reads its count (line 121).  Caller 9 takes
    eight steps: it takes the lock of bucket 1, finds no buffer of block 1
    and reads the count of buffer 1, the last of the list (line 94). *)
Definition race_tested : sys := play [Go 8 19; Go 9 8] race_entered.

(** Caller 8 runs the rest of its bget, lines 123-139. *)
Definition race_stolen : sys := play [Go 8 100] race_tested.

(** Caller 9 runs the rest of its bget, lines 95-100. *)
Definition race_relabelled : sys := play [Go 9 100] race_stolen.

(** After that race caller 7 releases buffer 0.  Caller 10 asks for block
    51, which belongs to bucket 12: it misses, and its pool scan takes
    buffer 0, unlinks it and runs lines 131-132.  It has taken twenty-eight
    steps and is about to read [bcache.head[12].next] for line 133. *)
Definition race_linking : sys :=
  play [Call 7 (Cbrelse 7 (Bf 0)); Go 7 100; Call 10 (Cbget 10 1 51); Go 10 28]
    race_relabelled.

(** Caller 8, who holds the sleep lock of buffer 1, releases the buffer: a
    whole brelse, under the lock of bucket 1.  Then caller 10 runs the rest
    of its bget. *)
Definition race_knotted : sys :=
  play [Call 8 (Cbrelse 8 (Bf 1)); Go 8 100; Go 10 100] race_linking.

(** ** The calls end *)

(** The computation came to an end: it dereferenced no pointer outside the
    two arrays and no walk of it went round a list without meeting the
    head. *)
Definition safe {A} (o : outcome A) : Prop :=
  match o with
  | Fault => False
  | Diverges => False
  | _ => True
  end.

(** The buffer arguments of a call point into [bcache.buf]. *)
Definition call_ok (st : bcache) (c : call) : Prop :=
  match c with
  | Cbget _ _ _ => True
  | Cbread _ _ _ => True
  | Cbwrite _ b => exists i, b = Bf i /\ (i < length (bc_buf st))%nat
  | Cbrelse _ b => exists i, b = Bf i /\ (i < length (bc_buf st))%nat
  | Cbpin b => exists i, b = Bf i /\ (i < length (bc_buf st))%nat
  | Cbunpin b => exists i, b = Bf i /\ (i < length (bc_buf st))%nat
  end.

(** ** Which buffer bget takes *)

(** Buffer [i] holds block [n] of device [d] (the test of line 84). *)
Definition matches (st : bcache) (d n : Z) (i : nat) : bool :=
  match load st (Bf i) with
  | Some e => (dev e =? d) && (blockno e =? n)
  | None => false
  end.

(** Nobody holds a reference to buffer [i] (the test of lines 94 and 121). *)
Definition unused (st : bcache) (i : nat) : bool :=
  match load st (Bf i) with
  | Some e => refcnt e =? 0
  | None => false
  end.

(** The pool scan, run for bucket [id], takes buffer [i] when it comes to it
    (lines 115-121). *)
Definition stealable (st : bcache) (id : nat) (i : nat) : bool :=
  match load st (Bf i) with
  | Some e => (refcnt e =? 0) && negb (bucket_of (blockno e) =? id)%nat
  | None => false
  end.

(** ** The discipline of the spin locks *)

(** The spin locks a caller holds after the events [evs], having held
    [held] before. *)
Fixpoint held_after (held : list lockid) (evs : list event) : list lockid :=
  match evs with
  | [] => held
  | Acq l :: r => held_after (l :: held) r
  | Rel l :: r => held_after (remove_lock l held) r
  | DiskRead _ _ :: r => held_after held r
  | DiskWrite _ _ _ :: r => held_after held r
  end.

(** Along [evs] the caller takes no spin lock that it holds already (it
    would wait for itself, see the comment of line 116) and drops none that
    it does not hold. *)
Fixpoint well_locked (held : list lockid) (evs : list event) : bool :=
  match evs with
  | [] => true
  | Acq l :: r => negb (bool_decide (l ∈ held)) && well_locked (l :: held) r
  | Rel l :: r => bool_decide (l ∈ held) && well_locked (remove_lock l held) r
  | DiskRead _ _ :: r => well_locked held r
  | DiskWrite _ _ _ :: r => well_locked held r
  end.

(** What the call that led from [st] to [st'] added to the log keeps to the
    discipline and leaves the locks [tail] held. *)
Definition disciplined (st : bcache) (tail : list lockid) (st' : bcache) : Prop :=
  exists evs, appends st st' evs /\ well_locked [] evs = true /\ held_after [] evs = tail.

(** The spin locks a call holds when it panics: bget panics in the middle of
    the pool scan, the other calls before they take a lock. *)
Definition held_at_panic (c : call) : list lockid :=
  match c with
  | Cbget _ _ n => [Bucket (bucket_of n); Global]
  | Cbread _ _ n => [Bucket (bucket_of n); Global]
  | _ => []
  end.

(** ** What bio_after.c does differently *)

(** From [st] to [st'] the log has only grown and no [prev] or [next] has
    changed. *)
Definition kept_links (st st' : bcache) : Prop :=
  (exists evs, appends st st' evs) /\
  (forall q, links <$> load st' q = links <$> load st q).

(** The block is in no buffer and in no list head. *)
Definition nowhere (st : bcache) (d n : Z) : bool :=
  forallb (fun e => negb ((dev e =? d) && (blockno e =? n))) (bc_buf st ++ bc_head st).

(** ** More states of the thirty-buffer cache *)

(** The thirty-buffer cache after three calls of bget that ran one after the
    other: blocks 12 and 25 fill bucket 12, block 38 took buffer 0 from
    bucket 0. *)
Definition sys_shared : serial_sys :=
  SerialSys (run (bget 8 1 38) (run (bget 7 1 25) (run (bget 7 1 12) pool30))) [].

(** * Lemmas *)

(** ** Reading and writing memory *)

Lemma load_store st p v q e :
  load st p = Some e ->
  load (store st p v) q = if decide (p = q) then Some v else load st q.
Proof.
  intros Hp. destruct (decide (p = q)) as [<-|Hne].
  - destruct p as [|i|i]; simpl in *; try discriminate;
      apply list_lookup_insert_eq; by eapply lookup_lt_Some.
  - destruct p as [|i|i], q as [|j|j]; simpl; try done;
      apply list_lookup_insert_ne; congruence.
Qed.

Lemma load_store_eq st p v e : load st p = Some e -> load (store st p v) p = Some v.
Proof. intros H. rewrite (load_store _ _ _ _ _ H). by rewrite decide_True. Qed.

Lemma load_store_ne st p v q : p <> q -> load (store st p v) q = load st q.
Proof.
  intros Hne. destruct p as [|i|i], q as [|j|j]; simpl; try done;
    apply list_lookup_insert_ne; congruence.
Qed.

Lemma load_emit st ev p : load (emit ev st) p = load st p.
Proof. by destruct p. Qed.

Lemma log_store st p v : bc_log (store st p v) = bc_log st.
Proof. by destruct p. Qed.

Lemma disk_store st p v : bc_disk (store st p v) = bc_disk st.
Proof. by destruct p. Qed.

Lemma nbuf_store st p v : length (bc_buf (store st p v)) = length (bc_buf st).
Proof. destruct p; simpl; try done. apply length_insert. Qed.

Lemma nhead_store st p v : length (bc_head (store st p v)) = length (bc_head st).
Proof. destruct p; simpl; try done. apply length_insert. Qed.

Lemma nbuf_emit st ev : length (bc_buf (emit ev st)) = length (bc_buf st).
Proof. done. Qed.

Lemma nhead_emit st ev : length (bc_head (emit ev st)) = length (bc_head st).
Proof. done. Qed.

(** ** A weakest-precondition calculus for the monad *)

Lemma wp_bind {A B} (m : M A) (k : A -> M B) Q P S st :
  wp m (fun a st1 => wp (k a) Q P S st1) P S st -> wp (m ≫= k) Q P S st.
Proof. unfold wp, mbind, M_bind. by destruct (m st). Qed.

Lemma wp_ret {A} (a : A) (Q : A -> bcache -> Prop) P S st :
  Q a st -> wp (mret a) Q P S st.
Proof. done. Qed.

Lemma wp_ret' {A} (a : A) (Q : A -> bcache -> Prop) P S st :
  Q a st -> wp (ret a) Q P S st.
Proof. done. Qed.

Lemma wp_rd p (Q : buf_t -> bcache -> Prop) P S st :
  (forall e, load st p = Some e -> Q e st) -> wp (rd p) Q P S st.
Proof. unfold wp, rd. destruct (load st p); auto. Qed.

Lemma wp_upd p f (Q : unit -> bcache -> Prop) P S st :
  (forall e, load st p = Some e -> Q tt (store st p (f e))) -> wp (upd p f) Q P S st.
Proof. unfold wp, upd. destruct (load st p); auto. Qed.

Lemma wp_acquire l (Q : unit -> bcache -> Prop) P S st :
  Q tt (emit (Acq l) st) -> wp (acquire l) Q P S st.
Proof. done. Qed.

Lemma wp_release l (Q : unit -> bcache -> Prop) P S st :
  Q tt (emit (Rel l) st) -> wp (release l) Q P S st.
Proof. done. Qed.

Lemma wp_panic {A} msg (Q : A -> bcache -> Prop) (P : string -> bcache -> Prop) S st :
  P msg st -> wp (panic msg) Q P S st.
Proof. done. Qed.

Lemma wp_nbuf (Q : nat -> bcache -> Prop) P S st :
  Q (length (bc_buf st)) st -> wp nbuf Q P S st.
Proof. done. Qed.

Lemma wp_walk_fuel (Q : nat -> bcache -> Prop) P S st :
  Q (Datatypes.S (length (bc_buf st) + length (bc_head st))) st -> wp walk_fuel Q P S st.
Proof. done. Qed.

Lemma wp_acquiresleep b me (Q : unit -> bcache -> Prop) P (S : ptr -> bcache -> Prop) st :
  (forall e, load st b = Some e ->
     (locked (lock e) = 0 -> Q tt (store st b (set_lock (Sleeplock 1 me) e))) /\
     (locked (lock e) <> 0 -> S b st)) ->
  wp (acquiresleep b me) Q P S st.
Proof.
  unfold wp, acquiresleep. destruct (load st b) as [e|]; [|done].
  intros H. destruct (H e eq_refl) as [H0 H1].
  destruct (Z.eqb_spec (locked (lock e)) 0); auto.
Qed.

Lemma wp_mono {A} (m : M A) (Q Q' : A -> bcache -> Prop) P P' S S' st :
  wp m Q P S st -> (forall a s, Q a s -> Q' a s) ->
  (forall msg s, P msg s -> P' msg s) -> (forall b s, S b s -> S' b s) ->
  wp m Q' P' S' st.
Proof. unfold wp. destruct (m st); auto. Qed.

Lemma wp_Ret {A} (m : M A) Q P S st a st' :
  wp m Q P S st -> m st = Ret a st' -> Q a st'.
Proof. unfold wp. intros H Heq. by rewrite Heq in H. Qed.

Lemma wp_Panic {A} (m : M A) Q P S st msg st' :
  wp m Q P S st -> m st = Panic msg st' -> P msg st'.
Proof. unfold wp. intros H Heq. by rewrite Heq in H. Qed.

Lemma wp_Sleeps {A} (m : M A) Q P S st b st' :
  wp m Q P S st -> m st = Sleeps b st' -> S b st'.
Proof. unfold wp. intros H Heq. by rewrite Heq in H. Qed.

Lemma wp_eq {A} (m : M A) (Q : A -> bcache -> Prop) P S st :
  (forall a st', m st = Ret a st' -> Q a st') ->
  (forall msg st', m st = Panic msg st' -> P msg st') ->
  (forall b st', m st = Sleeps b st' -> S b st') ->
  wp m Q P S st.
Proof. unfold wp. destruct (m st); eauto. Qed.

Ltac wp_step :=
  lazymatch goal with
  | |- wp (mbind _ _) _ _ _ _ => apply wp_bind
  | |- wp (rd _) _ _ _ _ => apply wp_rd; intros ? ?
  | |- wp (upd _ _) _ _ _ _ => apply wp_upd; intros ? ?
  | |- wp (acquire _) _ _ _ _ => apply wp_acquire
  | |- wp (release _) _ _ _ _ => apply wp_release
  | |- wp nbuf _ _ _ _ => apply wp_nbuf
  | |- wp walk_fuel _ _ _ _ => apply wp_walk_fuel
  | |- wp (panic _) _ _ _ _ => apply wp_panic
  | |- wp (mret _) _ _ _ _ => apply wp_ret
  | |- wp (ret _) _ _ _ _ => apply wp_ret'
  end.

Ltac wp_steps := repeat wp_step.

(** ** Step-by-step evaluation *)

Lemma bind_rd {B} p (k : buf_t -> M B) st e :
  load st p = Some e -> (rd p ≫= k) st = k e st.
Proof. intros H. unfold mbind, M_bind, rd. by rewrite H. Qed.

Lemma bind_upd {B} p f (k : unit -> M B) st e :
  load st p = Some e -> (upd p f ≫= k) st = k tt (store st p (f e)).
Proof. intros H. unfold mbind, M_bind, upd. by rewrite H. Qed.

Lemma run_upd p f st e : load st p = Some e -> upd p f st = Ret tt (store st p (f e)).
Proof. intros H. unfold upd. by rewrite H. Qed.

Lemma bind_acquire {B} l (k : unit -> M B) st :
  (acquire l ≫= k) st = k tt (emit (Acq l) st).
Proof. done. Qed.

Lemma bind_release {B} l (k : unit -> M B) st :
  (release l ≫= k) st = k tt (emit (Rel l) st).
Proof. done. Qed.

Lemma bind_ret {A B} (a : A) (k : A -> M B) st : (mret a ≫= k) st = k a st.
Proof. done. Qed.

Lemma bind_assoc {A B C} (m : M A) (k : A -> M B) (k' : B -> M C) st :
  ((m ≫= k) ≫= k') st = (m ≫= (fun a => k a ≫= k')) st.
Proof. unfold mbind, M_bind. by destruct (m st). Qed.

Lemma bind_Ret {A B} (m : M A) (k : A -> M B) st a st1 :
  m st = Ret a st1 -> (m ≫= k) st = k a st1.
Proof. intros H. unfold mbind, M_bind. by rewrite H. Qed.

Lemma Ret_inj {A} (a a' : A) st st' : Ret a st = Ret a' st' -> a = a' /\ st = st'.
Proof. by intros [= -> ->]. Qed.

Lemma bind_Ret_inv {A B} (m : M A) (k : A -> M B) st b st' :
  (m ≫= k) st = Ret b st' -> exists a st1, m st = Ret a st1 /\ k a st1 = Ret b st'.
Proof. unfold mbind, M_bind. destruct (m st); try discriminate. eauto. Qed.

(** ** What the fields other than the links hold *)

Lemma buf_eq e e' : payload e = payload e' -> links e = links e' -> e = e'.
Proof. destruct e, e'. unfold payload, links. simpl. congruence. Qed.

Lemma same_payload_refl st : same_payload st st.
Proof. by split. Qed.

Lemma same_payload_trans st1 st2 st3 :
  same_payload st1 st2 -> same_payload st2 st3 -> same_payload st1 st3.
Proof. intros [] []. split; intros; congruence. Qed.

Lemma same_payload_store st p e e' :
  load st p = Some e -> payload e' = payload e ->
  same_payload st (store st p e').
Proof.
  intros Hp Hf. split.
  - intros q. rewrite (load_store _ _ _ _ _ Hp). case_decide as Hq; [|done].
    subst q. rewrite Hp. simpl. by rewrite Hf.
  - apply log_store.
  - apply disk_store.
  - apply nbuf_store.
  - apply nhead_store.
Qed.

Lemma same_payload_load st st' q e :
  same_payload st st' -> load st q = Some e ->
  exists e', load st' q = Some e' /\ payload e' = payload e.
Proof.
  intros [H _ _ _ _] Hq. specialize (H q). rewrite Hq in H.
  destruct (load st' q) as [e'|]; [|discriminate].
  change (Some (payload e') = Some (payload e)) in H.
  exists e'. split; [done|congruence].
Qed.

Ltac sp_chain :=
  repeat first
    [ apply same_payload_refl
    | eapply same_payload_trans; [|by eapply same_payload_store] ].

Lemma unlink_payload b st :
  wp (unlink b) (fun _ st' => same_payload st st') never never st.
Proof. unfold unlink. wp_steps. sp_chain. Qed.

Lemma link_front_payload b id st :
  wp (link_front b id)
    (fun _ st' => same_payload st st' /\ (next <$> load st' (Hd id)) = Some b)
    never never st.
Proof.
  unfold link_front. wp_steps. split; [sp_chain|].
  erewrite load_store_eq; done.
Qed.

Lemma move_to_head_payload b id st :
  wp (move_to_head b id)
    (fun _ st' => same_payload st st' /\ (next <$> load st' (Hd id)) = Some b)
    never never st.
Proof.
  unfold move_to_head. apply wp_bind.
  eapply wp_mono; [apply unlink_payload| |done|done].
  intros [] st1 H1. simpl.
  eapply wp_mono; [apply link_front_payload| |done|done].
  intros [] st2 [H2 Hn]. split; [|done]. by eapply same_payload_trans.
Qed.

Lemma store_store st p v w : store (store st p v) p w = store st p w.
Proof. destruct p; simpl; try done; by rewrite list_insert_insert_eq. Qed.

Lemma store_emit st ev p v : store (emit ev st) p v = emit ev (store st p v).
Proof. by destruct p. Qed.

Lemma emit_inj ev st st' : emit ev st = emit ev st' -> st = st'.
Proof.
  destruct st, st'. unfold emit. simpl. intros H. injection H as -> -> -> H.
  by apply app_inv_tail in H as ->.
Qed.

(** ** The two walks along a bucket's list *)

Ltac same_load :=
  repeat match goal with
    | H1 : load ?st ?p = Some ?a, H2 : load ?st ?p = Some ?b |- _ =>
        assert (b = a) by congruence; subst b; clear H2
    end.

Lemma bget_cached_spec fuel me d n id : forall p st,
  wp (bget_cached fuel me d n id p)
    (fun r st' =>
       match r with
       | None =>
           st' = st /\ exists k, (k < fuel)%nat /\ walk st next id (nomatch d n) k p (Hd id)
       | Some b =>
           exists k e0, (k < fuel)%nat /\ walk st next id (nomatch d n) k p b /\
             b <> Hd id /\ load st b = Some e0 /\ dev e0 = d /\ blockno e0 = n /\
             locked (lock e0) = 0 /\
             st' = store (hit_state st b e0 id) b (granted me (bump e0))
       end)
    never
    (fun b st' =>
       exists k e0, (k < fuel)%nat /\ walk st next id (nomatch d n) k p b /\
         b <> Hd id /\ load st b = Some e0 /\ dev e0 = d /\ blockno e0 = n /\
         locked (lock e0) <> 0 /\ st' = hit_state st b e0 id)
    st.
Proof.
  induction fuel as [|fuel IH]; intros p st; [done|].
  simpl. case_decide as Hp.
  { subst p. wp_steps. split; [done|]. exists 0%nat. split; [lia|constructor]. }
  wp_steps. destruct (_ && _)%bool eqn:Hm.
  - apply andb_prop in Hm as [Hd' Hb']. apply Z.eqb_eq in Hd', Hb'.
    wp_steps. same_load. apply wp_acquiresleep. intros e2 He2.
    rewrite load_emit in He2. erewrite load_store_eq in He2 by done.
    injection He2 as <-. split; intros Hl.
    + wp_steps. exists 0%nat, e. repeat split; try done; try lia. constructor.
    + exists 0%nat, e. repeat split; try done; try lia. constructor.
  - eapply wp_mono; [apply IH| |done|].
    + intros [b|] st'.
      * intros (k & e0 & Hk & Hw & Hrest). exists (S k), e0.
        split; [lia|]. split; [|done]. by econstructor.
      * intros (-> & k & Hk & Hw). split; [done|]. exists (S k).
        split; [lia|]. by econstructor.
    + intros b st' (k & e0 & Hk & Hw & Hrest). exists (S k), e0.
      split; [lia|]. split; [|done]. by econstructor.
Qed.

Lemma bget_recycle_spec fuel me d n id : forall p st,
  wp (bget_recycle fuel me d n id p)
    (fun r st' =>
       match r with
       | None =>
           st' = st /\ exists k, (k < fuel)%nat /\ walk st prev id busy k p (Hd id)
       | Some b =>
           exists k e0, (k < fuel)%nat /\ walk st prev id busy k p b /\
             b <> Hd id /\ load st b = Some e0 /\ refcnt e0 = 0 /\
             locked (lock e0) = 0 /\
             st' = store (claim_state st b e0 d n id) b (granted me (claimed d n e0))
       end)
    never
    (fun b st' =>
       exists k e0, (k < fuel)%nat /\ walk st prev id busy k p b /\
         b <> Hd id /\ load st b = Some e0 /\ refcnt e0 = 0 /\
         locked (lock e0) <> 0 /\ st' = claim_state st b e0 d n id)
    st.
Proof.
  induction fuel as [|fuel IH]; intros p st; [done|].
  simpl. case_decide as Hp.
  { subst p. wp_steps. split; [done|]. exists 0%nat. split; [lia|constructor]. }
  wp_steps. destruct (refcnt e =? 0) eqn:Hm.
  - apply Z.eqb_eq in Hm.
    wp_steps.
    repeat match goal with
      | H : load (store _ _ _) _ = Some _ |- _ =>
          erewrite load_store_eq in H by done; injection H as <-
      end.
    same_load. rewrite !store_store.
    change (set_refcnt 1 (set_valid 0 (set_blockno n (set_dev d e)))) with (claimed d n e).
    apply wp_acquiresleep. intros e2 He2.
    rewrite load_emit in He2. erewrite load_store_eq in He2 by done.
    injection He2 as <-. split; intros Hl.
    + wp_steps. exists 0%nat, e. repeat split; try done; try lia. constructor.
    + exists 0%nat, e. repeat split; try done; try lia. constructor.
  - eapply wp_mono; [apply IH| |done|].
    + intros [b|] st'.
      * intros (k & e0 & Hk & Hw & Hrest). exists (S k), e0.
        split; [lia|]. split; [|done]. by econstructor.
      * intros (-> & k & Hk & Hw). split; [done|]. exists (S k).
        split; [lia|]. by econstructor.
    + intros b st' (k & e0 & Hk & Hw & Hrest). exists (S k), e0.
      split; [lia|]. split; [|done]. by econstructor.
Qed.

(** ** The scan of the whole pool *)

Lemma load_with_log st l p : load (with_log st l) p = load st p.
Proof. by destruct p. Qed.

Lemma load_probing st js p : load (probing st js) p = load st p.
Proof. apply load_with_log. Qed.

Lemma probing_nil st : probing st [] = st.
Proof. destruct st. unfold probing, with_log. simpl. by rewrite app_nil_r. Qed.

Lemma probing_cons st j js :
  probing (emit (Rel (Bucket j)) (emit (Acq (Bucket j)) st)) js = probing st (j :: js).
Proof.
  unfold probing, with_log, emit. simpl. f_equal.
  by rewrite <- !app_assoc.
Qed.

Lemma move_to_head_total b id st :
  wp (move_to_head b id)
    (fun _ st' => move_to_head b id st = Ret tt st' /\ same_payload st st' /\
                  (next <$> load st' (Hd id)) = Some b)
    never never st.
Proof.
  pose proof (move_to_head_payload b id st) as H.
  apply wp_eq.
  - intros [] st' Heq. split; [done|]. eapply wp_Ret in H; [|done]. done.
  - intros msg st' Heq. eapply wp_Panic in H; done.
  - intros b' st' Heq. eapply wp_Sleeps in H; done.
Qed.

Lemma bget_steal_spec me d n id bs : forall st,
  wp (bget_steal me d n id bs)
    (fun r st' =>
       match r with
       | None =>
           exists js, Forall (fun j => j <> id) js /\ st' = probing st js /\
             forall i e, i ∈ bs -> load st (Bf i) = Some e ->
               bucket_of (blockno e) = id \/ refcnt e <> 0
       | Some b =>
           exists js i e0 st2 e2, Forall (fun j => j <> id) js /\
             b = Bf i /\ i ∈ bs /\ load st b = Some e0 /\ refcnt e0 = 0 /\
             bucket_of (blockno e0) <> id /\ locked (lock e0) = 0 /\
             move_to_head b id (relabelled st js b e0 d n) = Ret tt st2 /\
             load st2 b = Some e2 /\
             st' = store (stolen st2 (bucket_of (blockno e0)) id) b (granted me e2)
       end)
    never
    (fun b st' =>
       exists js i e0 st2, Forall (fun j => j <> id) js /\ b = Bf i /\
         i ∈ bs /\ load st (Bf i) = Some e0 /\ refcnt e0 = 0 /\
         bucket_of (blockno e0) <> id /\ locked (lock e0) <> 0 /\
         move_to_head (Bf i) id (relabelled st js (Bf i) e0 d n) = Ret tt st2 /\
         st' = stolen st2 (bucket_of (blockno e0)) id)
    st.
Proof.
  induction bs as [|i bs IH]; intros st.
  { simpl. wp_steps. exists []. split; [constructor|]. split; [by rewrite probing_nil|].
    intros i e Hi. by apply elem_of_nil in Hi. }
  simpl. wp_steps. case_decide as Hid.
  { eapply wp_mono; [apply IH| |done|].
    - intros [b|] st'.
      + intros (js & i' & e0 & st2 & e2 & Hjs & -> & Hi' & Hrest).
        exists js, i', e0, st2, e2. repeat split; try tauto. by apply elem_of_cons; right.
      + intros (js & Hjs & -> & Hall). exists js. repeat split; try done.
        intros i' e' [->|Hi']%elem_of_cons He'; [|by eauto].
        left. simpl in *. congruence.
    - intros b st' (js & i' & e0 & st2 & Hjs & -> & Hi' & Hrest).
      exists js, i', e0, st2. repeat split; try tauto. by apply elem_of_cons; right. }
  wp_steps. rewrite load_emit in H0. same_load.
  destruct (refcnt e =? 0) eqn:Hm.
  - apply Z.eqb_eq in Hm. wp_steps.
    repeat match goal with
      | H : load (store _ _ _) _ = Some _ |- _ =>
          erewrite load_store_eq in H by (by rewrite ?load_emit); injection H as <-
      end.
    rewrite load_emit in H0. same_load. rewrite !store_store.
    change (set_refcnt 1 (set_valid 0 (set_blockno n (set_dev d e)))) with (claimed d n e).
    eapply wp_mono; [apply move_to_head_total| |done|done].
    intros [] st2 (Hmv & Hsp & _). simpl. wp_steps.
    apply wp_acquiresleep. intros e2 He2.
    rewrite !load_emit in He2.
    destruct (same_payload_load _ _ (Bf i) (claimed d n e) Hsp) as (e2' & He2' & Hpl).
    { erewrite load_store_eq; [done|by rewrite load_emit]. }
    same_load.
    assert (locked (lock e2) = locked (lock e)) as Hlk.
    { unfold payload in Hpl. simpl in Hpl. congruence. }
    rewrite <- (probing_nil st) in Hmv.
    split; intros Hl.
    + wp_steps. exists [], i, e, st2, e2. repeat split; try done.
      * apply elem_of_cons; by left.
      * congruence.
    + exists [], i, e, st2. repeat split; try done.
      * apply elem_of_cons; by left.
      * congruence.
  - apply Z.eqb_neq in Hm. wp_steps.
    eapply wp_mono; [apply IH| |done|].
    + intros [b|] st'.
      * intros (js & i' & e0 & st2 & e2 & Hjs & -> & Hi' & Hl0 & Hr0 & Hb0 & Hlk0 & Hmv & Hl2 & ->).
        rewrite !load_emit in Hl0.
        unfold relabelled in Hmv. rewrite probing_cons in Hmv.
        exists (bucket_of (blockno e) :: js), i', e0, st2, e2.
        repeat split; try done.
        -- by constructor.
        -- by apply elem_of_cons; right.
      * intros (js & Hjs & -> & Hall). exists (bucket_of (blockno e) :: js).
        split; [by constructor|]. split; [by rewrite probing_cons|].
        intros i' e' [->|Hi']%elem_of_cons He'.
        -- right. simpl in *. congruence.
        -- eapply Hall; [done|]. by rewrite !load_emit.
    + intros b st' (js & i' & e0 & st2 & Hjs & -> & Hi' & Hl0 & Hr0 & Hb0 & Hlk0 & Hmv & ->).
      rewrite !load_emit in Hl0.
      unfold relabelled in Hmv. rewrite probing_cons in Hmv.
      exists (bucket_of (blockno e) :: js), i', e0, st2.
      repeat split; try done.
      * by constructor.
      * by apply elem_of_cons; right.
Qed.

(** ** The three ways through bget *)

Lemma walk_ext st st' f id skip k p q :
  (forall r, load st' r = load st r) ->
  walk st f id skip k p q -> walk st' f id skip k p q.
Proof.
  intros Hl. induction 1 as [|k p e q Hp He Hs Hw IH]; [constructor|].
  econstructor; eauto. by rewrite Hl.
Qed.

Lemma bget_fast_spec me d n st :
  wp (bget_fast me d n)
    (fun r st' =>
       match r with
       | Some b =>
           exists s e1, fast_released st d n b s /\ load s b = Some e1 /\
             locked (lock e1) = 0 /\ st' = store s b (granted me e1)
       | None =>
           missed st d n /\
           st' = emit (Rel (Bucket (bucket_of n))) (emit (Acq (Bucket (bucket_of n))) st)
       end)
    never
    (fun b st' =>
       exists e1, fast_released st d n b st' /\ load st' b = Some e1 /\
         locked (lock e1) <> 0)
    st.
Proof.
  unfold bget_fast. wp_steps. rewrite load_emit in H.
  set (st0 := emit (Acq (Bucket (bucket_of n))) st).
  assert (forall r, load st0 r = load st r) as Hl0 by (intros; apply load_emit).
  assert (forall r, load st r = load st0 r) as Hl0' by done.
  eapply wp_mono; [apply bget_cached_spec| |done|].
  - intros [b|] st1.
    + intros (k & e0 & Hk & Hw & Hb & He0 & Hd' & Hn' & Hlk & ->).
      wp_steps. rewrite Hl0 in He0. apply (walk_ext _ st) in Hw; [|done].
      exists (hit_state st0 b e0 (bucket_of n)), (bump e0).
      split; [by apply (rel_hit st d n e k b e0)|]. split; [|done].
      unfold hit_state. rewrite load_emit. erewrite load_store_eq; [done|].
      by rewrite Hl0.
    + intros (-> & k & Hk & Hw). apply (walk_ext _ st) in Hw; [|done].
      wp_steps. rewrite Hl0 in H0. same_load.
      eapply wp_mono; [apply bget_recycle_spec| |done|].
      * intros [b|] st1.
        -- intros (k' & e0 & Hk' & Hw' & Hb & He0 & Hr & Hlk & ->).
           wp_steps. rewrite Hl0 in He0. apply (walk_ext _ st) in Hw'; [|done].
           exists (claim_state st0 b e0 d n (bucket_of n)), (claimed d n e0).
           split; [by apply (rel_recycle st d n e k k' b e0)|]. split; [|done].
           unfold claim_state. rewrite load_emit. erewrite load_store_eq; [done|].
           by rewrite Hl0.
        -- intros (-> & k' & Hk' & Hw'). apply (walk_ext _ st) in Hw'; [|done].
           wp_steps. split; [|done]. by exists e, k, k'.
      * intros b st1 (k' & e0 & Hk' & Hw' & Hb & He0 & Hr & Hlk & ->).
        rewrite Hl0 in He0. apply (walk_ext _ st) in Hw'; [|done].
        exists (claimed d n e0). split; [by apply (rel_recycle st d n e k k' b e0)|]. split; [|done].
        unfold claim_state. rewrite load_emit. erewrite load_store_eq; [done|].
        by rewrite Hl0.
  - intros b st1 (k & e0 & Hk & Hw & Hb & He0 & Hd' & Hn' & Hlk & ->).
    rewrite Hl0 in He0. apply (walk_ext _ st) in Hw; [|done].
    exists (bump e0). split; [by apply (rel_hit st d n e k b e0)|]. split; [|done].
    unfold hit_state. rewrite load_emit. erewrite load_store_eq; [done|].
    by rewrite Hl0.
Qed.

Lemma bget_slow_spec me d n st :
  wp (bget_slow me d n)
    (fun b st' =>
       exists s e1, slow_released st d n b s /\ load s b = Some e1 /\
         locked (lock e1) = 0 /\ st' = store s b (granted me e1))
    (fun msg st' =>
       msg = "bget: no buffers"%string /\ none_to_steal st (bucket_of n) /\
       exists js, Forall (fun j => j <> bucket_of n) js /\
         st' = probing (slow_entry st (bucket_of n)) js)
    (fun b st' =>
       exists e1, slow_released st d n b st' /\ load st' b = Some e1 /\
         locked (lock e1) <> 0)
    st.
Proof.
  unfold bget_slow. wp_steps.
  change (emit (Acq (Bucket (bucket_of n))) (emit (Acq Global) st))
    with (slow_entry st (bucket_of n)).
  set (st0 := slow_entry st (bucket_of n)).
  assert (forall r, load st0 r = load st r) as Hl0
      by (intros; unfold st0, slow_entry; by rewrite !load_emit).
  assert (length (bc_buf st0) = length (bc_buf st)) as Hlen by done.
  eapply wp_mono; [apply bget_steal_spec| |done|].
  - intros [b|] st1.
    + intros (js & i & e0 & st2 & e2 & Hjs & -> & Hi & He0 & Hr & Hb & Hlk & Hmv & He2 & ->).
      wp_steps. rewrite Hl0 in He0.
      pose proof (move_to_head_total (Bf i) (bucket_of n) (relabelled st0 js (Bf i) e0 d n)) as Hsp.
      eapply wp_Ret in Hsp; [|done]. destruct Hsp as (_ & Hsp & _).
      destruct (same_payload_load _ _ (Bf i) (claimed d n e0) Hsp) as (e2' & He2' & Hpl).
      { unfold relabelled. erewrite load_store_eq; [done|].
        by rewrite load_emit, load_probing, Hl0. }
      same_load.
      exists (stolen st2 (bucket_of (blockno e0)) (bucket_of n)), e2.
      split; [|split; [by unfold stolen; rewrite !load_emit|split; [|done]]].
      * apply rel_steal with (js := js); try done.
        apply elem_of_seq in Hi. lia.
      * unfold payload in Hpl. simpl in Hpl. congruence.
    + intros (js & Hjs & -> & Hall). wp_steps. split; [done|]. split; [|by exists js].
      intros i e He. apply (Hall i e); [|by rewrite Hl0].
      apply elem_of_seq. apply lookup_lt_Some in He. lia.
  - intros b st1 (js & i & e0 & st2 & Hjs & -> & Hi & He0 & Hr & Hb & Hlk & Hmv & ->).
    rewrite Hl0 in He0.
    pose proof (move_to_head_total (Bf i) (bucket_of n) (relabelled st0 js (Bf i) e0 d n)) as Hsp.
    eapply wp_Ret in Hsp; [|done]. destruct Hsp as (_ & Hsp & _).
    destruct (same_payload_load _ _ (Bf i) (claimed d n e0) Hsp) as (e2 & He2 & Hpl).
    { unfold relabelled. erewrite load_store_eq; [done|].
      by rewrite load_emit, load_probing, Hl0. }
    exists e2. split; [|split; [by unfold stolen; rewrite !load_emit|]].
    + apply rel_steal with (js := js); try done.
      apply elem_of_seq in Hi. lia.
    + unfold payload in Hpl. simpl in Hpl. congruence.
Qed.

Lemma load_mid st id p : load (mid st id) p = load st p.
Proof. unfold mid. by rewrite !load_emit. Qed.

Lemma bget_spec me d n st :
  wp (bget me d n)
    (fun b st' =>
       exists s e1, released st d n b s /\ load s b = Some e1 /\
         locked (lock e1) = 0 /\ st' = store s b (granted me e1))
    (fun msg st' =>
       msg = "bget: no buffers"%string /\ missed st d n /\
       none_to_steal st (bucket_of n) /\
       exists js, Forall (fun j => j <> bucket_of n) js /\
         st' = probing (slow_entry (mid st (bucket_of n)) (bucket_of n)) js)
    (fun b st' =>
       exists e1, released st d n b st' /\ load st' b = Some e1 /\
         locked (lock e1) <> 0)
    st.
Proof.
  unfold bget. wp_steps.
  eapply wp_mono; [apply bget_fast_spec| |done|].
  - intros [b|] st1.
    + intros (s & e1 & Hrel & Hrest). wp_steps. exists s, e1. split; [by left|done].
    + intros [Hmiss ->]. fold (mid st (bucket_of n)).
      eapply wp_mono; [apply bget_slow_spec| | |].
      * intros b st2 (s & e1 & Hrel & Hrest). exists s, e1. split; [by right|done].
      * intros msg st2 (-> & Hnone & Hjs). split; [done|]. split; [done|].
        split; [|done]. intros i e He. apply (Hnone i e). by rewrite load_mid.
      * intros b st2 (e1 & Hrel & Hrest). exists e1. split; [by right|done].
  - intros b st1 (e1 & Hrel & Hrest). exists e1. split; [by left|done].
Qed.

Lemma fast_released_reserved st d n b s :
  fast_released st d n b s -> reserved st d n b s.
Proof.
  destruct 1 as [h k b e0 Hh Hk Hw Hb He0 Hd' Hn'|h k k' b e0 Hh Hk Hw Hk' Hw' Hb He0 Hr].
  - exists e0, (bump e0). unfold hit_state.
    rewrite load_emit. erewrite load_store_eq by (by rewrite load_emit).
    repeat split; try done.
    + left. by repeat split.
    + intros q Hq. by rewrite load_emit, load_store_ne, load_emit.
    + simpl. by rewrite disk_store.
  - exists e0, (claimed d n e0). unfold claim_state.
    rewrite load_emit. erewrite load_store_eq by (by rewrite load_emit).
    repeat split; try done.
    + right. by repeat split.
    + intros q Hq. by rewrite load_emit, load_store_ne, load_emit.
    + simpl. by rewrite disk_store.
Qed.

Lemma slow_released_reserved st d n b s :
  slow_released st d n b s -> reserved st d n b s.
Proof.
  destruct 1 as [js i e0 st2 Hjs Hi He0 Hr Hne Hmv].
  pose proof (move_to_head_total (Bf i) (bucket_of n)
                (relabelled (slow_entry st (bucket_of n)) js (Bf i) e0 d n)) as Hsp.
  eapply wp_Ret in Hsp; [|done]. destruct Hsp as (_ & Hsp & _).
  assert (forall q, load (relabelled (slow_entry st (bucket_of n)) js (Bf i) e0 d n) q
                    = if decide (Bf i = q) then Some (claimed d n e0) else load st q) as Hrl.
  { intros q. unfold relabelled. erewrite load_store.
    - case_decide; [done|]. unfold slow_entry. by rewrite load_emit, load_probing, !load_emit.
    - unfold slow_entry. by rewrite load_emit, load_probing, !load_emit. }
  destruct (same_payload_load _ _ (Bf i) (claimed d n e0) Hsp) as (e2 & He2 & Hpl).
  { rewrite Hrl. by rewrite decide_True. }
  exists e0, e2. unfold stolen. rewrite !load_emit.
  unfold payload in Hpl. simpl in Hpl.
  repeat split; try done; try congruence.
  - right. repeat split; congruence.
  - intros q Hq. rewrite !load_emit. rewrite (sp_load _ _ Hsp). rewrite Hrl.
    by rewrite decide_False.
  - simpl. rewrite (sp_disk _ _ Hsp). unfold relabelled. by rewrite disk_store.
Qed.

Lemma released_reserved st d n b s : released st d n b s -> reserved st d n b s.
Proof.
  intros [H|[_ H]]; [by apply fast_released_reserved|].
  apply slow_released_reserved in H
    as (e0 & e1 & H0 & H1 & Hd' & Hn' & Hlk & Hdt & Hcase & Hf & Hdisk).
  rewrite load_mid in H0. exists e0, e1. by split_and!.
Qed.

(** ** bwrite, brelse, bpin, bunpin evaluated *)

Lemma holdingsleep_eval b me st e :
  load st b = Some e -> holdingsleep b me st = Ret (holding e me) st.
Proof. intros H. unfold holdingsleep. by rewrite (bind_rd _ _ _ _ H). Qed.

Lemma bwrite_unheld me b st e :
  load st b = Some e -> holding e me = false -> bwrite me b st = Panic "bwrite" st.
Proof.
  intros H Hh. unfold bwrite.
  rewrite (bind_Ret _ _ _ _ _ (holdingsleep_eval _ me _ _ H)). by rewrite Hh.
Qed.

Lemma bwrite_held me b st e :
  load st b = Some e -> holding e me = true ->
  bwrite me b st =
    Ret tt (Bcache (bc_buf st) (bc_head st)
              ((dev e, blockno e, data e) :: bc_disk st)
              (bc_log st ++ [DiskWrite (dev e) (blockno e) (data e)])).
Proof.
  intros H Hh. unfold bwrite.
  rewrite (bind_Ret _ _ _ _ _ (holdingsleep_eval _ me _ _ H)). rewrite Hh. simpl.
  unfold virtio_disk_rw. by rewrite H.
Qed.

Lemma brelse_unheld me b st e :
  load st b = Some e -> holding e me = false -> brelse me b st = Panic "brelse" st.
Proof.
  intros H Hh. unfold brelse.
  rewrite (bind_Ret _ _ _ _ _ (holdingsleep_eval _ me _ _ H)). by rewrite Hh.
Qed.

Lemma load_brelse_dropped st b e q :
  load st b = Some e ->
  load (brelse_dropped st b e) q = if decide (b = q) then Some (drop (unlocked e)) else load st q.
Proof.
  intros H. unfold brelse_dropped. erewrite load_store.
  - case_decide; [done|]. by rewrite load_emit, load_store_ne.
  - rewrite load_emit. by erewrite load_store_eq.
Qed.

Lemma brelse_held me b st e :
  load st b = Some e -> holding e me = true ->
  brelse me b st =
    if wrap32 (refcnt e - 1) =? 0 then
      (move_to_head b (bucket_of (blockno e));; release (Bucket (bucket_of (blockno e))))
        (brelse_dropped st b e)
    else Ret tt (emit (Rel (Bucket (bucket_of (blockno e)))) (brelse_dropped st b e)).
Proof.
  intros H Hh. unfold brelse.
  rewrite (bind_Ret _ _ _ _ _ (holdingsleep_eval _ me _ _ H)). rewrite Hh. simpl.
  unfold releasesleep. rewrite (bind_upd _ _ _ _ _ H).
  erewrite bind_rd by (by erewrite load_store_eq).
  rewrite bind_acquire. simpl.
  erewrite bind_upd by (rewrite load_emit; by erewrite load_store_eq).
  fold (unlocked e). fold (drop (unlocked e)).
  change (store (emit _ (store st b (unlocked e))) b (drop (unlocked e)))
    with (brelse_dropped st b e).
  erewrite bind_rd by (rewrite (load_brelse_dropped _ _ _ _ H); by rewrite decide_True).
  change (refcnt (drop (unlocked e))) with (wrap32 (refcnt e - 1)).
  destruct (wrap32 (refcnt e - 1) =? 0); [done|].
  by rewrite bind_ret.
Qed.

Lemma bpin_eval b st e :
  load st b = Some e ->
  bpin b st =
    Ret tt (emit (Rel (Bucket (bucket_of (blockno e))))
              (store (emit (Acq (Bucket (bucket_of (blockno e)))) st) b (bump e))).
Proof.
  intros H. unfold bpin. rewrite (bind_rd _ _ _ _ H). rewrite bind_acquire.
  by erewrite bind_upd by (by rewrite load_emit).
Qed.

Lemma bunpin_eval b st e :
  load st b = Some e ->
  bunpin b st =
    Ret tt (emit (Rel (Bucket (bucket_of (blockno e))))
              (store (emit (Acq (Bucket (bucket_of (blockno e)))) st) b (drop e))).
Proof.
  intros H. unfold bunpin. rewrite (bind_rd _ _ _ _ H). rewrite bind_acquire.
  by erewrite bind_upd by (by rewrite load_emit).
Qed.

Lemma wp_final {A} (m : M A) (R : bcache -> Prop) st st' :
  wp m (fun _ => R) (fun _ => R) (fun _ => R) st -> final (m st) = Some st' -> R st'.
Proof. unfold wp, final. destruct (m st); intros H [= <-]; done. Qed.

Lemma payload_eq_fields e e' :
  payload e = payload e' ->
  valid e = valid e' /\ dev e = dev e' /\ blockno e = blockno e' /\
  lock e = lock e' /\ refcnt e = refcnt e' /\ data e = data e'.
Proof. unfold payload. intros [= -> -> -> -> -> ->]. done. Qed.

Lemma fmap_payload_eq (o o' : option buf_t) e :
  payload <$> o' = payload <$> o -> o = Some e ->
  exists e', o' = Some e' /\ payload e' = payload e.
Proof.
  intros H ->. destruct o' as [e'|]; [|discriminate].
  change (Some (payload e') = Some (payload e)) in H.
  exists e'. split; [done|congruence].
Qed.


(** ** The order in which the spin locks are taken and dropped *)

Lemma remove_lock_top l held : remove_lock l (l :: held) = held.
Proof. simpl. by rewrite decide_True. Qed.

Lemma coarse_first_bucket held i rest :
  coarse_first held (Acq (Bucket i) :: Rel (Bucket i) :: rest) = coarse_first held rest.
Proof.
  change (coarse_first (remove_lock (Bucket i) (Bucket i :: held)) rest
          = coarse_first held rest).
  by rewrite remove_lock_top.
Qed.

Lemma coarse_first_probe held js rest :
  coarse_first held (probe_log js ++ rest) = coarse_first held rest.
Proof.
  induction js as [|j js IH]; [done|].
  change (coarse_first held (Acq (Bucket j) :: Rel (Bucket j) :: probe_log js ++ rest)
          = coarse_first held rest).
  by rewrite coarse_first_bucket.
Qed.

Lemma coarse_first_pair id : coarse_first [] [Acq (Bucket id); Rel (Bucket id)] = true.
Proof. by rewrite coarse_first_bucket. Qed.

Lemma coarse_first_steal id new js :
  coarse_first []
    ([Acq (Bucket id); Rel (Bucket id)] ++ [Acq Global; Acq (Bucket id)] ++ probe_log js ++
     [Acq (Bucket new); Rel (Bucket new); Rel (Bucket id); Rel Global]) = true.
Proof.
  change (coarse_first [] (Acq (Bucket id) :: Rel (Bucket id) ::
            [Acq Global; Acq (Bucket id)] ++ probe_log js ++
            [Acq (Bucket new); Rel (Bucket new); Rel (Bucket id); Rel Global]) = true).
  rewrite coarse_first_bucket.
  change (coarse_first [Bucket id; Global]
            (probe_log js ++
             [Acq (Bucket new); Rel (Bucket new); Rel (Bucket id); Rel Global]) = true).
  rewrite coarse_first_probe, coarse_first_bucket.
  change (coarse_first (remove_lock (Bucket id) (Bucket id :: [Global])) [Rel Global] = true).
  by rewrite remove_lock_top.
Qed.

Lemma coarse_first_panic id js :
  coarse_first []
    ([Acq (Bucket id); Rel (Bucket id)] ++ [Acq Global; Acq (Bucket id)] ++ probe_log js) = true.
Proof.
  change (coarse_first [] (Acq (Bucket id) :: Rel (Bucket id) ::
            [Acq Global; Acq (Bucket id)] ++ probe_log js) = true).
  rewrite coarse_first_bucket.
  change (coarse_first [Bucket id; Global] (probe_log js) = true).
  rewrite <- (app_nil_r (probe_log js)). by rewrite coarse_first_probe.
Qed.

Lemma fast_released_log st d n b s :
  fast_released st d n b s ->
  bc_log s = bc_log st ++ [Acq (Bucket (bucket_of n)); Rel (Bucket (bucket_of n))].
Proof.
  destruct 1; unfold hit_state, claim_state; simpl; rewrite log_store; simpl;
    by rewrite <- app_assoc.
Qed.

Lemma slow_released_log st d n b s :
  slow_released st d n b s ->
  exists js e0, Forall (fun j => j <> bucket_of n) js /\ load st b = Some e0 /\
    refcnt e0 = 0 /\ bucket_of (blockno e0) <> bucket_of n /\
    bc_log s = bc_log st ++ [Acq Global; Acq (Bucket (bucket_of n))] ++ probe_log js ++
      [Acq (Bucket (bucket_of (blockno e0))); Rel (Bucket (bucket_of (blockno e0)));
       Rel (Bucket (bucket_of n)); Rel Global].
Proof.
  destruct 1 as [js i e0 st2 Hjs Hi He0 Hr Hne Hmv].
  exists js, e0. split_and!; try done.
  pose proof (move_to_head_total (Bf i) (bucket_of n)
                (relabelled (slow_entry st (bucket_of n)) js (Bf i) e0 d n)) as Hsp.
  eapply wp_Ret in Hsp; [|done]. destruct Hsp as (_ & Hsp & _).
  unfold stolen. simpl. rewrite (sp_log _ _ Hsp). unfold relabelled.
  rewrite log_store. simpl. rewrite <- !app_assoc. done.
Qed.

Lemma appends_trans st1 st2 st3 evs evs' :
  appends st1 st2 evs -> appends st2 st3 evs' -> appends st1 st3 (evs ++ evs').
Proof. unfold appends. intros -> ->. by rewrite app_assoc. Qed.

Lemma coarse_first_bget_log id path : coarse_first [] (bget_log id path) = true.
Proof.
  destruct path as [[js new]|]; [apply coarse_first_steal|apply coarse_first_pair].
Qed.

Lemma released_log st d n b s :
  released st d n b s -> exists path, appends st s (bget_log (bucket_of n) path).
Proof.
  intros [H|[_ H]].
  - exists None. apply (fast_released_log _ _ _ _ _ H).
  - apply slow_released_log in H as (js & e0 & _ & _ & _ & _ & Hlog).
    exists (Some (js, bucket_of (blockno e0))). unfold appends.
    rewrite Hlog. unfold mid. simpl. by rewrite <- !app_assoc.
Qed.

Lemma bget_locks_in_order me d n st :
  wp (bget me d n) (fun _ => locks_in_order st) (fun _ => locks_in_order st)
    (fun _ => locks_in_order st) st.
Proof.
  eapply wp_mono; [apply bget_spec| | |].
  - intros b st' (s & e1 & (path & Hp)%released_log & _ & _ & ->).
    exists (bget_log (bucket_of n) path). split; [|apply coarse_first_bget_log].
    unfold appends. by rewrite log_store.
  - intros msg st' (_ & _ & _ & js & _ & ->).
    exists ([Acq (Bucket (bucket_of n)); Rel (Bucket (bucket_of n))] ++
            [Acq Global; Acq (Bucket (bucket_of n))] ++ probe_log js).
    split; [|apply coarse_first_panic].
    unfold appends, probing, slow_entry, mid. simpl. by rewrite <- !app_assoc.
  - intros b st' (e1 & (path & Hp)%released_log & _).
    exists (bget_log (bucket_of n) path). split; [done|apply coarse_first_bget_log].
Qed.

Lemma wp_virtio_disk_rw b w (Q : unit -> bcache -> Prop) P S st :
  (forall e, load st b = Some e -> appends st (run_disk st b w) [disk_event e w] ->
     (forall q, q <> b -> load (run_disk st b w) q = load st q) ->
     Q tt (run_disk st b w)) ->
  wp (virtio_disk_rw b w) Q P S st.
Proof.
  unfold wp, virtio_disk_rw, run_disk, state_of, virtio_disk_rw.
  destruct (load st b) as [e|] eqn:He; [|done].
  intros H. destruct w; apply (H e eq_refl); try done.
  - unfold appends. simpl. by rewrite log_store.
  - intros q Hq. by rewrite load_emit, load_store_ne.
Qed.

Lemma coarse_first_disk held evs ev :
  match ev with DiskRead _ _ | DiskWrite _ _ _ => True | _ => False end ->
  coarse_first held evs = true -> coarse_first held (evs ++ [ev]) = true.
Proof.
  intros Hev. revert held. induction evs as [|[[|i]|[|i]|d b|d b bytes] evs IH];
    intros held; simpl.
  - destruct ev; done.
  - intros [H1 H2]%andb_prop. rewrite H1. by apply IH.
  - apply IH.
  - intros [H1 H2]%andb_prop. rewrite H1. by apply IH.
  - apply IH.
  - apply IH.
  - apply IH.
Qed.

Lemma locks_in_order_store st st' p v :
  locks_in_order st st' -> locks_in_order st (store st' p v).
Proof. intros (evs & H & Hc). exists evs. split; [|done]. unfold appends. by rewrite log_store. Qed.

Lemma exec_locks_in_order c st :
  wp (exec c) (fun _ => locks_in_order st) (fun _ => locks_in_order st)
    (fun _ => locks_in_order st) st.
Proof.
  destruct c as [me d n|me d n|me b|me b|b|b]; simpl.
  - apply wp_bind. eapply wp_mono; [apply bget_locks_in_order| |done|done].
    intros b st' H. by wp_steps.
  - apply wp_bind. unfold bread. apply wp_bind.
    eapply wp_mono; [apply bget_locks_in_order| |done|done].
    intros b st1 H1. wp_steps. destruct (valid e =? 0).
    + wp_steps. apply wp_virtio_disk_rw. intros e' He' Happ Hfr. wp_steps.
      apply locks_in_order_store. destruct H1 as (evs & H1 & Hc).
      exists (evs ++ [disk_event e' false]). split; [by eapply appends_trans|].
      by apply coarse_first_disk.
    + by wp_steps.
  - unfold bwrite, holdingsleep. wp_steps. destruct (negb _).
    + wp_steps. exists []. split; [|done]. unfold appends. by rewrite app_nil_r.
    + apply wp_virtio_disk_rw. intros e' He' Happ Hfr.
      exists [disk_event e' true]. split; [done|]. by destruct e'.
  - unfold brelse, holdingsleep. wp_steps. destruct (negb _).
    { wp_steps. exists []. split; [|done]. unfold appends. by rewrite app_nil_r. }
    unfold releasesleep. wp_steps.
    match goal with |- wp _ _ _ _ ?s => set (st3 := s) end.
    assert (appends st st3 [Acq (Bucket (bucket_of (blockno e1)))]) as Happ.
    { unfold appends, st3. rewrite log_store. simpl. by rewrite log_store. }
    assert (forall s, bc_log s = bc_log st3 ->
              locks_in_order st (emit (Rel (Bucket (bucket_of (blockno e1)))) s)) as Hfin.
    { intros s Hs. exists [Acq (Bucket (bucket_of (blockno e1))); Rel (Bucket (bucket_of (blockno e1)))].
      split; [|apply coarse_first_pair]. unfold appends in *. simpl. rewrite Hs, Happ.
      by rewrite <- app_assoc. }
    destruct (refcnt e3 =? 0).
    + eapply wp_mono; [apply move_to_head_payload| |done|done].
      intros [] s [Hsp _]. wp_steps. apply Hfin. apply (sp_log _ _ Hsp).
    + wp_steps. by apply Hfin.
  - unfold bpin. wp_steps.
    exists [Acq (Bucket (bucket_of (blockno e))); Rel (Bucket (bucket_of (blockno e)))].
    split; [|apply coarse_first_pair]. unfold appends. simpl. rewrite log_store. simpl.
    by rewrite <- app_assoc.
  - unfold bunpin. wp_steps.
    exists [Acq (Bucket (bucket_of (blockno e))); Rel (Bucket (bucket_of (blockno e)))].
    split; [|apply coarse_first_pair]. unfold appends. simpl. rewrite log_store. simpl.
    by rewrite <- app_assoc.
Qed.

(** When every buffer of the pool is referenced, bget returns only on a hit:
    the buffer it returns already had the requested identity. *)
Lemma bget_full_pool_returns_hits_only me d n st b st' :
  (forall q e, load st q = Some e -> refcnt e <> 0) ->
  bget me d n st = Ret b st' ->
  exists e0, load st b = Some e0 /\ dev e0 = d /\ blockno e0 = n.
Proof.
  intros Hfull Hret. pose proof (bget_spec me d n st) as H.
  eapply wp_Ret in H; [|done]. destruct H as (s & e1 & Hrel & _).
  apply released_reserved in Hrel as (e0 & e1' & H0 & _ & _ & _ & _ & _ & Hcase & _).
  exists e0. split; [done|]. destruct Hcase as [(? & ? & _)|(Hz & _)]; [done|].
  by destruct (Hfull _ _ H0).
Qed.

(** ** Hits, evaluated *)

Lemma acquiresleep_free b me st e :
  load st b = Some e -> locked (lock e) = 0 ->
  acquiresleep b me st = Ret tt (store st b (granted me e)).
Proof. intros H Hl. unfold acquiresleep. rewrite H, Hl. done. Qed.

Lemma bget_cached_hit me d n id k p b e0 st :
  walk st next id (nomatch d n) k p b ->
  b <> Hd id -> load st b = Some e0 -> dev e0 = d -> blockno e0 = n ->
  locked (lock e0) = 0 ->
  forall fuel, (k < fuel)%nat ->
  bget_cached fuel me d n id p st =
    Ret (Some b) (store (hit_state st b e0 id) b (granted me (bump e0))).
Proof.
  intros Hw Hb He0 Hd' Hn' Hlk.
  induction Hw as [p|k p e q Hp He Hs Hw IH]; intros [|fuel] Hk; try lia.
  - simpl. rewrite decide_False by done. rewrite (bind_rd _ _ _ _ He0).
    rewrite Hd', Hn', !Z.eqb_refl. simpl.
    rewrite (bind_upd _ _ _ _ _ He0). rewrite bind_release.
    erewrite bind_Ret.
    2:{ apply acquiresleep_free with (e := bump e0); [|done].
        rewrite load_emit. by erewrite load_store_eq. }
    done.
  - simpl. rewrite decide_False by done. rewrite (bind_rd _ _ _ _ He).
    unfold nomatch in Hs. rewrite Hs. apply IH; [done|done|lia].
Qed.

Lemma bget_hit me d n k h b e0 st :
  load st (Hd (bucket_of n)) = Some h ->
  walk st next (bucket_of n) (nomatch d n) k (next h) b ->
  (k < walk_len st)%nat ->
  b <> Hd (bucket_of n) -> load st b = Some e0 -> dev e0 = d -> blockno e0 = n ->
  locked (lock e0) = 0 ->
  bget me d n st =
    Ret b (store (hit_state (emit (Acq (Bucket (bucket_of n))) st) b e0 (bucket_of n))
             b (granted me (bump e0))).
Proof.
  intros Hh Hw Hk Hb He0 Hd' Hn' Hlk. unfold bget, bget_fast.
  rewrite bind_assoc, bind_acquire. rewrite bind_assoc.
  change ((walk_fuel ≫= ?k) ?s) with (k (walk_len s) s). cbv beta.
  rewrite bind_assoc. erewrite bind_rd by (by rewrite load_emit).
  rewrite bind_assoc. erewrite bind_Ret.
  2:{ eapply bget_cached_hit; try done.
      eapply walk_ext; [|done]. intros r. apply load_emit. }
  done.
Qed.

Lemma bread_hit me d n st b st' e :
  bget me d n st = Ret b st' -> load st' b = Some e -> valid e <> 0 ->
  bread me d n st = Ret b st'.
Proof.
  intros Hg He Hv. unfold bread. rewrite (bind_Ret _ _ _ _ _ Hg).
  rewrite (bind_rd _ _ _ _ He). apply Z.eqb_neq in Hv. by rewrite Hv.
Qed.

Lemma walk_frame st st' f id skip k p q b e0 :
  walk st f id skip k p q ->
  load st b = Some e0 -> ~ skip e0 ->
  (forall r, r <> b -> load st' r = load st r) ->
  walk st' f id skip k p q.
Proof.
  intros Hw Hb Hns Hfr. induction Hw as [|k p e q Hp He Hs Hw IH]; [constructor|].
  econstructor; eauto. rewrite Hfr; [done|]. intros ->. same_load. done.
Qed.

Lemma walk_len_store st p v : walk_len (store st p v) = walk_len st.
Proof. unfold walk_len. by rewrite nbuf_store, nhead_store. Qed.

Lemma walk_len_emit st ev : walk_len (emit ev st) = walk_len st.
Proof. done. Qed.

Lemma walk_len_same_payload st st' : same_payload st st' -> walk_len st' = walk_len st.
Proof. intros H. unfold walk_len. by rewrite (sp_nbuf _ _ H), (sp_nhead _ _ H). Qed.

Lemma released_not_head st d n b s : released st d n b s -> b <> Hd (bucket_of n).
Proof. intros [H|[_ H]]; destruct H; done. Qed.

Lemma released_walk_len st d n b s : released st d n b s -> walk_len s = walk_len st.
Proof.
  intros [H|[_ H]].
  - destruct H; unfold hit_state, claim_state;
      by rewrite walk_len_emit, walk_len_store.
  - destruct H as [js i e0 st2 Hjs Hi He0 Hr Hne Hmv].
    pose proof (move_to_head_total (Bf i) (bucket_of n)
                  (relabelled (slow_entry (mid st (bucket_of n)) (bucket_of n)) js (Bf i) e0 d n)) as Hsp.
    eapply wp_Ret in Hsp; [|done]. destruct Hsp as (_ & Hsp & _).
    unfold stolen. rewrite !walk_len_emit.
    rewrite (walk_len_same_payload _ _ Hsp). unfold relabelled. by rewrite walk_len_store.
Qed.

(** What bread adds to bget. *)
Lemma bread_inv me d n st b st1 :
  bread me d n st = Ret b st1 ->
  exists sta ea e1, bget me d n st = Ret b sta /\ load sta b = Some ea /\
    load st1 b = Some e1 /\ valid e1 <> 0 /\
    dev e1 = dev ea /\ blockno e1 = blockno ea /\ lock e1 = lock ea /\
    refcnt e1 = refcnt ea /\
    (forall q, q <> b -> load st1 q = load sta q) /\ walk_len st1 = walk_len sta.
Proof.
  unfold bread. intros H.
  apply bind_Ret_inv in H as (b' & sta & Hg & H).
  apply bind_Ret_inv in H as (ea & sta' & Hrd & H).
  unfold rd in Hrd. destruct (load sta b') as [ea'|] eqn:Hea; [|done].
  injection Hrd as <- <-.
  destruct (valid ea' =? 0) eqn:Hv.
  - apply bind_Ret_inv in H as ([] & s1 & Hdisk & H).
    apply bind_Ret_inv in H as ([] & s2 & Hupd & H).
    injection H as <- <-.
    unfold virtio_disk_rw in Hdisk. rewrite Hea in Hdisk. injection Hdisk as <-.
    unfold upd in Hupd. rewrite load_emit in Hupd. erewrite load_store_eq in Hupd by done.
    injection Hupd as <-.
    exists sta, ea',
      (set_valid 1 (set_data (disk_lookup (bc_disk sta) (dev ea') (blockno ea')) ea')).
    split_and!; try done.
    + erewrite load_store_eq; [done|]. rewrite load_emit. by erewrite load_store_eq.
    + intros q Hq. by rewrite load_store_ne, load_emit, load_store_ne.
    + by rewrite walk_len_store, walk_len_emit, walk_len_store.
  - injection H as <- <-. apply Z.eqb_neq in Hv. by exists sta, ea', ea'.
Qed.

(** ** The lists behind the pointers *)

Lemma lastp_cases p l : (l = [] /\ lastp p l = p) \/ exists j, j ∈ l /\ lastp p l = Bf j.
Proof.
  revert p. induction l as [|i l IH]; intros p; [by left|]. right.
  destruct (IH (Bf i)) as [[-> H]|(j & Hj & H)].
  - exists i. split; [by apply list_elem_of_singleton|done].
  - exists j. split; [by apply elem_of_cons; right|done].
Qed.

Lemma firstp_cases l q : (l = [] /\ firstp l q = q) \/ exists j, j ∈ l /\ firstp l q = Bf j.
Proof.
  destruct l as [|i l]; [by left|]. right. exists i. split; [|done].
  apply elem_of_cons. by left.
Qed.

Lemma path_first st p l q : path st p l q -> nxt st p = Some (firstp l q).
Proof. destruct l; simpl; unfold hop; tauto. Qed.

Lemma path_last st p l q : path st p l q -> prv st q = Some (lastp p l).
Proof.
  revert p. induction l as [|i l IH]; intros p; simpl; [unfold hop; tauto|].
  intros [_ H]. by apply IH.
Qed.

Lemma path_app st p l1 i l2 q :
  path st p (l1 ++ i :: l2) q <-> path st p l1 (Bf i) /\ path st (Bf i) l2 q.
Proof.
  revert p. induction l1 as [|a l1 IH]; intros p; simpl; [done|].
  rewrite IH. tauto.
Qed.

Lemma path_frame st st' p l q :
  path st p l q ->
  (forall x, x ∈ p :: (Bf <$> l) -> nxt st' x = nxt st x) ->
  (forall y, y ∈ (Bf <$> l) ++ [q] -> prv st' y = prv st y) ->
  path st' p l q.
Proof.
  revert p. induction l as [|i l IH]; intros p; simpl.
  - intros [Hn Hp] Hx Hy. split.
    + rewrite Hx; [done|]. apply elem_of_cons. by left.
    + rewrite Hy; [done|]. apply elem_of_cons. by left.
  - intros [[Hn Hp] Hrest] Hx Hy. split; [split|].
    + rewrite Hx; [done|]. apply elem_of_cons. by left.
    + rewrite Hy; [done|]. apply elem_of_cons. by left.
    + apply IH; [done| |].
      * intros x Hin. apply Hx. apply elem_of_cons. by right.
      * intros y Hin. apply Hy. apply elem_of_cons. by right.
Qed.

Lemma Bf_elem_of i (l : list nat) : Bf i ∈ (Bf <$> l) <-> i ∈ l.
Proof.
  rewrite list_elem_of_fmap. split.
  - intros (j & [= ->] & Hj). done.
  - intros H. by exists i.
Qed.

(** Taking [i] out of a list: the pointers around it are joined. *)
Lemma path_unlink st st' i l2 q : forall l1 p,
  path st p l1 (Bf i) -> path st (Bf i) l2 q ->
  NoDup (l1 ++ l2) ->
  (forall j, j ∈ l1 ++ l2 -> p <> Bf j) ->
  (forall j, j ∈ l1 ++ l2 -> q <> Bf j) ->
  nxt st' (lastp p l1) = Some (firstp l2 q) ->
  prv st' (firstp l2 q) = Some (lastp p l1) ->
  (forall x, x <> lastp p l1 -> nxt st' x = nxt st x) ->
  (forall y, y <> firstp l2 q -> prv st' y = prv st y) ->
  path st' p (l1 ++ l2) q.
Proof.
  induction l1 as [|a l1 IH]; intros p H1 H2 Hnd Hp Hq U1 U2 U3 U4; simpl in *.
  - destruct l2 as [|j l2]; simpl in *; [done|].
    destruct H2 as [_ H2]. split; [done|].
    apply NoDup_cons in Hnd as [Hj Hnd].
    eapply path_frame; [done| |].
    + intros x Hx. apply U3. intros ->.
      apply elem_of_cons in Hx as [Hx|(j' & Hx & Hj')%list_elem_of_fmap].
      * by apply (Hp j); [apply elem_of_cons; left|].
      * by apply (Hp j'); [apply elem_of_cons; right|].
    + intros y Hy. apply U4. intros ->.
      apply elem_of_app in Hy as [Hy%Bf_elem_of|Hy%list_elem_of_singleton]; [done|].
      by apply (Hq j); [apply elem_of_cons; left|].
  - destruct H1 as [[Hn Hpv] H1].
    apply NoDup_cons in Hnd as [Ha Hnd].
    split; [split|].
    + rewrite U3; [done|]. intros ->.
      destruct (lastp_cases (Bf a) l1) as [[_ Hl]|(j & Hj & Hl)]; rewrite Hl in *.
      * by apply (Hp a); [apply elem_of_cons; left|].
      * apply (Hp j); [|done]. apply elem_of_cons; right. apply elem_of_app. by left.
    + rewrite U4; [done|]. intros Heq.
      destruct (firstp_cases l2 q) as [[_ Hf]|(j & Hj & Hf)]; rewrite Hf in *.
      * by apply (Hq a); [apply elem_of_cons; left|].
      * injection Heq as ->. apply Ha. apply elem_of_app. by right.
    + apply IH; try done.
      * intros j Hj [= ->]. done.
      * intros j Hj. apply Hq. apply elem_of_cons. by right.
Qed.

(** Putting [i] right behind the head of a list. *)
Lemma path_push st st' id i l :
  path st (Hd id) l (Hd id) -> i ∉ l -> NoDup l ->
  nxt st' (Hd id) = Some (Bf i) ->
  prv st' (Bf i) = Some (Hd id) ->
  nxt st' (Bf i) = Some (firstp l (Hd id)) ->
  prv st' (firstp l (Hd id)) = Some (Bf i) ->
  (forall x, x <> Hd id -> x <> Bf i -> nxt st' x = nxt st x) ->
  (forall y, y <> Bf i -> y <> firstp l (Hd id) -> prv st' y = prv st y) ->
  path st' (Hd id) (i :: l) (Hd id).
Proof.
  intros H Hi Hnd V1 V2 V3 V4 V5 V6. simpl. split; [done|].
  destruct l as [|j l]; simpl in *; [done|].
  destruct H as [_ H]. split; [done|].
  apply NoDup_cons in Hnd as [Hj Hnd].
  eapply path_frame; [done| |].
  - intros x Hx. apply V5.
    + apply elem_of_cons in Hx as [->|(? & -> & ?)%list_elem_of_fmap]; done.
    + intros ->. apply Hi. apply elem_of_cons.
      apply elem_of_cons in Hx as [[= ->]|Hx%Bf_elem_of]; [by left|by right].
  - intros y Hy. apply V6.
    + intros ->. apply elem_of_app in Hy as [Hy%Bf_elem_of|Hy%list_elem_of_singleton]; [|done].
      apply Hi. apply elem_of_cons. by right.
    + intros ->. apply elem_of_app in Hy as [Hy%Bf_elem_of|Hy%list_elem_of_singleton]; done.
Qed.

Lemma nxt_store_set_prev st p e v x :
  load st p = Some e -> nxt (store st p (set_prev v e)) x = nxt st x.
Proof.
  intros H. unfold nxt. rewrite (load_store _ _ _ _ _ H).
  case_decide; [|done]. subst x. by rewrite H.
Qed.

Lemma nxt_store_set_next st p e v x :
  load st p = Some e ->
  nxt (store st p (set_next v e)) x = if decide (x = p) then Some v else nxt st x.
Proof.
  intros H. unfold nxt. rewrite (load_store _ _ _ _ _ H).
  repeat case_decide; simpl; congruence.
Qed.

Lemma prv_store_set_next st p e v x :
  load st p = Some e -> prv (store st p (set_next v e)) x = prv st x.
Proof.
  intros H. unfold prv. rewrite (load_store _ _ _ _ _ H).
  case_decide; [|done]. subst x. by rewrite H.
Qed.

Lemma prv_store_set_prev st p e v x :
  load st p = Some e ->
  prv (store st p (set_prev v e)) x = if decide (x = p) then Some v else prv st x.
Proof.
  intros H. unfold prv. rewrite (load_store _ _ _ _ _ H).
  repeat case_decide; simpl; congruence.
Qed.

Lemma load_store_is_Some st p v q :
  is_Some (load st q) -> is_Some (load (store st p v) q).
Proof.
  intros [e He]. destruct (decide (p = q)) as [->|Hne].
  - erewrite load_store_eq; eauto.
  - rewrite load_store_ne; eauto.
Qed.

(** What [unlink] does to the pointers. *)
Lemma unlink_eval b st eb :
  load st b = Some eb -> next eb <> b ->
  is_Some (load st (next eb)) -> is_Some (load st (prev eb)) ->
  exists st', unlink b st = Ret tt st' /\ same_payload st st' /\
    (forall x, nxt st' x = if decide (x = prev eb) then Some (next eb) else nxt st x) /\
    (forall y, prv st' y = if decide (y = next eb) then Some (prev eb) else prv st y).
Proof.
  intros Hb Hne [en Hn] Hp.
  unfold unlink. rewrite (bind_rd _ _ _ _ Hb).
  rewrite (bind_upd _ _ _ _ _ Hn).
  erewrite bind_rd by (by rewrite load_store_ne).
  set (st1 := store st (next eb) (set_prev (prev eb) en)).
  assert (is_Some (load st1 (prev eb))) as [ep Hp1] by (by apply load_store_is_Some).
  rewrite (run_upd _ _ _ _ Hp1). eexists. split; [done|]. split_and!.
  - eapply same_payload_trans; by eapply same_payload_store.
  - intros x. rewrite (nxt_store_set_next _ _ _ _ _ Hp1).
    case_decide; [done|]. unfold st1. by rewrite (nxt_store_set_prev _ _ _ _ _ Hn).
  - intros y. rewrite (prv_store_set_next _ _ _ _ _ Hp1).
    unfold st1. by rewrite (prv_store_set_prev _ _ _ _ _ Hn).
Qed.

(** What [link_front] does to the pointers. *)
Lemma link_front_eval b id st h eb :
  load st (Hd id) = Some h -> load st b = Some eb -> b <> Hd id ->
  next h <> b -> is_Some (load st (next h)) ->
  exists st', link_front b id st = Ret tt st' /\ same_payload st st' /\
    (forall x, nxt st' x =
       if decide (x = Hd id) then Some b
       else if decide (x = b) then Some (next h) else nxt st x) /\
    (forall y, prv st' y =
       if decide (y = next h) then Some b
       else if decide (y = b) then Some (Hd id) else prv st y).
Proof.
  intros Hh Hb Hbh Hnb H1.
  unfold link_front. rewrite (bind_rd _ _ _ _ Hh).
  rewrite (bind_upd _ _ _ _ _ Hb).
  set (st1 := store st b (set_next (next h) eb)).
  assert (load st1 b = Some (set_next (next h) eb)) as Hb1 by (by eapply load_store_eq).
  rewrite (bind_upd _ _ _ _ _ Hb1).
  set (st2 := store st1 b _).
  assert (load st2 (Hd id) = Some h) as Hh2.
  { unfold st2, st1. by rewrite !load_store_ne. }
  rewrite (bind_rd _ _ _ _ Hh2).
  assert (is_Some (load st2 (next h))) as [e1 H12].
  { unfold st2, st1. by do 2 apply load_store_is_Some. }
  rewrite (bind_upd _ _ _ _ _ H12).
  set (st3 := store st2 (next h) (set_prev b e1)).
  assert (is_Some (load st3 (Hd id))) as [h3 Hh3].
  { unfold st3. apply load_store_is_Some. eauto. }
  rewrite (run_upd _ _ _ _ Hh3). eexists. split; [done|]. split_and!.
  - eapply same_payload_trans; [|by eapply same_payload_store].
    eapply same_payload_trans; [|by eapply same_payload_store].
    eapply same_payload_trans; by eapply same_payload_store.
  - intros x. rewrite (nxt_store_set_next _ _ _ _ _ Hh3).
    case_decide; [done|]. unfold st3. rewrite (nxt_store_set_prev _ _ _ _ _ H12).
    unfold st2. rewrite (nxt_store_set_prev _ _ _ _ _ Hb1).
    unfold st1. by rewrite (nxt_store_set_next _ _ _ _ _ Hb).
  - intros y. rewrite (prv_store_set_next _ _ _ _ _ Hh3).
    unfold st3. rewrite (prv_store_set_prev _ _ _ _ _ H12).
    case_decide; [done|]. unfold st2. rewrite (prv_store_set_prev _ _ _ _ _ Hb1).
    case_decide; [done|]. unfold st1. by rewrite (prv_store_set_next _ _ _ _ _ Hb).
Qed.

Lemma bucket_of_lt n : (bucket_of n < nbuckets)%nat.
Proof.
  unfold bucket_of, nbuckets, NBUCKETS.
  pose proof (Z.mod_pos_bound n 13). lia.
Qed.

Lemma path_first_prv st p l q : path st p l q -> prv st (firstp l q) = Some p.
Proof. destruct l; simpl; unfold hop; tauto. Qed.

Lemma path_last_nxt st p l q : path st p l q -> nxt st (lastp p l) = Some q.
Proof.
  revert p. induction l as [|i l IH]; intros p; simpl; [unfold hop; tauto|].
  intros [_ H]. by apply IH.
Qed.

Lemma nxt_is_Some st p q : nxt st p = Some q -> exists e, load st p = Some e /\ next e = q.
Proof. unfold nxt. destruct (load st p) as [e|]; [|done]. intros [= <-]. eauto. Qed.

Lemma prv_is_Some st p q : prv st p = Some q -> exists e, load st p = Some e /\ prev e = q.
Proof. unfold prv. destruct (load st p) as [e|]; [|done]. intros [= <-]. eauto. Qed.

Lemma lists_ok_node_ne st ls k k' x :
  lists_ok st ls -> k <> k' ->
  x ∈ Hd k :: (Bf <$> ls k) -> x ∈ Hd k' :: (Bf <$> ls k') -> False.
Proof.
  intros Hok Hne [->|(c & -> & Hc)%list_elem_of_fmap]%elem_of_cons
    [Hx|(c' & Hx & Hc')%list_elem_of_fmap]%elem_of_cons; try done.
  - congruence.
  - injection Hx as ->. by apply Hne, (lo_disj _ _ Hok _ _ c').
Qed.

Lemma lastp_node p l : lastp p l ∈ p :: (Bf <$> l).
Proof.
  destruct (lastp_cases p l) as [[_ ->]|(j & Hj & ->)].
  - apply elem_of_cons. by left.
  - apply elem_of_cons. right. by apply Bf_elem_of.
Qed.

Lemma firstp_node l q : firstp l q ∈ q :: (Bf <$> l).
Proof.
  destruct (firstp_cases l q) as [[_ ->]|(j & Hj & ->)].
  - apply elem_of_cons. by left.
  - apply elem_of_cons. right. by apply Bf_elem_of.
Qed.

Lemma node_weaken (x p : ptr) (l l' : list nat) :
  (forall c, c ∈ l -> c ∈ l') -> x ∈ p :: (Bf <$> l) -> x ∈ p :: (Bf <$> l').
Proof.
  intros Hsub [->|(c & -> & Hc)%list_elem_of_fmap]%elem_of_cons.
  - apply elem_of_cons. by left.
  - apply elem_of_cons. right. apply Bf_elem_of. auto.
Qed.

Lemma tgt_node (y q : ptr) (l : list nat) : y ∈ (Bf <$> l) ++ [q] -> y ∈ q :: (Bf <$> l).
Proof.
  intros [H|H%list_elem_of_singleton]%elem_of_app; apply elem_of_cons; auto.
Qed.

Lemma unlink_rep st ls j l1 i l2 :
  lists_ok st ls -> (j < nbuckets)%nat -> ls j = l1 ++ i :: l2 ->
  exists st', unlink (Bf i) st = Ret tt st' /\ same_payload st st' /\
    lists_ok st' (fun k => if decide (k = j) then l1 ++ l2 else ls k).
Proof.
  intros Hok Hj Hls.
  pose proof (lo_dll _ _ Hok j Hj) as Hdl. unfold dll in Hdl. rewrite Hls in Hdl.
  apply path_app in Hdl as [P1 P2].
  pose proof (lo_nodup _ _ Hok j) as Hnd. rewrite Hls in Hnd.
  assert (NoDup (l1 ++ l2) /\ (i ∉ l1 ++ l2)) as [Hnd' Hi].
  { apply NoDup_app in Hnd as (N1 & N2 & N3). apply NoDup_cons in N3 as [N3 N4].
    split.
    - apply NoDup_app. split_and!; try done. intros x Hx Hx2. apply (N2 x Hx).
      apply elem_of_cons. by right.
    - intros [H|H]%elem_of_app; [|done]. apply (N2 i H). apply elem_of_cons. by left. }
  destruct (prv_is_Some _ _ _ (path_last _ _ _ _ P1)) as (eb & Hb & Hprev).
  destruct (nxt_is_Some _ _ _ (path_first _ _ _ _ P2)) as (eb' & Hb' & Hnext).
  same_load.
  assert (forall c, c ∈ l1 ++ l2 -> c ∈ ls j) as Hsub.
  { intros c Hc. rewrite Hls. apply elem_of_app in Hc as [Hc|Hc]; apply elem_of_app;
      [by left|right; apply elem_of_cons; by right]. }
  destruct (unlink_eval (Bf i) st eb Hb) as (st' & Hrun & Hsp & U3 & U4).
  { rewrite Hnext. destruct (firstp_cases l2 (Hd j)) as [[_ ->]|(c & Hc & ->)]; [done|].
    intros [= ->]. apply Hi. apply elem_of_app. by right. }
  { rewrite Hnext. destruct (prv_is_Some _ _ _ (path_first_prv _ _ _ _ P2)) as (e & -> & _). eauto. }
  { rewrite Hprev. destruct (nxt_is_Some _ _ _ (path_last_nxt _ _ _ _ P1)) as (e & -> & _). eauto. }
  rewrite Hprev, Hnext in U3, U4.
  exists st'. split; [done|]. split; [done|]. split.
  - by rewrite (sp_nhead _ _ Hsp), (lo_heads _ _ Hok).
  - intros k Hk. case_decide as Hkj.
    + subst k. unfold dll. eapply path_unlink; try done.
      * rewrite U3. by rewrite decide_True.
      * rewrite U4. by rewrite decide_True.
      * intros x Hx. rewrite U3. by rewrite decide_False.
      * intros y Hy. rewrite U4. by rewrite decide_False.
    + eapply path_frame; [by apply (lo_dll _ _ Hok)| |].
      * intros x Hx. rewrite U3. rewrite decide_False; [done|]. intros ->.
        eapply (lists_ok_node_ne st ls k j); try done.
        eapply node_weaken; [|apply lastp_node]. intros c Hc. apply Hsub.
        apply elem_of_app. by left.
      * intros y Hy%tgt_node. rewrite U4. rewrite decide_False; [done|]. intros ->.
        eapply (lists_ok_node_ne st ls k j); try done.
        eapply node_weaken; [|apply firstp_node]. intros c Hc. apply Hsub.
        apply elem_of_app. by right.
  - intros k. case_decide; [done|]. apply (lo_nodup _ _ Hok).
  - intros k k' c. repeat case_decide; subst; intros Hc Hc'; try done.
    + apply Hsub in Hc. by eapply (lo_disj _ _ Hok).
    + apply Hsub in Hc'. by eapply (lo_disj _ _ Hok).
    + by eapply (lo_disj _ _ Hok).
  - intros k c Hc. rewrite (sp_nbuf _ _ Hsp). case_decide.
    + subst k. apply Hsub in Hc. by eapply (lo_range _ _ Hok).
    + by eapply (lo_range _ _ Hok).
Qed.

Lemma pushed_lists_ok st st' ls i id :
  lists_ok st ls -> (forall k, i ∉ ls k) ->
  (i < length (bc_buf st))%nat -> (id < nbuckets)%nat ->
  pushed st st' ls i id ->
  lists_ok st' (fun k => if decide (k = id) then i :: ls k else ls k).
Proof.
  intros Hok Hi Hlt Hid (Hnb & Hnh & V5 & V6).
  pose proof (lo_dll _ _ Hok id Hid) as Hdl. unfold dll in Hdl.
  assert (firstp (ls id) (Hd id) <> Bf i) as Hfi.
  { destruct (firstp_cases (ls id) (Hd id)) as [[_ ->]|(c & Hc & ->)]; [done|].
    intros [= ->]. by apply (Hi id). }
  split.
  - by rewrite Hnh, (lo_heads _ _ Hok).
  - intros k Hk. case_decide as Hkid.
    + subst k. unfold dll. eapply path_push; try done.
      * apply (lo_nodup _ _ Hok).
      * rewrite V5. by rewrite decide_True.
      * rewrite V6. by rewrite decide_False, decide_True.
      * rewrite V5. by rewrite decide_False, decide_True.
      * rewrite V6. by rewrite decide_True.
      * intros x Hx1 Hx2. rewrite V5. by rewrite !decide_False.
      * intros y Hy1 Hy2. rewrite V6. by rewrite !decide_False.
    + eapply path_frame; [by apply (lo_dll _ _ Hok)| |].
      * intros x Hx. rewrite V5. rewrite !decide_False; [done| |].
        -- intros ->. apply elem_of_cons in Hx as [Hx|Hx%Bf_elem_of]; [done|].
           by apply (Hi k).
        -- intros ->. eapply (lists_ok_node_ne st ls k id); try done.
           apply elem_of_cons. by left.
      * intros y Hy%tgt_node. rewrite V6. rewrite !decide_False; [done| |].
        -- intros ->. apply elem_of_cons in Hy as [Hy|Hy%Bf_elem_of]; [done|].
           by apply (Hi k).
        -- intros ->. eapply (lists_ok_node_ne st ls k id); try done.
           apply firstp_node.
  - intros k. case_decide; [|apply (lo_nodup _ _ Hok)].
    apply NoDup_cons. split; [apply Hi|apply (lo_nodup _ _ Hok)].
  - intros k k' c. repeat case_decide; subst; intros Hc Hc'; try done.
    + apply elem_of_cons in Hc as [->|Hc]; [by destruct (Hi k')|].
      by eapply (lo_disj _ _ Hok).
    + apply elem_of_cons in Hc' as [->|Hc']; [by destruct (Hi k)|].
      by eapply (lo_disj _ _ Hok).
    + by eapply (lo_disj _ _ Hok).
  - intros k c Hc. rewrite Hnb. case_decide.
    + subst k. apply elem_of_cons in Hc as [->|Hc]; [done|].
      by eapply (lo_range _ _ Hok).
    + by eapply (lo_range _ _ Hok).
Qed.

Lemma link_front_rep st ls i id :
  lists_ok st ls -> (forall k, i ∉ ls k) ->
  (i < length (bc_buf st))%nat -> (id < nbuckets)%nat ->
  exists st', link_front (Bf i) id st = Ret tt st' /\ same_payload st st' /\
    lists_ok st' (fun k => if decide (k = id) then i :: ls k else ls k).
Proof.
  intros Hok Hi Hlt Hid.
  pose proof (lo_dll _ _ Hok id Hid) as Hdl. unfold dll in Hdl.
  destruct (nxt_is_Some _ _ _ (path_first _ _ _ _ Hdl)) as (h & Hh & Hnext).
  destruct (lookup_lt_is_Some_2 (bc_buf st) i Hlt) as [eb Hb].
  destruct (link_front_eval (Bf i) id st h eb Hh Hb) as (st' & Hrun & Hsp & V5 & V6).
  { done. }
  { rewrite Hnext. destruct (firstp_cases (ls id) (Hd id)) as [[_ ->]|(c & Hc & ->)]; [done|].
    intros [= ->]. by apply (Hi id). }
  { rewrite Hnext. destruct (prv_is_Some _ _ _ (path_first_prv _ _ _ _ Hdl)) as (e & -> & _). eauto. }
  rewrite Hnext in V5, V6.
  exists st'. split; [done|]. split; [done|].
  apply (pushed_lists_ok st); try done.
  split_and!; [apply (sp_nbuf _ _ Hsp)|apply (sp_nhead _ _ Hsp)|done|done].
Qed.

Lemma filter_ne_id (i : nat) (l : list nat) : i ∉ l -> filter (fun c => c <> i) l = l.
Proof.
  induction l as [|a l IH]; [done|]. intros Hi.
  rewrite filter_cons_True.
  - f_equal. apply IH. intros H. apply Hi. apply elem_of_cons. by right.
  - intros ->. apply Hi. apply elem_of_cons. by left.
Qed.

Lemma filter_ne_split (i : nat) (l1 l2 : list nat) :
  i ∉ l1 -> i ∉ l2 -> filter (fun c => c <> i) (l1 ++ i :: l2) = l1 ++ l2.
Proof.
  intros H1 H2. rewrite filter_app, filter_cons_False by (intros H; by apply H).
  by rewrite !filter_ne_id.
Qed.

Lemma lists_ok_ext st ls ls' :
  (forall k, ls' k = ls k) -> lists_ok st ls -> lists_ok st ls'.
Proof.
  intros Heq [H1 H2 H3 H4 H5]. split; try done.
  - intros k Hk. rewrite Heq. auto.
  - intros k. rewrite Heq. auto.
  - intros k k' c. rewrite !Heq. apply H4.
  - intros k c. rewrite Heq. apply H5.
Qed.

Lemma moved_elem ls i id k c :
  c ∈ moved ls i id k <-> (c = i /\ k = id) \/ (c <> i /\ c ∈ ls k).
Proof.
  unfold moved. rewrite elem_of_app, list_elem_of_filter. case_decide as Hk.
  - rewrite list_elem_of_singleton. split.
    + intros [->|[? ?]]; [by left|by right].
    + intros [[-> _]|?]; [by left|by right].
  - rewrite elem_of_nil. split.
    + intros [[]|[? ?]]. by right.
    + intros [[_ ?]|?]; [done|by right].
Qed.

Lemma move_to_head_rep st ls i id :
  lists_ok st ls -> covers st ls ->
  (i < length (bc_buf st))%nat -> (id < nbuckets)%nat ->
  exists st', move_to_head (Bf i) id st = Ret tt st' /\ same_payload st st' /\
    lists_ok st' (moved ls i id) /\ covers st' (moved ls i id).
Proof.
  intros Hok Hcov Hlt Hid.
  destruct (Hcov i Hlt) as [j Hj].
  destruct (lo_range _ _ Hok _ _ Hj) as [Hjlt _].
  destruct (list_elem_of_split _ _ Hj) as (l1 & l2 & Hls).
  assert ((i ∉ l1) /\ (i ∉ l2)) as [Hi1 Hi2].
  { pose proof (lo_nodup _ _ Hok j) as Hnd. rewrite Hls in Hnd.
    apply NoDup_app in Hnd as (_ & N2 & N3). apply NoDup_cons in N3 as [N3 _].
    split; [|done]. intros H. apply (N2 i H). apply elem_of_cons. by left. }
  destruct (unlink_rep st ls j l1 i l2 Hok Hjlt Hls) as (st1 & Hrun1 & Hsp1 & Hok1).
  destruct (link_front_rep st1 _ i id Hok1) as (st2 & Hrun2 & Hsp2 & Hok2).
  { intros k. case_decide as Hkj.
    - intros [H|H]%elem_of_app; done.
    - intros H. apply Hkj. by apply (lo_disj _ _ Hok _ _ i). }
  { by rewrite (sp_nbuf _ _ Hsp1). }
  { done. }
  exists st2. split_and!.
  - unfold move_to_head. by rewrite (bind_Ret _ _ _ _ _ Hrun1).
  - by eapply same_payload_trans.
  - eapply lists_ok_ext; [|done]. intros k. unfold moved.
    assert (filter (fun c => c <> i) (ls k) = if decide (k = j) then l1 ++ l2 else ls k) as ->.
    { case_decide as Hkj.
      - subst k. rewrite Hls. by apply filter_ne_split.
      - apply filter_ne_id. intros H. apply Hkj. by apply (lo_disj _ _ Hok _ _ i). }
    by case_decide.
  - intros c Hc. rewrite (sp_nbuf _ _ Hsp2), (sp_nbuf _ _ Hsp1) in Hc.
    destruct (decide (c = i)) as [->|Hne].
    + exists id. apply moved_elem. by left.
    + destruct (Hcov c Hc) as [k Hk]. exists k. apply moved_elem. by right.
Qed.

(** ** The invariant of the cache *)

Lemma lists_ok_same_links st st' ls :
  lists_ok st ls ->
  (forall q, links <$> load st' q = links <$> load st q) ->
  length (bc_buf st') = length (bc_buf st) ->
  length (bc_head st') = length (bc_head st) ->
  lists_ok st' ls.
Proof.
  intros [H1 H2 H3 H4 H5] Hl Hnb Hnh.
  assert (forall q, nxt st' q = nxt st q) as Hn.
  { intros q. unfold nxt. specialize (Hl q). unfold links in Hl.
    destruct (load st' q), (load st q); simpl in *; congruence. }
  assert (forall q, prv st' q = prv st q) as Hp.
  { intros q. unfold prv. specialize (Hl q). unfold links in Hl.
    destruct (load st' q), (load st q); simpl in *; congruence. }
  split; try done.
  - congruence.
  - intros k Hk. eapply path_frame; [by apply H2|auto|auto].
  - intros k i Hi. rewrite Hnb. by apply H5.
Qed.

(** A change of one node that leaves its pointers alone. *)
Lemma touch_inv st st' ls b :
  inv_at st ls ->
  (forall q, q <> b -> load st' q = load st q) ->
  (forall e', load st' b = Some e' ->
     exists e, load st b = Some e /\ links e' = links e /\
       (refcnt e' <> 0 -> forall i, b = Bf i -> i ∈ ls (bucket_of (blockno e')))) ->
  (load st' b = None -> load st b = None) ->
  length (bc_buf st') = length (bc_buf st) ->
  length (bc_head st') = length (bc_head st) ->
  inv_at st' ls.
Proof.
  intros [Hok Hcov Hbk] Hfr Hb Hnone Hnb Hnh.
  assert (forall q, links <$> load st' q = links <$> load st q) as Hl.
  { intros q. destruct (decide (q = b)) as [->|Hne]; [|by rewrite Hfr].
    destruct (load st' b) as [e'|] eqn:He'.
    - destruct (Hb e' eq_refl) as (e & -> & Hle & _). simpl. by rewrite Hle.
    - by rewrite Hnone. }
  split.
  - by eapply lists_ok_same_links.
  - intros i Hi. rewrite Hnb in Hi. by apply Hcov.
  - intros i e' He' Hr. destruct (decide (Bf i = b)) as [<-|Hne].
    + destruct (Hb e' He') as (e & _ & _ & Hin). by apply Hin.
    + rewrite Hfr in He' by done. by apply (Hbk i e').
Qed.

Lemma walk_next_on_list st ls id skip k p b :
  lists_ok st ls -> (id < nbuckets)%nat ->
  p ∈ Hd id :: (Bf <$> ls id) ->
  walk st next id skip k p b ->
  b ∈ Hd id :: (Bf <$> ls id).
Proof.
  intros Hok Hid Hp Hw. induction Hw as [|k p e q Hne He Hs Hw IH]; [done|].
  apply IH. apply elem_of_cons in Hp as [->|(c & -> & Hc)%list_elem_of_fmap]; [done|].
  destruct (list_elem_of_split _ _ Hc) as (l1 & l2 & Hls).
  pose proof (lo_dll _ _ Hok id Hid) as Hdl. unfold dll in Hdl. rewrite Hls in Hdl.
  apply path_app in Hdl as [_ P2].
  destruct (nxt_is_Some _ _ _ (path_first _ _ _ _ P2)) as (e' & He' & Hnx).
  same_load. rewrite Hnx. eapply node_weaken; [|apply firstp_node].
  intros c' Hc'. rewrite Hls. apply elem_of_app. right. apply elem_of_cons. by right.
Qed.

Lemma walk_prev_on_list st ls id skip k p b :
  lists_ok st ls -> (id < nbuckets)%nat ->
  p ∈ Hd id :: (Bf <$> ls id) ->
  walk st prev id skip k p b ->
  b ∈ Hd id :: (Bf <$> ls id).
Proof.
  intros Hok Hid Hp Hw. induction Hw as [|k p e q Hne He Hs Hw IH]; [done|].
  apply IH. apply elem_of_cons in Hp as [->|(c & -> & Hc)%list_elem_of_fmap]; [done|].
  destruct (list_elem_of_split _ _ Hc) as (l1 & l2 & Hls).
  pose proof (lo_dll _ _ Hok id Hid) as Hdl. unfold dll in Hdl. rewrite Hls in Hdl.
  apply path_app in Hdl as [P1 _].
  destruct (prv_is_Some _ _ _ (path_last _ _ _ _ P1)) as (e' & He' & Hpv).
  same_load. rewrite Hpv. eapply node_weaken; [|apply lastp_node].
  intros c' Hc'. rewrite Hls. apply elem_of_app. by left.
Qed.

Lemma head_next_on_list st ls id h :
  lists_ok st ls -> (id < nbuckets)%nat -> load st (Hd id) = Some h ->
  next h ∈ Hd id :: (Bf <$> ls id) /\ prev h ∈ Hd id :: (Bf <$> ls id).
Proof.
  intros Hok Hid Hh. pose proof (lo_dll _ _ Hok id Hid) as Hdl. unfold dll in Hdl.
  destruct (nxt_is_Some _ _ _ (path_first _ _ _ _ Hdl)) as (e & He & Hnx).
  destruct (prv_is_Some _ _ _ (path_last _ _ _ _ Hdl)) as (e' & He' & Hpv).
  same_load. rewrite Hnx, Hpv. split; [apply firstp_node|apply lastp_node].
Qed.

(** The buffer reserved by the first critical section of bget is on the
    list of the target bucket. *)
Lemma fast_released_on_list st ls d n b s :
  lists_ok st ls -> fast_released st d n b s ->
  exists i, b = Bf i /\ i ∈ ls (bucket_of n).
Proof.
  intros Hok Hrel. pose proof (bucket_of_lt n) as Hid.
  assert (b ∈ Hd (bucket_of n) :: (Bf <$> ls (bucket_of n)) /\ b <> Hd (bucket_of n)) as [Hin Hne].
  { destruct Hrel as [h k b e0 Hh Hk Hw Hb He0 Hd0 Hn0|h k k' b e0 Hh Hk Hw Hk' Hw' Hb He0 Hr].
    - split; [|done]. eapply walk_next_on_list; try done.
      by apply (head_next_on_list st ls _ h).
    - split; [|done]. eapply walk_prev_on_list; try done.
      by apply (head_next_on_list st ls _ h). }
  apply elem_of_cons in Hin as [->|(i & -> & Hi)%list_elem_of_fmap]; [done|].
  by exists i.
Qed.

Lemma inv_same_mem st st' ls :
  (forall q, load st' q = load st q) ->
  length (bc_buf st') = length (bc_buf st) ->
  length (bc_head st') = length (bc_head st) ->
  inv_at st ls -> inv_at st' ls.
Proof.
  intros Hl Hnb Hnh [Hok Hcov Hbk]. split.
  - eapply lists_ok_same_links; try done. intros q. by rewrite Hl.
  - intros i Hi. rewrite Hnb in Hi. by apply Hcov.
  - intros i e He. rewrite Hl in He. by apply Hbk.
Qed.

Lemma inv_emit st ls ev : inv_at st ls -> inv_at (emit ev st) ls.
Proof. apply inv_same_mem; [|done|done]. intros q. apply load_emit. Qed.

(** A change of the fields of buffer [i] that are neither pointers nor the
    block number: the invariant survives if the buffer is referenced before
    or is on the list its block number asks for. *)
Lemma inv_store st ls i e e' :
  inv_at st ls -> load st (Bf i) = Some e ->
  links e' = links e -> blockno e' = blockno e ->
  (refcnt e' <> 0 -> refcnt e <> 0 \/ i ∈ ls (bucket_of (blockno e))) ->
  inv_at (store st (Bf i) e') ls.
Proof.
  intros Hinv He Hl Hb Hr. eapply (touch_inv st _ ls (Bf i)); [done| | | | |].
  - intros q Hq. by rewrite load_store_ne.
  - intros e'' He''. erewrite load_store_eq in He'' by done. injection He'' as <-.
    exists e. split_and!; try done. intros Hr' i' [= <-]. rewrite Hb.
    destruct (Hr Hr') as [H|H]; [|done]. by apply (ia_bucket _ _ Hinv).
  - intros Hn. by erewrite load_store_eq in Hn.
  - apply nbuf_store.
  - apply nhead_store.
Qed.

Lemma inv_store_same st ls b e e' :
  inv_at st ls -> load st b = Some e ->
  links e' = links e -> blockno e' = blockno e -> refcnt e' = refcnt e ->
  inv_at (store st b e') ls.
Proof.
  intros Hinv He Hl Hb Hr. eapply (touch_inv st _ ls b); [done| | | | |].
  - intros q Hq. by rewrite load_store_ne.
  - intros e'' He''. erewrite load_store_eq in He'' by done. injection He'' as <-.
    exists e. split_and!; try done. intros Hr' i ->. rewrite Hb.
    apply (ia_bucket _ _ Hinv); [done|congruence].
  - intros Hn. by erewrite load_store_eq in Hn.
  - apply nbuf_store.
  - apply nhead_store.
Qed.

Lemma inv_fast_released st ls d n b s :
  inv_at st ls -> fast_released st d n b s -> inv_at s ls.
Proof.
  intros Hinv Hrel.
  destruct (fast_released_on_list _ _ _ _ _ _ (ia_ok _ _ Hinv) Hrel) as (i & Hbi & Hi).
  destruct Hrel as [h k b e0 Hh Hk Hw Hb He0 Hd0 Hn0|h k k' b e0 Hh Hk Hw Hk' Hw' Hb He0 Hr];
    subst b.
  - unfold hit_state. apply inv_emit. apply (inv_store _ _ _ e0); [|done|done|done|].
    + by apply inv_emit.
    + intros _. right. by rewrite Hn0.
  - unfold claim_state. apply inv_emit.
    eapply (touch_inv (emit _ st) _ ls (Bf i)); [| | | | |].
    + by apply inv_emit.
    + intros q Hq. by rewrite load_store_ne.
    + intros e'' He''. erewrite load_store_eq in He'' by (by rewrite load_emit).
      injection He'' as <-. exists e0. split_and!; try done.
      intros _ i' [= <-]. done.
    + intros Hn. by erewrite load_store_eq in Hn by (by rewrite load_emit).
    + apply nbuf_store.
    + apply nhead_store.
Qed.

Lemma inv_granted st ls b e me :
  inv_at st ls -> load st b = Some e -> inv_at (store st b (granted me e)) ls.
Proof. intros Hinv He. by apply (inv_store_same _ _ _ e). Qed.

(** Moving buffer [i] to the head of the bucket its block number hashes
    to. *)
Lemma inv_move st ls i id st' :
  lists_ok st ls -> covers st ls ->
  (forall c e, c <> i -> load st (Bf c) = Some e -> refcnt e <> 0 ->
     c ∈ ls (bucket_of (blockno e))) ->
  (forall e, load st (Bf i) = Some e -> refcnt e <> 0 -> bucket_of (blockno e) = id) ->
  (i < length (bc_buf st))%nat -> (id < nbuckets)%nat ->
  move_to_head (Bf i) id st = Ret tt st' ->
  inv_at st' (moved ls i id).
Proof.
  intros Hok Hcov Hothers Hi Hlt Hid Hmv.
  destruct (move_to_head_rep st ls i id Hok Hcov Hlt Hid) as (st2 & Hrun & Hsp & Hok' & Hcov').
  rewrite Hmv in Hrun. injection Hrun as <-.
  split; [done|done|].
  intros c e' He' Hr.
  destruct (fmap_payload_eq (load st' (Bf c)) (load st (Bf c)) e') as (e & He & Hp).
  { symmetry. apply (sp_load _ _ Hsp). }
  { done. }
  apply payload_eq_fields in Hp as (_ & _ & Hb & _ & Hrc & _).
  apply moved_elem. destruct (decide (c = i)) as [->|Hne].
  - left. split; [done|]. rewrite <- Hb. apply (Hi e He). congruence.
  - right. split; [done|]. rewrite <- Hb. apply (Hothers c e Hne He). congruence.
Qed.

Lemma inv_slow_released st ls d n b s :
  inv_at st ls -> slow_released st d n b s ->
  exists i, b = Bf i /\ inv_at s (moved ls i (bucket_of n)).
Proof.
  intros [Hok Hcov Hbk] Hrel.
  destruct Hrel as [js i e0 st2 Hjs Hi He0 Hr Hne Hmv]. exists i. split; [done|].
  set (R := relabelled (slow_entry st (bucket_of n)) js (Bf i) e0 d n) in *.
  assert (forall q, load R q = if decide (Bf i = q) then Some (claimed d n e0) else load st q) as HR.
  { intros q. unfold R, relabelled. erewrite load_store.
    - case_decide; [done|]. unfold slow_entry. by rewrite load_emit, load_probing, !load_emit.
    - unfold slow_entry. by rewrite load_emit, load_probing, !load_emit. }
  assert (length (bc_buf R) = length (bc_buf st) /\ length (bc_head R) = length (bc_head st))
    as [HnbR HnhR].
  { unfold R, relabelled. by rewrite nbuf_store, nhead_store. }
  unfold stolen. do 3 apply inv_emit.
  apply (inv_move R ls i (bucket_of n)); try done.
  - eapply lists_ok_same_links; try done. intros q. rewrite HR.
    case_decide as Hq; [|done]. subst q. by rewrite He0.
  - intros c Hc. rewrite HnbR in Hc. by apply Hcov.
  - intros c e Hc He. rewrite HR in He. rewrite decide_False in He by congruence.
    by apply Hbk.
  - intros e He _. rewrite HR in He. rewrite decide_True in He by done.
    by injection He as <-.
  - by rewrite HnbR.
  - apply bucket_of_lt.
Qed.

(** ** The cache run by several callers at once *)

Lemma pick_Some t r r1 c r2 : pick t r = Some (r1, c, r2) -> r = r1 ++ (t, c) :: r2.
Proof.
  revert r1. induction r as [|[t' c'] r IH]; intros r1; simpl; [done|].
  case_decide as Ht.
  - intros [= <- <- <-]. by subst.
  - destruct (pick t r) as [[[r1' c''] r2']|]; [|done].
    intros [= <- <- <-]. simpl. f_equal. by apply IH.
Qed.

Lemma move_step t σ σ' : move t σ = Some σ' -> step σ σ'.
Proof.
  unfold move. destruct (pick t (running σ)) as [[[r1 c] r2]|] eqn:Hp; [|done].
  apply pick_Some in Hp. destruct (is_fin c) eqn:Hf.
  - intros [= <-]. destruct c as [[]| | | | | | | | |]; try done. by eapply step_return.
  - destruct (advance t c (mem σ) (held σ)) as [[[c' st'] h']|] eqn:Ha; [|done].
    intros [= <-]. by eapply step_run.
Qed.

Lemma go_reachable NBUF n t : forall σ, reachable NBUF σ -> reachable NBUF (go n t σ).
Proof.
  induction n as [|n IH]; intros σ Hr; simpl; [done|].
  destruct (move t σ) as [σ'|] eqn:Hm; [|done].
  apply IH. eapply reach_step; [done|]. by eapply move_step.
Qed.

Lemma obey_reachable NBUF c σ : reachable NBUF σ -> reachable NBUF (obey σ c).
Proof.
  intros Hr. destruct c as [t c|t n]; simpl; [|by apply go_reachable].
  destruct (bool_decide _) eqn:Ht; simpl; [|done].
  destruct (entitled _ _ _) eqn:He; [|done].
  eapply reach_step; [done|]. apply step_call; [|done]. by apply bool_decide_eq_true in Ht.
Qed.

Lemma play_reachable NBUF s : forall σ, reachable NBUF σ -> reachable NBUF (play s σ).
Proof.
  induction s as [|c s IH]; intros σ Hr; simpl; [done|].
  apply IH. by apply obey_reachable.
Qed.

(** A walk of lines 83-90 that has entered a cycle of buffers none of which
    is the block looked for or the head of the bucket goes on for ever,
    whatever the fuel. *)
Lemma walk_in_cycle (C : list ptr) me d n id st :
  (forall p, p ∈ C ->
     p <> Hd id /\ exists e, load st p = Some e /\ nomatch d n e /\ next e ∈ C) ->
  forall fuel p, p ∈ C -> bget_cached fuel me d n id p st = Diverges.
Proof.
  intros HC. induction fuel as [|fuel IH]; intros p Hp; [done|].
  destruct (HC p Hp) as (Hne & e & He & Hnm & Hnx). simpl.
  rewrite decide_False by done. rewrite (bind_rd _ _ _ _ He).
  unfold nomatch in Hnm. rewrite Hnm. by apply IH.
Qed.

(** In [race_missed] both callers are between line 106 and line 109: no
    spin lock is held and each is about to take the global lock. *)
Lemma race_missed_between_the_sections :
  held race_missed = [] /\
  about_to race_missed 8 = Some (OAcquire Global) /\
  about_to race_missed 9 = Some (OAcquire Global).
Proof. split_and!; vm_compute; reflexivity. Qed.

Lemma bind_ext {A B} (m : M A) (k k' : A -> M B) st :
  (forall a s, k a s = k' a s) -> (m ≫= k) st = (m ≫= k') st.
Proof.
  intros Hk. unfold mbind, M_bind. destruct (m st); try done.
Qed.

Lemma alone_bind {A B} (c : code A) (f : A -> code B) : forall st,
  alone (c ≫= f) st = (alone c ≫= fun a => alone (f a)) st.
Proof.
  induction c as [a|msg| |p k IH|p g k IH|k IH|b w k IH|l k IH|l k IH|b me k IH];
    intros st; try done.
  - change (alone (Get p k ≫= f)) with (e ← rd p; alone (k e ≫= f)).
    simpl alone. rewrite bind_assoc. by apply bind_ext.
  - change (alone (Put p g k ≫= f)) with (upd p g;; alone (k ≫= f)).
    simpl alone. rewrite bind_assoc. by apply bind_ext.
  - change (alone (Size k ≫= f) st)
      with (alone (k (length (bc_buf st)) (length (bc_head st)) ≫= f) st).
    rewrite IH. done.
  - change (alone (Disk b w k ≫= f)) with (virtio_disk_rw b w;; alone (k ≫= f)).
    simpl alone. rewrite bind_assoc. by apply bind_ext.
  - change (alone (Acquire l k ≫= f)) with (acquire l;; alone (k ≫= f)).
    simpl alone. rewrite bind_assoc. by apply bind_ext.
  - change (alone (Release l k ≫= f)) with (release l;; alone (k ≫= f)).
    simpl alone. rewrite bind_assoc. by apply bind_ext.
  - change (alone (AcquireSleep b me k ≫= f)) with (acquiresleep b me;; alone (k ≫= f)).
    simpl alone. rewrite bind_assoc. by apply bind_ext.
Qed.

(** Run without interruption, the code that is run step by step is the
    code of the section kernel/bio.c. *)
Lemma sim_bind {A B} (c : code A) (m : M A) (f : A -> code B) (g : A -> M B) :
  sim c m -> (forall a, sim (f a) (g a)) -> sim (c ≫= f) (m ≫= g).
Proof.
  intros Hc Hf st. rewrite alone_bind. unfold mbind at 1, M_bind at 1.
  rewrite Hc. unfold mbind, M_bind. destruct (m st); try done. apply Hf.
Qed.

Lemma sim_ret {A} (a : A) : sim (Conc.ret a) (ret a).
Proof. done. Qed.

Lemma sim_panic {A} msg : sim (@Conc.panic A msg) (panic msg).
Proof. done. Qed.

Lemma sim_rd p : sim (Conc.rd p) (rd p).
Proof. intros st. simpl. unfold mbind, M_bind. by destruct (rd p st). Qed.

Lemma sim_upd p f : sim (Conc.upd p f) (upd p f).
Proof. intros st. simpl. unfold mbind, M_bind. by destruct (upd p f st) as [[]| | | |]. Qed.

Lemma sim_nbuf : sim Conc.nbuf nbuf.
Proof. done. Qed.

Lemma sim_walk_fuel : sim Conc.walk_fuel walk_fuel.
Proof. done. Qed.

Lemma sim_acquire l : sim (Conc.acquire l) (acquire l).
Proof. done. Qed.

Lemma sim_release l : sim (Conc.release l) (release l).
Proof. done. Qed.

Lemma sim_acquiresleep b me : sim (Conc.acquiresleep b me) (acquiresleep b me).
Proof.
  intros st. simpl. unfold mbind, M_bind. by destruct (acquiresleep b me st) as [[]| | | |].
Qed.

Lemma sim_virtio_disk_rw b w : sim (Conc.virtio_disk_rw b w) (virtio_disk_rw b w).
Proof.
  intros st. simpl. unfold mbind, M_bind. by destruct (virtio_disk_rw b w st) as [[]| | | |].
Qed.

Create HintDb sim.

#[local] Hint Resolve sim_ret sim_panic sim_rd sim_upd sim_nbuf sim_walk_fuel sim_acquire
  sim_release sim_acquiresleep sim_virtio_disk_rw : sim.

Ltac sim_step :=
  match goal with
  | |- sim (_ ≫= _) (_ ≫= _) => apply sim_bind; [|intros ?]
  | |- sim (if ?c then _ else _) (if ?c then _ else _) => destruct c
  | |- sim (match ?r with Some _ => _ | None => _ end) _ => destruct r
  | |- _ => solve [auto with sim]
  end.

Lemma sim_unlink b : sim (Conc.unlink b) (unlink b).
Proof. unfold Conc.unlink, unlink. repeat sim_step. Qed.

Lemma sim_link_front b id : sim (Conc.link_front b id) (link_front b id).
Proof. unfold Conc.link_front, link_front. repeat sim_step. Qed.

Lemma sim_move_to_head b id : sim (Conc.move_to_head b id) (move_to_head b id).
Proof.
  unfold Conc.move_to_head, move_to_head.
  apply sim_bind; [apply sim_unlink|intros _; apply sim_link_front].
Qed.

#[local] Hint Resolve sim_move_to_head : sim.

Lemma sim_bget_cached fuel me d n id : forall b,
  sim (Conc.bget_cached fuel me d n id b) (bget_cached fuel me d n id b).
Proof.
  induction fuel as [|fuel IH]; intros b; [done|]. cbn -[mbind]. repeat sim_step.
Qed.

Lemma sim_bget_recycle fuel me d n id : forall b,
  sim (Conc.bget_recycle fuel me d n id b) (bget_recycle fuel me d n id b).
Proof.
  induction fuel as [|fuel IH]; intros b; [done|]. cbn -[mbind]. repeat sim_step.
Qed.

Lemma sim_bget_steal me d n id bs :
  sim (Conc.bget_steal me d n id bs) (bget_steal me d n id bs).
Proof.
  induction bs as [|i bs IH]; [done|]. cbn -[mbind]. repeat sim_step.
Qed.

#[local] Hint Resolve sim_bget_cached sim_bget_recycle sim_bget_steal : sim.

Lemma sim_bget_fast me d n : sim (Conc.bget_fast me d n) (bget_fast me d n).
Proof. unfold Conc.bget_fast, bget_fast. repeat sim_step. Qed.

Lemma sim_bget_slow me d n : sim (Conc.bget_slow me d n) (bget_slow me d n).
Proof. unfold Conc.bget_slow, bget_slow. repeat sim_step. Qed.

#[local] Hint Resolve sim_bget_fast sim_bget_slow : sim.

Lemma sim_bget me d n : sim (Conc.bget me d n) (bget me d n).
Proof. unfold Conc.bget, bget. repeat sim_step. Qed.

#[local] Hint Resolve sim_bget : sim.

Lemma sim_bread me d n : sim (Conc.bread me d n) (bread me d n).
Proof. unfold Conc.bread, bread. repeat sim_step. Qed.

Lemma sim_holdingsleep b me : sim (Conc.holdingsleep b me) (holdingsleep b me).
Proof. unfold Conc.holdingsleep, holdingsleep. repeat sim_step. Qed.

#[local] Hint Resolve sim_bread sim_holdingsleep : sim.

Lemma sim_bwrite me b : sim (Conc.bwrite me b) (bwrite me b).
Proof. unfold Conc.bwrite, bwrite. repeat sim_step. Qed.

Lemma sim_brelse me b : sim (Conc.brelse me b) (brelse me b).
Proof.
  unfold Conc.brelse, brelse, Conc.releasesleep, releasesleep. repeat sim_step.
Qed.

Lemma sim_bpin b : sim (Conc.bpin b) (bpin b).
Proof. unfold Conc.bpin, bpin. repeat sim_step. Qed.

Lemma sim_bunpin b : sim (Conc.bunpin b) (bunpin b).
Proof. unfold Conc.bunpin, bunpin. repeat sim_step. Qed.

#[local] Hint Resolve sim_bwrite sim_brelse sim_bpin sim_bunpin : sim.

Lemma alone_exec c st : alone (Conc.exec c) st = exec c st.
Proof. revert st. change (sim (Conc.exec c) (exec c)). destruct c; cbn -[mbind]; repeat sim_step. Qed.

(** ** binit *)

Lemma all_free_store st p e e' :
  all_free st -> load st p = Some e -> refcnt e' = refcnt e -> all_free (store st p e').
Proof.
  intros Hf He Hr q e'' Hq. rewrite (load_store _ _ _ _ _ He) in Hq.
  case_decide; [|by eapply Hf]. injection Hq as <-. rewrite Hr. by eapply Hf.
Qed.

(** What [push_front] does to the pointers. *)
Lemma push_front_eval b i st h eb :
  load st (Hd i) = Some h -> load st b = Some eb -> b <> Hd i ->
  next h <> b -> is_Some (load st (next h)) -> all_free st ->
  exists st', push_front b i st = Ret tt st' /\ all_free st' /\
    length (bc_buf st') = length (bc_buf st) /\
    length (bc_head st') = length (bc_head st) /\
    (forall x, nxt st' x =
       if decide (x = Hd i) then Some b
       else if decide (x = b) then Some (next h) else nxt st x) /\
    (forall y, prv st' y =
       if decide (y = next h) then Some b
       else if decide (y = b) then Some (Hd i) else prv st y).
Proof.
  intros Hh Hb Hbh Hnb H1 Hfree.
  unfold push_front. rewrite (bind_rd _ _ _ _ Hh).
  rewrite (bind_upd _ _ _ _ _ Hb).
  set (st1 := store st b (set_next (next h) eb)).
  assert (load st1 b = Some (set_next (next h) eb)) as Hb1 by (by eapply load_store_eq).
  rewrite (bind_upd _ _ _ _ _ Hb1).
  set (st2 := store st1 b _).
  assert (load st2 b = Some (set_prev (Hd i) (set_next (next h) eb))) as Hb2
      by (by eapply load_store_eq).
  rewrite (bind_upd _ _ _ _ _ Hb2).
  set (st2' := store st2 b _).
  assert (load st2' (Hd i) = Some h) as Hh2.
  { unfold st2', st2, st1. by rewrite !load_store_ne. }
  rewrite (bind_rd _ _ _ _ Hh2).
  assert (is_Some (load st2' (next h))) as [e1 H12].
  { unfold st2', st2, st1. by do 3 apply load_store_is_Some. }
  rewrite (bind_upd _ _ _ _ _ H12).
  set (st3 := store st2' (next h) (set_prev b e1)).
  assert (is_Some (load st3 (Hd i))) as [h3 Hh3].
  { unfold st3. apply load_store_is_Some. eauto. }
  rewrite (run_upd _ _ _ _ Hh3). eexists. split; [done|]. split_and!.
  - eapply all_free_store; [|done|done]. eapply all_free_store; [|done|done].
    eapply all_free_store; [|done|done]. eapply all_free_store; [|done|done].
    by eapply all_free_store.
  - unfold st3, st2', st2, st1. by rewrite !nbuf_store.
  - unfold st3, st2', st2, st1. by rewrite !nhead_store.
  - intros x. rewrite (nxt_store_set_next _ _ _ _ _ Hh3).
    case_decide; [done|]. unfold st3. rewrite (nxt_store_set_prev _ _ _ _ _ H12).
    unfold st2'. unfold nxt at 1. rewrite (load_store _ _ _ _ _ Hb2).
    case_decide as Hx.
    + subst x. rewrite decide_True by done. done.
    + rewrite decide_False by done. fold (nxt st2 x).
      unfold st2. rewrite (nxt_store_set_prev _ _ _ _ _ Hb1).
      unfold st1. rewrite (nxt_store_set_next _ _ _ _ _ Hb). by rewrite decide_False.
  - intros y. rewrite (prv_store_set_next _ _ _ _ _ Hh3).
    unfold st3. rewrite (prv_store_set_prev _ _ _ _ _ H12).
    case_decide; [done|]. unfold st2'. unfold prv at 1. rewrite (load_store _ _ _ _ _ Hb2).
    case_decide as Hy.
    + subst y. rewrite decide_True by done. done.
    + rewrite decide_False by done. fold (prv st2 y).
      unfold st2. rewrite (prv_store_set_prev _ _ _ _ _ Hb1). rewrite decide_False by done.
      unfold st1. by rewrite (prv_store_set_next _ _ _ _ _ Hb).
Qed.

Lemma binit_heads_eval NBUF :
  binit_heads nbuckets 0 (boot NBUF) = Ret tt (heads_ready NBUF).
Proof. vm_compute. reflexivity. Qed.

Lemma heads_ready_bufs NBUF : bc_buf (heads_ready NBUF) = replicate NBUF zero_buf.
Proof. vm_compute. reflexivity. Qed.

Lemma heads_ready_head NBUF k :
  (k < nbuckets)%nat ->
  load (heads_ready NBUF) (Hd k) = Some (set_next (Hd k) (set_prev (Hd k) zero_buf)).
Proof.
  intros Hk. do 13 (destruct k as [|k]; [vm_compute; reflexivity|]).
  unfold nbuckets, NBUCKETS in Hk. lia.
Qed.

Lemma heads_ready_ok NBUF :
  lists_ok (heads_ready NBUF) (fun _ => []) /\ all_free (heads_ready NBUF) /\
  length (bc_buf (heads_ready NBUF)) = NBUF.
Proof.
  split_and!.
  - split.
    + vm_compute. reflexivity.
    + intros k Hk. unfold dll, path, hop, nxt, prv.
      by rewrite (heads_ready_head NBUF k Hk).
    + intros k. constructor.
    + intros k k' i Hi. by apply elem_of_nil in Hi.
    + intros k i Hi. by apply elem_of_nil in Hi.
  - intros [|k|i] e He; [done| |].
    + destruct (decide (k < nbuckets)%nat) as [Hk|Hk].
      * rewrite (heads_ready_head NBUF k Hk) in He. by injection He as <-.
      * apply lookup_lt_Some in He.
        change (length (bc_head (heads_ready NBUF))) with nbuckets in He. lia.
    + unfold load in He. rewrite heads_ready_bufs in He.
      apply lookup_replicate in He as [-> _]. done.
  - rewrite heads_ready_bufs. apply length_replicate.
Qed.

Lemma binit_bucket_S fuel NBUF i k :
  binit_bucket (S fuel) NBUF i k =
    if decide (k < NBUF)%nat then
      push_front (Bf k) i;; binit_bucket fuel NBUF i (k + 13)%nat
    else ret tt.
Proof. reflexivity. Qed.

Lemma binit_buckets_S n NBUF i :
  binit_buckets (S n) NBUF i = (binit_bucket NBUF NBUF i i;; binit_buckets n NBUF (S i)).
Proof. reflexivity. Qed.

Lemma binit_bucket_ok NBUF i :
  (i < nbuckets)%nat ->
  forall fuel k st ls,
    lists_ok st ls -> all_free st -> length (bc_buf st) = NBUF ->
    (NBUF <= fuel + k)%nat -> (k mod 13 = i)%nat ->
    (forall b c, c ∈ ls b -> (c < k)%nat \/ (c mod 13 <> i)%nat) ->
    exists st' ls', binit_bucket fuel NBUF i k st = Ret tt st' /\
      lists_ok st' ls' /\ all_free st' /\ length (bc_buf st') = NBUF /\
      forall c, (exists b, c ∈ ls' b) <->
                ((exists b, c ∈ ls b) \/ ((k <= c < NBUF)%nat /\ (c mod 13 = i)%nat)).
Proof.
  intros Hi. induction fuel as [|fuel IH]; intros k st ls Hok Hfree Hlen Hfuel Hk Hold.
  { exists st, ls. split_and!; try done. intros c. split; [by left|].
    intros [H|[H _]]; [done|lia]. }
  rewrite binit_bucket_S. case_decide as Hlt.
  2:{ exists st, ls. split_and!; try done. intros c. split; [by left|].
      intros [H|[H _]]; [done|lia]. }
  assert (forall b, k ∉ ls b) as Hfresh.
  { intros b Hb. destruct (Hold b k Hb); [lia|done]. }
  pose proof (lo_dll _ _ Hok i Hi) as Hdl. unfold dll in Hdl.
  destruct (nxt_is_Some _ _ _ (path_first _ _ _ _ Hdl)) as (h & Hh & Hnext).
  destruct (lookup_lt_is_Some_2 (bc_buf st) k) as [eb Hb]; [lia|].
  destruct (push_front_eval (Bf k) i st h eb Hh Hb) as (st1 & Hrun & Hfree1 & Hnb & Hnh & V5 & V6).
  { done. }
  { rewrite Hnext. destruct (firstp_cases (ls i) (Hd i)) as [[_ ->]|(c & Hc & ->)]; [done|].
    intros [= ->]. by apply (Hfresh i). }
  { rewrite Hnext. destruct (prv_is_Some _ _ _ (path_first_prv _ _ _ _ Hdl)) as (e & -> & _). eauto. }
  { done. }
  rewrite Hnext in V5, V6.
  assert (lists_ok st1 (fun b => if decide (b = i) then k :: ls b else ls b)) as Hok1.
  { apply (pushed_lists_ok st _ ls k i Hok Hfresh); [lia|done|by split_and!]. }
  rewrite (bind_Ret _ _ _ _ _ Hrun).
  destruct (IH (k + 13)%nat st1 _ Hok1 Hfree1) as (st' & ls' & Hrun' & Hok' & Hfree' & Hlen' & Hset).
  { lia. }
  { lia. }
  { rewrite <- Hk. replace (k + 13)%nat with (k + 1 * 13)%nat by lia.
    apply Nat.Div0.mod_add. }
  { intros b c. case_decide.
    - intros [->|Hc]%elem_of_cons; [left; lia|]. destruct (Hold b c Hc); [left; lia|by right].
    - intros Hc. destruct (Hold b c Hc); [left; lia|by right]. }
  exists st', ls'. split_and!; try done.
  intros c. rewrite Hset. split.
  - intros [[b Hb']|[Hc1 Hc2]].
    + case_decide.
      * apply elem_of_cons in Hb' as [->|Hb']; [right; lia|left; eauto].
      * left. eauto.
    + right. lia.
  - intros [[b Hb']|[Hc1 Hc2]].
    + left. exists b. case_decide; [|done]. apply elem_of_cons. by right.
    + destruct (decide (c = k)) as [->|Hne].
      * left. exists i. rewrite decide_True by done. apply elem_of_cons. by left.
      * right. split; [|done].
        assert (c mod 13 = k mod 13)%nat as Hmod by lia.
        pose proof (Nat.div_mod_eq c 13). pose proof (Nat.div_mod_eq k 13). lia.
Qed.

Lemma binit_buckets_ok NBUF : forall n i st ls,
  (i + n = nbuckets)%nat ->
  lists_ok st ls -> all_free st -> length (bc_buf st) = NBUF ->
  (forall c, (exists b, c ∈ ls b) <-> ((c < NBUF)%nat /\ (c mod 13 < i)%nat)) ->
  exists st' ls', binit_buckets n NBUF i st = Ret tt st' /\
    lists_ok st' ls' /\ all_free st' /\ length (bc_buf st') = NBUF /\
    forall c, (exists b, c ∈ ls' b) <-> ((c < NBUF)%nat /\ (c mod 13 < i + n)%nat).
Proof.
  induction n as [|n IH]; intros i st ls Hin Hok Hfree Hlen Hset.
  { exists st, ls. split_and!; try done. intros c. rewrite Hset.
    by rewrite Nat.add_0_r. }
  assert (i < 13)%nat as Hi by (unfold nbuckets, NBUCKETS in Hin; lia).
  rewrite binit_buckets_S.
  destruct (binit_bucket_ok NBUF i Hi NBUF i st ls Hok Hfree Hlen)
    as (st1 & ls1 & Hrun1 & Hok1 & Hfree1 & Hlen1 & Hset1).
  { lia. }
  { by apply Nat.mod_small. }
  { intros b c Hc. right. assert (exists b, c ∈ ls b) as H by eauto.
    apply Hset in H. lia. }
  rewrite (bind_Ret _ _ _ _ _ Hrun1).
  destruct (IH (S i) st1 ls1) as (st' & ls' & Hrun' & Hok' & Hfree' & Hlen' & Hset'); try done.
  { lia. }
  { intros c. rewrite Hset1, Hset. split.
    - intros [[H1 H2]|[H1 H2]]; lia.
    - intros [H1 H2]. destruct (decide (c mod 13 < i)%nat); [left; lia|right].
      split; [|lia]. pose proof (Nat.Div0.mod_le c 13). lia. }
  exists st', ls'. split_and!; try done.
  intros c. rewrite Hset'. split; intros [H1 H2]; (split; [done|lia]).
Qed.

(** binit leaves every buffer on exactly one list, with no references. *)
Lemma init_inv NBUF : inv (init NBUF) /\ all_free (init NBUF).
Proof.
  destruct (heads_ready_ok NBUF) as (Hok & Hfree & Hlen).
  destruct (binit_buckets_ok NBUF nbuckets 0 (heads_ready NBUF) (fun _ => []))
    as (st' & ls' & Hrun & Hok' & Hfree' & Hlen' & Hset); try done.
  { intros c. split; [intros [b Hb]; by apply elem_of_nil in Hb|lia]. }
  assert (init NBUF = st') as ->.
  { unfold init, binit.
    change ((nbuf ≫= ?k) (boot NBUF)) with (k (length (bc_buf (boot NBUF))) (boot NBUF)).
    cbv beta. rewrite (bind_Ret _ _ _ _ _ (binit_heads_eval NBUF)).
    assert (length (bc_buf (boot NBUF)) = NBUF) as -> by apply length_replicate.
    fold nbuckets. by rewrite Hrun. }
  split; [|done]. exists ls'. split; [done| |].
  - intros c Hc. apply Hset. rewrite Hlen' in Hc. split; [done|].
    apply Nat.mod_upper_bound. done.
  - intros c e He Hr. by destruct Hr, (Hfree' _ _ He).
Qed.

Lemma path_unique st id : forall l l' p,
  path st p l (Hd id) -> path st p l' (Hd id) -> l = l'.
Proof.
  induction l as [|i l IH]; intros [|j l'] p; simpl; unfold hop; try done.
  - intros [H1 _] [[H2 _] _]. congruence.
  - intros [[H1 _] _] [H2 _]. congruence.
  - intros [[H1 _] P1] [[H2 _] P2]. assert (i = j) as -> by congruence.
    f_equal. by eapply IH.
Qed.

Lemma on_list_inv st ls k i :
  lists_ok st ls -> on_list st k i -> (k < nbuckets)%nat /\ i ∈ ls k.
Proof.
  intros Hok (l & Hdl & Hi).
  assert (k < nbuckets)%nat as Hk.
  { destruct (nxt_is_Some _ _ _ (path_first _ _ _ _ Hdl)) as (h & Hh & _).
    apply lookup_lt_Some in Hh. by rewrite (lo_heads _ _ Hok) in Hh. }
  split; [done|]. by rewrite (path_unique _ _ _ _ _ (lo_dll _ _ Hok k Hk) Hdl).
Qed.

(** ** The cache used by one caller at a time *)

Lemma first_match_unique st ls : inv_at st ls -> first_match st ls -> unique_live st.
Proof.
  intros Hinv Hfm i j e e' He He' Hr Hr' Hd' Hb.
  destruct (decide (i = j)) as [|Hne]; [done|]. exfalso.
  pose proof (ia_bucket _ _ Hinv i e He Hr) as Hi.
  pose proof (ia_bucket _ _ Hinv j e' He' Hr') as Hj.
  rewrite <- Hb in Hj.
  destruct (list_elem_of_split _ _ Hi) as (l1 & l2 & Hls).
  rewrite Hls in Hj. apply elem_of_app in Hj as [Hj|Hj].
  - by eapply (Hfm _ l1 i l2 e j e').
  - apply elem_of_cons in Hj as [->|Hj]; [done|].
    destruct (list_elem_of_split _ _ Hj) as (l3 & l4 & ->).
    eapply (Hfm (bucket_of (blockno e)) (l1 ++ i :: l3) j l4 e' i e); try done.
    + by rewrite Hls, <- app_assoc.
    + apply elem_of_app. right. apply elem_of_cons. by left.
Qed.

Lemma NoDup_split_unique (c : nat) (l1 l2 l1' l2' : list nat) :
  NoDup (l1 ++ c :: l2) -> l1 ++ c :: l2 = l1' ++ c :: l2' -> l1 = l1'.
Proof.
  revert l1'. induction l1 as [|a l1 IH]; intros [|a' l1'] Hnd Heq; simpl in *; try done.
  - injection Heq as <- ->. apply NoDup_cons in Hnd as [Hc _]. destruct Hc.
    apply elem_of_app. right. apply elem_of_cons. by left.
  - injection Heq as -> <-. apply NoDup_cons in Hnd as [Hc _]. destruct Hc.
    apply elem_of_app. right. apply elem_of_cons. by left.
  - injection Heq as <- Heq. apply NoDup_cons in Hnd as [_ Hnd]. f_equal. by apply IH.
Qed.

Lemma walk_split st id skip : forall l p k b,
  path st p l (Hd id) -> walk st next id skip k (firstp l (Hd id)) b ->
  exists l1 l2, l = l1 ++ l2 /\ b = firstp l2 (Hd id) /\
    forall j, j ∈ l1 -> exists e, load st (Bf j) = Some e /\ skip e.
Proof.
  induction l as [|c l IH]; intros p k b Hp Hw; simpl in *.
  - exists [], []. inversion Hw; subst; [|done]. split_and!; try done.
    intros j Hj. by apply elem_of_nil in Hj.
  - destruct Hp as [_ Hp]. inversion Hw as [|k' p' e q Hne He Hs Hw']; subst.
    + exists [], (c :: l). split_and!; try done. intros j Hj. by apply elem_of_nil in Hj.
    + destruct (nxt_is_Some _ _ _ (path_first _ _ _ _ Hp)) as (e' & He' & Hnx).
      same_load. rewrite Hnx in Hw'.
      destruct (IH _ _ _ Hp Hw') as (l1 & l2 & -> & -> & Hall).
      exists (c :: l1), l2. split_and!; try done.
      intros j [->|Hj]%elem_of_cons; eauto.
Qed.

(** After the walk of lines 83-90 has come back to the head, no buffer on
    the list of the target bucket has the requested identity. *)
Lemma scan_nomatch st ls d n h k i e :
  lists_ok st ls -> load st (Hd (bucket_of n)) = Some h ->
  walk st next (bucket_of n) (nomatch d n) k (next h) (Hd (bucket_of n)) ->
  i ∈ ls (bucket_of n) -> load st (Bf i) = Some e -> nomatch d n e.
Proof.
  intros Hok Hh Hw Hi He.
  pose proof (lo_dll _ _ Hok _ (bucket_of_lt n)) as Hdl. unfold dll in Hdl.
  destruct (nxt_is_Some _ _ _ (path_first _ _ _ _ Hdl)) as (h' & Hh' & Hnx).
  same_load. rewrite Hnx in Hw.
  destruct (walk_split _ _ _ _ _ _ _ Hdl Hw) as (l1 & l2 & Hls & Hb & Hall).
  destruct l2 as [|c l2]; [|done]. rewrite app_nil_r in Hls. subst l1.
  destruct (Hall i Hi) as (e' & He' & Hs). by same_load.
Qed.

Lemma missed_nomatch st ls d n i e :
  lists_ok st ls -> missed st d n -> i ∈ ls (bucket_of n) ->
  load st (Bf i) = Some e -> nomatch d n e.
Proof. intros Hok (h & k & k' & Hh & _ & Hw & _). by eapply scan_nomatch. Qed.

Lemma nomatch_differs d n e : nomatch d n e -> dev e = d -> blockno e = n -> False.
Proof. unfold nomatch. intros H <- <-. by rewrite !Z.eqb_refl in H. Qed.

Lemma filter_split_inv (P : nat -> Prop) `{forall x, Decision (P x)} (l : list nat) :
  forall l1' i l2', filter P l = l1' ++ i :: l2' ->
  exists l1 l2, l = l1 ++ i :: l2 /\ l1' = filter P l1.
Proof.
  induction l as [|a l IH]; intros l1' i l2' Heq.
  - by destruct l1'.
  - destruct (decide (P a)) as [Ha|Ha].
    + rewrite filter_cons_True in Heq by done. destruct l1' as [|a' l1']; simpl in Heq.
      * injection Heq as -> Heq. by exists [], l.
      * injection Heq as -> Heq. destruct (IH _ _ _ Heq) as (l1 & l2 & -> & ->).
        exists (a' :: l1), l2. split; [done|]. by rewrite filter_cons_True.
    + rewrite filter_cons_False in Heq by done.
      destruct (IH _ _ _ Heq) as (l1 & l2 & -> & ->).
      exists (a :: l1), l2. split; [done|]. by rewrite filter_cons_False.
Qed.

(** [first_match] after buffer [c] has been moved to the head of bucket
    [id]. *)
Lemma first_match_moved st st' ls c id :
  lists_ok st ls -> same_payload st st' ->
  (forall k l1 i l2 e j e',
     ls k = l1 ++ i :: l2 -> j ∈ l1 -> i <> c -> j <> c ->
     load st (Bf i) = Some e -> load st (Bf j) = Some e' ->
     refcnt e <> 0 -> dev e' = dev e -> blockno e' = blockno e -> False) ->
  (forall i e ec, i ∈ ls id -> i <> c ->
     load st (Bf i) = Some e -> load st (Bf c) = Some ec ->
     refcnt e <> 0 -> dev ec = dev e -> blockno ec = blockno e -> False) ->
  first_match st' (moved ls c id).
Proof.
  intros Hok Hsp HA HB k l1' i l2' e j e' Hls Hj He He' Hr Hd' Hb.
  destruct (fmap_payload_eq _ _ _ (eq_sym (sp_load _ _ Hsp (Bf i))) He) as (e0 & He0 & Hp).
  destruct (fmap_payload_eq _ _ _ (eq_sym (sp_load _ _ Hsp (Bf j))) He') as (e0' & He0' & Hp').
  apply payload_eq_fields in Hp as (_ & Hpd & Hpb & _ & Hpr & _).
  apply payload_eq_fields in Hp' as (_ & Hpd' & Hpb' & _ & _ & _).
  unfold moved in Hls. case_decide as Hk.
  - subst k. simpl in Hls. destruct l1' as [|a l1']; simpl in Hls.
    { by apply elem_of_nil in Hj. }
    injection Hls as <- Hls.
    assert (i ∈ filter (fun x => x <> c) (ls id)) as Hi.
    { rewrite Hls. apply elem_of_app. right. apply elem_of_cons. by left. }
    apply list_elem_of_filter in Hi as [Hic Hi].
    apply elem_of_cons in Hj as [->|Hj].
    + eapply (HB i e0 e0'); try done; congruence.
    + destruct (filter_split_inv _ _ _ _ _ Hls) as (l1 & l2 & Hl & ->).
      apply list_elem_of_filter in Hj as [Hjc Hj].
      eapply (HA id l1 i l2 e0 j e0'); try done; congruence.
  - simpl in Hls.
    assert (i ∈ filter (fun x => x <> c) (ls k)) as Hi.
    { rewrite Hls. apply elem_of_app. right. apply elem_of_cons. by left. }
    apply list_elem_of_filter in Hi as [Hic Hi].
    destruct (filter_split_inv _ _ _ _ _ Hls) as (l1 & l2 & Hl & ->).
    apply list_elem_of_filter in Hj as [Hjc Hj].
    eapply (HA k l1 i l2 e0 j e0'); try done; congruence.
Qed.

Lemma first_match_same_mem st st' ls :
  (forall q, load st' q = load st q) -> first_match st ls -> first_match st' ls.
Proof.
  intros Hl Hfm k l1 i l2 e j e' Hls Hj He He'. rewrite Hl in He, He'. by eapply Hfm.
Qed.

Lemma inv2_same_mem st st' ls :
  (forall q, load st' q = load st q) ->
  length (bc_buf st') = length (bc_buf st) ->
  length (bc_head st') = length (bc_head st) ->
  inv2_at st ls -> inv2_at st' ls.
Proof.
  intros Hl Hnb Hnh [Hinv Hfm]. split; [by eapply inv_same_mem|by eapply first_match_same_mem].
Qed.

Lemma inv2_emit st ls ev : inv2_at st ls -> inv2_at (emit ev st) ls.
Proof. apply inv2_same_mem; [|done|done]. intros q. apply load_emit. Qed.

Lemma split_not_in (ls : nat -> list nat) k l1 i l2 st j :
  lists_ok st ls -> ls k = l1 ++ i :: l2 -> j ∈ l1 -> j <> i.
Proof.
  intros Hok Hls Hj ->. pose proof (lo_nodup _ _ Hok k) as Hnd. rewrite Hls in Hnd.
  apply NoDup_app in Hnd as (_ & Hnd & _). apply (Hnd i Hj). apply elem_of_cons. by left.
Qed.

(** A change of buffer [c] that keeps its pointers and its identity. *)
Lemma first_match_touch st st' ls c e e' :
  lists_ok st ls -> first_match st ls ->
  load st (Bf c) = Some e -> load st' (Bf c) = Some e' ->
  (forall q, q <> Bf c -> load st' q = load st q) ->
  dev e' = dev e -> blockno e' = blockno e ->
  (refcnt e' <> 0 ->
     refcnt e <> 0 \/
     forall k l1 l2 j ej, ls k = l1 ++ c :: l2 -> j ∈ l1 ->
       load st (Bf j) = Some ej -> dev ej = dev e -> blockno ej = blockno e -> False) ->
  first_match st' ls.
Proof.
  intros Hok Hfm He He' Hfr Hd' Hb Hr k l1 i l2 ei j ej Hls Hj Hi Hjl Hri Hdj Hbj.
  pose proof (split_not_in _ _ _ _ _ _ _ Hok Hls Hj) as Hne.
  destruct (decide (i = c)) as [->|Hic].
  - same_load. rewrite Hfr in Hjl by congruence.
    destruct (Hr Hri) as [Hr0|Hfirst].
    + eapply (Hfm k l1 c l2 e j ej); try done; congruence.
    + eapply (Hfirst k l1 l2 j ej); try done; congruence.
  - rewrite Hfr in Hi by congruence.
    destruct (decide (j = c)) as [->|Hjc].
    + same_load. eapply (Hfm k l1 i l2 ei c e); try done; congruence.
    + rewrite Hfr in Hjl by congruence. by eapply (Hfm k l1 i l2 ei j ej).
Qed.

Lemma inv2_store st ls i e e' :
  inv2_at st ls -> load st (Bf i) = Some e ->
  links e' = links e -> blockno e' = blockno e -> dev e' = dev e ->
  (refcnt e' <> 0 -> refcnt e <> 0) ->
  inv2_at (store st (Bf i) e') ls.
Proof.
  intros [Hinv Hfm] He Hl Hb Hd' Hr. split.
  - apply (inv_store _ _ _ e); try done. intros H. left. by apply Hr.
  - apply (first_match_touch st _ ls i e e'); try done.
    + apply (ia_ok _ _ Hinv).
    + by erewrite load_store_eq.
    + intros q Hq. by rewrite load_store_ne.
    + intros H. left. by apply Hr.
Qed.

Lemma first_match_bufs st st' ls :
  (forall i, load st' (Bf i) = load st (Bf i)) -> first_match st ls -> first_match st' ls.
Proof.
  intros Hl Hfm k l1 i l2 e j e' Hls Hj He He'. rewrite Hl in He, He'. by eapply Hfm.
Qed.

Lemma inv2_store_same st ls b e e' :
  inv2_at st ls -> load st b = Some e ->
  links e' = links e -> blockno e' = blockno e -> dev e' = dev e -> refcnt e' = refcnt e ->
  inv2_at (store st b e') ls.
Proof.
  intros Hinv2 He Hl Hb Hd' Hr. destruct b as [|k|i]; [done| |].
  - destruct Hinv2 as [Hinv Hfm]. split; [by apply (inv_store_same _ _ _ e)|].
    eapply first_match_bufs; [|done]. intros i. by rewrite load_store_ne.
  - apply (inv2_store _ _ _ e); try done. congruence.
Qed.

Lemma inv2_granted st ls b e me :
  inv2_at st ls -> load st b = Some e -> inv2_at (store st b (granted me e)) ls.
Proof. intros Hinv He. by apply (inv2_store_same _ _ _ e). Qed.

(** The walk of lines 83-90 stops at the first buffer of the wanted identity
    on the list. *)
Lemma hit_is_first st ls d n h k c e0 :
  lists_ok st ls ->
  load st (Hd (bucket_of n)) = Some h ->
  walk st next (bucket_of n) (nomatch d n) k (next h) (Bf c) ->
  load st (Bf c) = Some e0 -> dev e0 = d -> blockno e0 = n ->
  forall k' l1 l2 j ej, ls k' = l1 ++ c :: l2 -> j ∈ l1 ->
    load st (Bf j) = Some ej -> dev ej = dev e0 -> blockno ej = blockno e0 -> False.
Proof.
  intros Hok Hh Hw He0 Hd0 Hn0 k' l1 l2 j ej Hls Hj Hej Hdj Hbj.
  pose proof (lo_dll _ _ Hok _ (bucket_of_lt n)) as Hdl. unfold dll in Hdl.
  destruct (nxt_is_Some _ _ _ (path_first _ _ _ _ Hdl)) as (h' & Hh' & Hnx).
  same_load. rewrite Hnx in Hw.
  destruct (walk_split _ _ _ _ _ _ _ Hdl Hw) as (l1w & l2w & Hlw & Hb & Hall).
  destruct l2w as [|c' l2w]; [done|]. simpl in Hb. injection Hb as <-.
  assert (k' = bucket_of n) as ->.
  { apply (lo_disj _ _ Hok k' (bucket_of n) c).
    - rewrite Hls. apply elem_of_app. right. apply elem_of_cons. by left.
    - rewrite Hlw. apply elem_of_app. right. apply elem_of_cons. by left. }
  assert (l1 = l1w) as ->.
  { apply (NoDup_split_unique c l1 l2 l1w l2w); [|congruence].
    rewrite <- Hls. apply (lo_nodup _ _ Hok). }
  destruct (Hall j Hj) as (e' & He' & Hs). same_load.
  apply (nomatch_differs _ _ _ Hs); congruence.
Qed.

(** A buffer of the target bucket takes the identity that the walk has not
    found there. *)
Lemma first_match_relabel st st' ls c d n ec :
  lists_ok st ls -> first_match st ls ->
  (forall j e, j ∈ ls (bucket_of n) -> load st (Bf j) = Some e -> nomatch d n e) ->
  c ∈ ls (bucket_of n) ->
  load st' (Bf c) = Some ec -> dev ec = d -> blockno ec = n ->
  (forall q, q <> Bf c -> load st' q = load st q) ->
  first_match st' ls.
Proof.
  intros Hok Hfm Hmiss Hc Hec Hd0 Hn0 Hfr k l1 i l2 ei j ej Hls Hj Hi Hjl Hri Hdj Hbj.
  pose proof (split_not_in _ _ _ _ _ _ _ Hok Hls Hj) as Hne.
  assert (i ∈ ls k) as Hik.
  { rewrite Hls. apply elem_of_app. right. apply elem_of_cons. by left. }
  assert (j ∈ ls k) as Hjk.
  { rewrite Hls. apply elem_of_app. by left. }
  destruct (decide (i = c)) as [->|Hic].
  - same_load. rewrite Hfr in Hjl by congruence.
    assert (k = bucket_of n) as -> by apply (lo_disj _ _ Hok k (bucket_of n) c Hik Hc).
    apply (nomatch_differs d n ej); [|congruence|congruence].
    by eapply Hmiss.
  - rewrite Hfr in Hi by congruence.
    destruct (decide (j = c)) as [->|Hjc].
    + same_load.
      assert (k = bucket_of n) as -> by apply (lo_disj _ _ Hok k (bucket_of n) c Hjk Hc).
      apply (nomatch_differs d n ei); [|congruence|congruence].
      by eapply Hmiss.
    + rewrite Hfr in Hjl by congruence. by eapply (Hfm k l1 i l2 ei j ej).
Qed.

Lemma inv2_fast_released st ls d n b s :
  inv2_at st ls -> fast_released st d n b s -> inv2_at s ls.
Proof.
  intros [Hinv Hfm] Hrel. split; [by eapply inv_fast_released|].
  destruct (fast_released_on_list _ _ _ _ _ _ (ia_ok _ _ Hinv) Hrel) as (i & Hbi & Hi).
  destruct Hrel as [h k b e0 Hh Hk Hw Hb He0 Hd0 Hn0|h k k' b e0 Hh Hk Hw Hk' Hw' Hb He0 Hr];
    subst b.
  - unfold hit_state. eapply first_match_bufs; [intros c; apply load_emit|].
    eapply first_match_bufs in Hfm; [|intros c; apply (load_emit st)].
    apply (first_match_touch _ _ ls i e0 (bump e0) (ia_ok _ _ (inv_emit _ _ _ Hinv)) Hfm);
      [by rewrite load_emit|by erewrite load_store_eq by (by rewrite load_emit)
      |intros q Hq; by rewrite load_store_ne|done|done|].
    intros _. right. intros k1 l1 l2 j ej Hls Hj Hej. rewrite load_emit in Hej.
    by eapply (hit_is_first st ls d n h k i e0 (ia_ok _ _ Hinv)).
  - unfold claim_state. eapply first_match_bufs; [intros c; apply load_emit|].
    apply (first_match_relabel st _ ls i d n (claimed d n e0) (ia_ok _ _ Hinv) Hfm);
      [intros j e; apply (scan_nomatch st ls d n h k j e (ia_ok _ _ Hinv) Hh Hw)|done
      |by erewrite load_store_eq by (by rewrite load_emit)|done|done|].
    intros q Hq. by rewrite load_store_ne, load_emit.
Qed.

Lemma inv2_slow_released st ls d n b s :
  inv2_at st ls -> missed st d n -> slow_released (mid st (bucket_of n)) d n b s ->
  exists ls', inv2_at s ls'.
Proof.
  intros [Hinv Hfm] Hmiss Hrel.
  assert (inv_at (mid st (bucket_of n)) ls) as Hinvm by (by do 2 apply inv_emit).
  destruct (inv_slow_released _ _ _ _ _ _ Hinvm Hrel) as (i & Hbi & Hinv').
  exists (moved ls i (bucket_of n)). split; [done|].
  destruct Hrel as [js c e0 st2 Hjs Hc He0 Hr Hne Hmv]. injection Hbi as <-.
  set (R := relabelled (slow_entry (mid st (bucket_of n)) (bucket_of n)) js (Bf c) e0 d n) in *.
  unfold mid in He0. rewrite !load_emit in He0.
  assert (forall q, load R q = if decide (Bf c = q) then Some (claimed d n e0) else load st q) as HR.
  { intros q. unfold R, relabelled. erewrite load_store.
    - case_decide; [done|]. unfold slow_entry, mid.
      by rewrite load_emit, load_probing, !load_emit.
    - unfold slow_entry, mid. by rewrite load_emit, load_probing, !load_emit. }
  assert (length (bc_buf R) = length (bc_buf st) /\ length (bc_head R) = length (bc_head st))
    as [HnbR HnhR].
  { unfold R, relabelled. by rewrite nbuf_store, nhead_store. }
  pose proof (ia_ok _ _ Hinv) as Hok.
  assert (lists_ok R ls) as HokR.
  { eapply lists_ok_same_links; try done. intros q. rewrite HR.
    case_decide as Hq; [|done]. subst q. by rewrite He0. }
  destruct (move_to_head_rep R ls c (bucket_of n) HokR) as (st3 & Hrun & Hsp & _).
  { intros x Hx. rewrite HnbR in Hx. by apply (ia_cov _ _ Hinv). }
  { rewrite HnbR. by eapply lookup_lt_Some. }
  { apply bucket_of_lt. }
  rewrite Hmv in Hrun. injection Hrun as <-.
  unfold stolen. do 3 (eapply first_match_bufs; [intros x; apply load_emit|]).
  apply (first_match_moved R st2 ls c (bucket_of n) HokR Hsp).
  - intros k l1 i l2 e j e' Hls Hj Hic Hjc Hi Hjl. rewrite HR in Hi, Hjl.
    rewrite decide_False in Hi by congruence. rewrite decide_False in Hjl by congruence.
    by eapply (Hfm k l1 i l2 e j e').
  - intros i e ec Hi Hic Hil Hcl Hri Hdi Hbi. rewrite HR in Hil, Hcl.
    rewrite decide_False in Hil by congruence. rewrite decide_True in Hcl by done.
    injection Hcl as <-. apply (nomatch_differs d n e); [|done|done].
    apply (missed_nomatch st ls d n i e Hok Hmiss Hi Hil).
Qed.

Lemma inv2_brelse st ls me i e st' :
  inv2_at st ls -> load st (Bf i) = Some e -> refcnt e <> 0 ->
  brelse me (Bf i) st = Ret tt st' -> inv2 st'.
Proof.
  intros [Hinv Hfm] He Hr Hrun.
  destruct (holding e me) eqn:Hh; [|by rewrite (brelse_unheld _ _ _ _ He Hh) in Hrun].
  rewrite (brelse_held _ _ _ _ He Hh) in Hrun.
  assert (inv2_at (brelse_dropped st (Bf i) e) ls) as [HD HfD].
  { unfold brelse_dropped. apply (inv2_store _ _ _ (unlocked e)); [| |done|done|done|done].
    - apply inv2_emit. by apply (inv2_store_same _ _ _ e).
    - rewrite load_emit. by erewrite load_store_eq. }
  destruct (wrap32 (refcnt e - 1) =? 0).
  - apply bind_Ret_inv in Hrun as ([] & sm & Hmv & Hrel). injection Hrel as <-.
    exists (moved ls i (bucket_of (blockno e))).
    assert (i < length (bc_buf (brelse_dropped st (Bf i) e)))%nat as Hlt.
    { unfold brelse_dropped. rewrite nbuf_store.
      change (length (bc_buf (emit ?ev ?s))) with (length (bc_buf s)).
      rewrite nbuf_store. by eapply lookup_lt_Some. }
    apply inv2_emit. split.
    + apply (inv_move (brelse_dropped st (Bf i) e) ls i); try done.
      * apply (ia_ok _ _ HD).
      * apply (ia_cov _ _ HD).
      * intros c e1 _. apply (ia_bucket _ _ HD).
      * intros e1 He1 _. rewrite (load_brelse_dropped _ _ _ _ He) in He1.
        rewrite decide_True in He1 by done. by injection He1 as <-.
      * apply bucket_of_lt.
    + destruct (move_to_head_rep _ ls i (bucket_of (blockno e)) (ia_ok _ _ HD) (ia_cov _ _ HD)
                  Hlt (bucket_of_lt _)) as (st3 & Hrun & Hsp & _).
      rewrite Hmv in Hrun. injection Hrun as <-.
      apply (first_match_moved _ sm ls i _ (ia_ok _ _ HD) Hsp).
      * intros k l1 c l2 ec j ej Hls Hj _ _. by apply (HfD k l1 c l2 ec j ej).
      * intros c ec ei Hc Hci Hcl Hil Hrc Hdc Hbc.
        rewrite (load_brelse_dropped _ _ _ _ He) in Hcl.
        rewrite (load_brelse_dropped _ _ _ _ He) in Hil.
        rewrite decide_False in Hcl by congruence. rewrite decide_True in Hil by done.
        injection Hil as <-. apply Hci.
        apply (first_match_unique _ _ Hinv Hfm c i ec e); try done.
  - injection Hrun as <-. exists ls. by apply inv2_emit.
Qed.

Lemma inv2_released st ls d n b s :
  inv2_at st ls -> released st d n b s -> exists ls', inv2_at s ls'.
Proof.
  intros Hinv [Hrel|[Hmiss Hrel]].
  - exists ls. by eapply inv2_fast_released.
  - by eapply inv2_slow_released.
Qed.

Lemma serial_step_inv2 σ σ' : inv2 (cache σ) -> serial_step σ σ' -> inv2 (cache σ').
Proof.
  intros [ls Hinv] Hstep.
  destruct Hstep as [σ me d n b st' Hrun|σ me d n b st' Hrun
                    |σ me b st' Hin Hrun|σ me b st' Hh Hrun|σ me b bytes st' Hh Hrun
                    |σ me b st' Hrun|σ me i e st' He Hr Hrun|σ i e st' He Hr Hrun
                    |σ i e st' He Hr Hrun]; simpl.
  - pose proof (bget_spec me d n (cache σ)) as H. eapply wp_Ret in H; [|done].
    destruct H as (s & e1 & Hrel & He1 & _ & ->).
    destruct (inv2_released _ _ _ _ _ _ Hinv Hrel) as (ls' & Hinv').
    exists ls'. by apply inv2_granted.
  - pose proof (bget_spec me d n (cache σ)) as H. eapply wp_Sleeps in H; [|done].
    destruct H as (e1 & Hrel & _). by eapply inv2_released.
  - unfold acquiresleep in Hrun. destruct (load (cache σ) b) as [e|] eqn:He; [|done].
    destruct (locked (lock e) =? 0); [|done]. injection Hrun as <-.
    exists ls. by apply inv2_granted.
  - unfold fill in Hrun. apply bind_Ret_inv in Hrun as ([] & s1 & Hd1 & Hu).
    unfold virtio_disk_rw in Hd1. destruct (load (cache σ) b) as [e|] eqn:He; [|done].
    injection Hd1 as <-. unfold upd in Hu. rewrite load_emit in Hu.
    erewrite load_store_eq in Hu by done. injection Hu as <-.
    exists ls.
    apply (inv2_store_same _ _ _
             (set_data (disk_lookup (bc_disk (cache σ)) (dev e) (blockno e)) e));
      [| |done|done|done|done].
    + apply inv2_emit. by apply (inv2_store_same _ _ _ e).
    + rewrite load_emit. by erewrite load_store_eq.
  - unfold upd in Hrun. destruct (load (cache σ) b) as [e|] eqn:He; [|done].
    injection Hrun as <-. exists ls. by apply (inv2_store_same _ _ _ e).
  - unfold bwrite in Hrun. apply bind_Ret_inv in Hrun as (held & s1 & Hh & Hw).
    unfold holdingsleep in Hh. apply bind_Ret_inv in Hh as (e & s0 & Hrd & Hret).
    unfold rd in Hrd. destruct (load (cache σ) b) as [e'|] eqn:He; [|done].
    injection Hrd as <- <-. injection Hret as <- <-.
    destruct (negb _); [done|]. unfold virtio_disk_rw in Hw. rewrite He in Hw.
    injection Hw as <-. exists ls. eapply inv2_same_mem; [| | |done]; done.
  - by eapply inv2_brelse.
  - rewrite (bpin_eval _ _ _ He) in Hrun. apply Ret_inj in Hrun as [_ <-]. exists ls.
    apply inv2_emit. apply (inv2_store _ _ _ e); [by apply inv2_emit|done..].
  - rewrite (bunpin_eval _ _ _ He) in Hrun. apply Ret_inj in Hrun as [_ <-]. exists ls.
    apply inv2_emit. apply (inv2_store _ _ _ e); [by apply inv2_emit|done..].
Qed.

Lemma init_inv2 NBUF : inv2 (init NBUF).
Proof.
  destruct (init_inv NBUF) as [[ls Hinv] Hfree]. exists ls. split; [done|].
  intros k l1 i l2 e j e' _ _ He _ Hr. by destruct Hr, (Hfree _ _ He).
Qed.

Lemma serial_inv2 NBUF σ : serial NBUF σ -> inv2 (cache σ).
Proof.
  induction 1 as [|σ σ' _ IH Hstep]; [apply init_inv2|]. by eapply serial_step_inv2.
Qed.

(** ** The calls end *)

Lemma safe_bind {A B} (m : M A) (k : A -> M B) st :
  safe (m st) -> (forall a s, m st = Ret a s -> safe (k a s)) -> safe ((m ≫= k) st).
Proof. unfold mbind, M_bind. destruct (m st); simpl; eauto. Qed.

Lemma safe_acquiresleep b me st : is_Some (load st b) -> safe (acquiresleep b me st).
Proof. intros [e He]. unfold acquiresleep. rewrite He. by destruct (_ =? _). Qed.

Lemma lastp_snoc p l c : lastp p (l ++ [c]) = Bf c.
Proof. revert p. induction l as [|a l IH]; intros p; simpl; [done|apply IH]. Qed.

Ltac upd_next :=
  first
    [ erewrite bind_upd by (rewrite ?load_emit; eassumption)
    | erewrite bind_upd
        by (erewrite load_store_eq; [reflexivity|rewrite ?load_emit; eassumption]) ];
  rewrite ?store_store.

Lemma bget_cached_safe me d n id : forall l p st fuel,
  path st p l (Hd id) -> (length l < fuel)%nat ->
  safe (bget_cached fuel me d n id (firstp l (Hd id)) st).
Proof.
  induction l as [|c l IH]; intros p st [|fuel] Hp Hf; simpl in Hf; try lia.
  - simpl. by rewrite ?decide_True.
  - destruct Hp as [_ Hp].
    destruct (nxt_is_Some _ _ _ (path_first _ _ _ _ Hp)) as (e & He & Hnx).
    simpl. rewrite ?decide_False by done. rewrite (bind_rd _ _ _ _ He).
    destruct (_ && _)%bool.
    + rewrite (bind_upd _ _ _ _ _ He), bind_release.
      apply safe_bind; [|done]. apply safe_acquiresleep.
      rewrite load_emit. erewrite load_store_eq by done. eauto.
    + rewrite Hnx. apply (IH (Bf c)); [done|lia].
Qed.

Lemma bget_recycle_safe me d n id : forall l q st fuel,
  path st (Hd id) l q -> (length l < fuel)%nat ->
  safe (bget_recycle fuel me d n id (lastp (Hd id) l) st).
Proof.
  induction l as [|c l IH] using rev_ind; intros q st [|fuel] Hp Hf;
    rewrite ?length_app in Hf; simpl in Hf; try lia.
  - simpl. by rewrite ?decide_True.
  - apply path_app in Hp as [Hp _].
    destruct (prv_is_Some _ _ _ (path_last _ _ _ _ Hp)) as (e & He & Hpv).
    rewrite lastp_snoc. simpl. rewrite ?decide_False by done.
    rewrite (bind_rd _ _ _ _ He). destruct (_ =? _).
    + do 4 upd_next.
      rewrite bind_release. apply safe_bind; [|done]. apply safe_acquiresleep.
      rewrite load_emit. erewrite load_store_eq by done. eauto.
    + rewrite Hpv. apply (IH (Bf c)); [done|lia].
Qed.

Lemma lists_ok_emit st ls ev : lists_ok st ls -> lists_ok (emit ev st) ls.
Proof. intros H. eapply lists_ok_same_links; [done| |done|done]. intros q. by rewrite load_emit. Qed.

Lemma bget_steal_safe me d n id ls : forall bs st,
  lists_ok st ls -> covers st ls -> (id < nbuckets)%nat ->
  (forall i, i ∈ bs -> (i < length (bc_buf st))%nat) ->
  safe (bget_steal me d n id bs st).
Proof.
  induction bs as [|i bs IH]; intros st Hok Hcov Hid Hbs; [done|].
  assert (i < length (bc_buf st))%nat as Hi by (apply Hbs, elem_of_cons; by left).
  assert (forall j, j ∈ bs -> (j < length (bc_buf st))%nat) as Hbs'
      by (intros j Hj; apply Hbs, elem_of_cons; by right).
  destruct (lookup_lt_is_Some_2 (bc_buf st) i Hi) as [e He].
  change (bc_buf st !! i = Some e) with (load st (Bf i) = Some e) in He.
  simpl. rewrite (bind_rd _ _ _ _ He). case_decide; [by apply IH|].
  rewrite bind_acquire. erewrite bind_rd by (by rewrite load_emit).
  destruct (_ =? _).
  - do 4 upd_next.
    match goal with |- safe ((move_to_head _ _ ≫= _) ?s) => set (R := s) end.
    assert (forall q, load R q = if decide (Bf i = q)
                                 then Some (set_refcnt 1 (set_valid 0 (set_blockno n (set_dev d e))))
                                 else load st q) as HR.
    { intros q. unfold R. erewrite load_store by (by rewrite load_emit).
      case_decide; [done|]. by rewrite load_emit. }
    assert (lists_ok R ls) as HokR.
    { eapply lists_ok_same_links; [done| |unfold R; by rewrite nbuf_store
                                   |unfold R; by rewrite nhead_store].
      intros q. rewrite HR. case_decide as Hq; [|done]. subst q. by rewrite He. }
    destruct (move_to_head_rep R ls i id HokR) as (st2 & Hrun & Hsp & _).
    { intros x Hx. unfold R in Hx. rewrite nbuf_store in Hx. by apply Hcov. }
    { unfold R. by rewrite nbuf_store. }
    { done. }
    rewrite (bind_Ret _ _ _ _ _ Hrun). rewrite !bind_release.
    apply safe_bind; [|done]. apply safe_acquiresleep. rewrite !load_emit.
    destruct (same_payload_load _ _ (Bf i) _ Hsp (eq_trans (HR (Bf i)) (decide_True _ _ eq_refl)))
      as (e2 & -> & _).
    eauto.
  - rewrite bind_release. apply IH; try done.
    + by do 2 apply lists_ok_emit.
Qed.

Lemma bucket_length st ls k : lists_ok st ls -> (length (ls k) <= length (bc_buf st))%nat.
Proof.
  intros Hok. transitivity (length (seq 0 (length (bc_buf st)))); [|by rewrite length_seq].
  apply submseteq_length, NoDup_submseteq; [apply (lo_nodup _ _ Hok)|].
  intros i Hi. apply elem_of_seq. destruct (lo_range _ _ Hok k i Hi). lia.
Qed.

Lemma head_loaded st ls k :
  lists_ok st ls -> (k < nbuckets)%nat ->
  exists h, load st (Hd k) = Some h /\ next h = firstp (ls k) (Hd k) /\
    prev h = lastp (Hd k) (ls k).
Proof.
  intros Hok Hk. pose proof (lo_dll _ _ Hok k Hk) as Hdl. unfold dll in Hdl.
  destruct (nxt_is_Some _ _ _ (path_first _ _ _ _ Hdl)) as (h & Hh & Hnx).
  destruct (prv_is_Some _ _ _ (path_last _ _ _ _ Hdl)) as (h' & Hh' & Hpv).
  same_load. by exists h.
Qed.

Lemma bget_fast_safe me d n st ls : lists_ok st ls -> safe (bget_fast me d n st).
Proof.
  intros Hok. pose proof (bucket_of_lt n) as Hid.
  set (id := bucket_of n) in *. set (st0 := emit (Acq (Bucket id)) st).
  assert (lists_ok st0 ls) as Hok0 by (by apply lists_ok_emit).
  destruct (head_loaded _ _ _ Hok0 Hid) as (h & Hh & Hnx & Hpv).
  pose proof (lo_dll _ _ Hok0 id Hid) as Hdl. unfold dll in Hdl.
  pose proof (bucket_length st0 ls id Hok0) as Hlen.
  unfold bget_fast. fold id. rewrite bind_acquire. fold st0.
  change ((walk_fuel ≫= ?k) ?s) with (k (walk_len s) s). cbv beta.
  rewrite (bind_rd _ _ _ _ Hh). rewrite Hnx.
  apply safe_bind.
  { eapply bget_cached_safe; [done|]. unfold walk_len. lia. }
  intros [b|] s Hrun; [done|].
  pose proof (bget_cached_spec (walk_len st0) me d n id (firstp (ls id) (Hd id)) st0) as Hspec.
  eapply wp_Ret in Hspec; [|done]. destruct Hspec as [-> _].
  rewrite (bind_rd _ _ _ _ Hh). rewrite Hpv.
  apply safe_bind.
  { eapply bget_recycle_safe; [done|]. unfold walk_len. lia. }
  by intros [b|] s _.
Qed.

Lemma bget_slow_safe me d n st ls :
  lists_ok st ls -> covers st ls -> safe (bget_slow me d n st).
Proof.
  intros Hok Hcov. unfold bget_slow. rewrite !bind_acquire.
  change ((nbuf ≫= ?k) ?s) with (k (length (bc_buf s)) s). cbv beta.
  apply safe_bind.
  - apply (bget_steal_safe _ _ _ _ ls).
    + by do 2 apply lists_ok_emit.
    + done.
    + apply bucket_of_lt.
    + intros i Hi. apply elem_of_seq in Hi. simpl in *. lia.
  - by intros [b|] s _.
Qed.

Lemma bget_safe me d n st ls :
  lists_ok st ls -> covers st ls -> safe (bget me d n st).
Proof.
  intros Hok Hcov. unfold bget. apply safe_bind; [by eapply bget_fast_safe|].
  intros [b|] s Hrun; [done|].
  pose proof (bget_fast_spec me d n st) as Hspec.
  eapply wp_Ret in Hspec; [|done]. destruct Hspec as [_ ->].
  apply (bget_slow_safe _ _ _ _ ls); [by do 2 apply lists_ok_emit|done].
Qed.

Lemma bread_safe me d n st ls :
  lists_ok st ls -> covers st ls -> safe (bread me d n st).
Proof.
  intros Hok Hcov. unfold bread. apply safe_bind; [by eapply bget_safe|].
  intros b s Hrun.
  pose proof (bget_spec me d n st) as Hspec.
  eapply wp_Ret in Hspec; [|done]. destruct Hspec as (s0 & e1 & _ & He1 & _ & ->).
  erewrite bind_rd by (by erewrite load_store_eq).
  destruct (_ =? _); [|done].
  unfold mbind, M_bind, virtio_disk_rw. erewrite load_store_eq by done.
  unfold upd. rewrite load_emit. erewrite load_store_eq by (by erewrite load_store_eq).
  done.
Qed.

Lemma brelse_safe me i st ls :
  lists_ok st ls -> covers st ls -> (i < length (bc_buf st))%nat ->
  safe (brelse me (Bf i) st).
Proof.
  intros Hok Hcov Hi.
  destruct (lookup_lt_is_Some_2 (bc_buf st) i Hi) as [e He].
  change (bc_buf st !! i = Some e) with (load st (Bf i) = Some e) in He.
  destruct (holding e me) eqn:Hh; [|by rewrite (brelse_unheld _ _ _ _ He Hh)].
  rewrite (brelse_held _ _ _ _ He Hh). destruct (_ =? _); [|done].
  set (D := brelse_dropped st (Bf i) e).
  assert (length (bc_buf D) = length (bc_buf st)) as HnbD.
  { unfold D, brelse_dropped. rewrite nbuf_store.
    change (length (bc_buf (emit ?ev ?s))) with (length (bc_buf s)). by rewrite nbuf_store. }
  assert (lists_ok D ls) as HokD.
  { eapply lists_ok_same_links; [done| |done|].
    - intros q. unfold D. rewrite (load_brelse_dropped _ _ _ _ He).
      case_decide as Hq; [|done]. subst q. by rewrite He.
    - unfold D, brelse_dropped. rewrite nhead_store.
      change (length (bc_head (emit ?ev ?s))) with (length (bc_head s)). by rewrite nhead_store. }
  destruct (move_to_head_rep D ls i (bucket_of (blockno e)) HokD) as (st2 & Hrun & _).
  { intros x Hx. rewrite HnbD in Hx. by apply Hcov. }
  { by rewrite HnbD. }
  { apply bucket_of_lt. }
  by rewrite (bind_Ret _ _ _ _ _ Hrun).
Qed.

Lemma exec_safe c st ls :
  lists_ok st ls -> covers st ls -> call_ok st c -> safe (exec c st).
Proof.
  intros Hok Hcov Hc. destruct c as [me d n|me d n|me b|me b|b|b]; simpl in Hc |- *.
  - apply safe_bind; [by eapply bget_safe|done].
  - apply safe_bind; [by eapply bread_safe|done].
  - destruct Hc as (i & -> & Hi).
    destruct (lookup_lt_is_Some_2 (bc_buf st) i Hi) as [e He].
    change (bc_buf st !! i = Some e) with (load st (Bf i) = Some e) in He.
    destruct (holding e me) eqn:Hh.
    + by rewrite (bwrite_held _ _ _ _ He Hh).
    + by rewrite (bwrite_unheld _ _ _ _ He Hh).
  - destruct Hc as (i & -> & Hi). by eapply brelse_safe.
  - destruct Hc as (i & -> & Hi).
    destruct (lookup_lt_is_Some_2 (bc_buf st) i Hi) as [e He].
    change (bc_buf st !! i = Some e) with (load st (Bf i) = Some e) in He.
    by rewrite (bpin_eval _ _ _ He).
  - destruct Hc as (i & -> & Hi).
    destruct (lookup_lt_is_Some_2 (bc_buf st) i Hi) as [e He].
    change (bc_buf st !! i = Some e) with (load st (Bf i) = Some e) in He.
    by rewrite (bunpin_eval _ _ _ He).
Qed.

(** ** The lists under a reservation *)

Lemma lists_fast_released st ls d n b s :
  lists_ok st ls -> fast_released st d n b s ->
  lists_ok s ls /\ length (bc_buf s) = length (bc_buf st).
Proof.
  intros Hok Hrel.
  destruct Hrel as [h k b e0 Hh Hk Hw Hb He0 Hd0 Hn0|h k k' b e0 Hh Hk Hw Hk' Hw' Hb He0 Hr].
  - unfold hit_state. split; [|by rewrite nbuf_emit, nbuf_store].
    apply lists_ok_emit.
    eapply lists_ok_same_links; [by apply (lists_ok_emit st ls (Acq (Bucket (bucket_of n))))| | |].
    + intros q. erewrite load_store by (by rewrite load_emit).
      case_decide as Hq; [|done]. subst q. by rewrite load_emit, He0.
    + by rewrite nbuf_store.
    + by rewrite nhead_store.
  - unfold claim_state. split; [|by rewrite nbuf_emit, nbuf_store].
    apply lists_ok_emit.
    eapply lists_ok_same_links; [by apply (lists_ok_emit st ls (Acq (Bucket (bucket_of n))))| | |].
    + intros q. erewrite load_store by (by rewrite load_emit).
      case_decide as Hq; [|done]. subst q. by rewrite load_emit, He0.
    + by rewrite nbuf_store.
    + by rewrite nhead_store.
Qed.

Lemma lists_slow_released st ls d n b s :
  lists_ok st ls -> covers st ls -> slow_released st d n b s ->
  exists i, b = Bf i /\ lists_ok s (moved ls i (bucket_of n)) /\
    covers s (moved ls i (bucket_of n)).
Proof.
  intros Hok Hcov Hrel.
  destruct Hrel as [js i e0 st2 Hjs Hi He0 Hr Hne Hmv]. exists i. split; [done|].
  set (R := relabelled (slow_entry st (bucket_of n)) js (Bf i) e0 d n) in *.
  assert (forall q, load R q = if decide (Bf i = q) then Some (claimed d n e0) else load st q) as HR.
  { intros q. unfold R, relabelled. erewrite load_store.
    - case_decide; [done|]. unfold slow_entry. by rewrite load_emit, load_probing, !load_emit.
    - unfold slow_entry. by rewrite load_emit, load_probing, !load_emit. }
  assert (length (bc_buf R) = length (bc_buf st) /\ length (bc_head R) = length (bc_head st))
    as [HnbR HnhR].
  { unfold R, relabelled. by rewrite nbuf_store, nhead_store. }
  destruct (move_to_head_rep R ls i (bucket_of n)) as (st3 & Hrun & Hsp & Hok' & Hcov').
  - eapply lists_ok_same_links; try done. intros q. rewrite HR.
    case_decide as Hq; [|done]. subst q. by rewrite He0.
  - intros c Hc. rewrite HnbR in Hc. by apply Hcov.
  - by rewrite HnbR.
  - apply bucket_of_lt.
  - rewrite Hmv in Hrun. injection Hrun as <-. unfold stolen. split.
    + by do 3 apply lists_ok_emit.
    + done.
Qed.

(** ** Which buffer bget takes *)

Lemma walk_split_prev st id skip : forall l q k b,
  path st (Hd id) l q -> walk st prev id skip k (lastp (Hd id) l) b ->
  exists l1 l2, l = l1 ++ l2 /\ b = lastp (Hd id) l1 /\
    forall j, j ∈ l2 -> exists e, load st (Bf j) = Some e /\ skip e.
Proof.
  induction l as [|c l IH] using rev_ind; intros q k b Hp Hw.
  - exists [], []. inversion Hw; subst; [|done]. split_and!; try done.
    intros j Hj. by apply elem_of_nil in Hj.
  - rewrite lastp_snoc in Hw. apply path_app in Hp as [Hp _].
    inversion Hw as [|k' p' e r Hne He Hs Hw']; subst.
    + exists (l ++ [c]), []. split_and!.
      * by rewrite app_nil_r.
      * by rewrite lastp_snoc.
      * intros j Hj. by apply elem_of_nil in Hj.
    + destruct (prv_is_Some _ _ _ (path_last _ _ _ _ Hp)) as (e' & He' & Hpv).
      same_load. rewrite Hpv in Hw'.
      destruct (IH _ _ _ Hp Hw') as (l1 & l2 & -> & -> & Hall).
      exists l1, (l2 ++ [c]). split_and!; try done.
      * by rewrite app_assoc.
      * intros j [Hj|Hj]%elem_of_app; [by apply Hall|].
        apply list_elem_of_singleton in Hj as ->. eauto.
Qed.

(** After the walk of lines 93-103 has come back to the head, every buffer
    on the list of the target bucket is referenced. *)
Lemma scan_busy st ls id h k i e :
  lists_ok st ls -> (id < nbuckets)%nat -> load st (Hd id) = Some h ->
  walk st prev id busy k (prev h) (Hd id) ->
  i ∈ ls id -> load st (Bf i) = Some e -> refcnt e <> 0.
Proof.
  intros Hok Hid Hh Hw Hi He.
  destruct (head_loaded _ _ _ Hok Hid) as (h' & Hh' & _ & Hpv). same_load.
  rewrite Hpv in Hw.
  destruct (walk_split_prev _ _ _ _ _ _ _ (lo_dll _ _ Hok id Hid) Hw) as (l1 & l2 & Hls & Hb & Hall).
  destruct (lastp_cases (Hd id) l1) as [[-> _]|(j & _ & Hj)]; [|congruence].
  simpl in Hls. subst l2. destruct (Hall i Hi) as (e' & He' & Hs). same_load.
  unfold busy in Hs. by apply Z.eqb_neq in Hs.
Qed.

Lemma first_unique (P : nat -> Prop) (l A B A' B' : list nat) x y :
  NoDup l -> l = A ++ x :: B -> l = A' ++ y :: B' -> P x -> P y ->
  (forall j, j ∈ A -> ~ P j) -> (forall j, j ∈ A' -> ~ P j) -> x = y.
Proof.
  intros Hnd HA HA' Hx Hy HnA HnA'.
  assert (x ∈ A' ++ y :: B') as Hin.
  { rewrite <- HA', HA. apply elem_of_app. right. apply elem_of_cons. by left. }
  apply elem_of_app in Hin as [Hin|Hin]; [by destruct (HnA' x Hin)|].
  apply elem_of_cons in Hin as [Hin|Hin]; [done|].
  destruct (list_elem_of_split _ _ Hin) as (B1 & B2 & ->).
  assert (A = A' ++ y :: B1) as ->.
  { apply (NoDup_split_unique x A B (A' ++ y :: B1) B2); [by rewrite <- HA|].
    rewrite <- HA, HA'. by rewrite <- app_assoc. }
  destruct (HnA y); [|done]. apply elem_of_app. right. apply elem_of_cons. by left.
Qed.

Lemma last_unique (P : nat -> Prop) (l A B A' B' : list nat) x y :
  NoDup l -> l = A ++ x :: B -> l = A' ++ y :: B' -> P x -> P y ->
  (forall j, j ∈ B -> ~ P j) -> (forall j, j ∈ B' -> ~ P j) -> x = y.
Proof.
  intros Hnd HA HA' Hx Hy HnB HnB'.
  assert (x ∈ A' ++ y :: B') as Hin.
  { rewrite <- HA', HA. apply elem_of_app. right. apply elem_of_cons. by left. }
  apply elem_of_app in Hin as [Hin|Hin].
  - destruct (list_elem_of_split _ _ Hin) as (A1 & A2 & ->).
    assert (A = A1) as ->.
    { apply (NoDup_split_unique x A B A1 (A2 ++ y :: B')); [by rewrite <- HA|].
      rewrite <- HA, HA'. by rewrite <- app_assoc. }
    assert (B = A2 ++ y :: B') as ->.
    { rewrite HA' in HA. rewrite <- app_assoc in HA. simpl in HA.
      apply app_inv_head in HA. by injection HA. }
    destruct (HnB y); [|done]. apply elem_of_app. right. apply elem_of_cons. by left.
  - apply elem_of_cons in Hin as [Hin|Hin]; [done|]. by destruct (HnB' x Hin).
Qed.

(** The pool scan takes the first buffer of the array that it can take. *)
Lemma bget_steal_first me d n id bs : forall st,
  let R := fun (b : ptr) =>
    exists bs1 i bs2, bs = bs1 ++ i :: bs2 /\ b = Bf i /\
      forall j e, j ∈ bs1 -> load st (Bf j) = Some e ->
        bucket_of (blockno e) = id \/ refcnt e <> 0 in
  wp (bget_steal me d n id bs)
    (fun r _ => match r with Some b => R b | None => True end)
    never (fun b _ => R b) st.
Proof.
  induction bs as [|i bs IH]; intros st R.
  { simpl. by wp_steps. }
  simpl. wp_steps. case_decide as Hid.
  { eapply wp_mono; [apply IH| |done|].
    - intros [b|] st'; [|done]. intros (bs1 & i' & bs2 & -> & -> & Hall).
      exists (i :: bs1), i', bs2. split_and!; try done.
      intros j e' [->|Hj]%elem_of_cons He'; [|by eauto]. left. simpl in *. congruence.
    - intros b st' (bs1 & i' & bs2 & -> & -> & Hall).
      exists (i :: bs1), i', bs2. split_and!; try done.
      intros j e' [->|Hj]%elem_of_cons He'; [|by eauto]. left. simpl in *. congruence. }
  wp_steps. rewrite load_emit in H0. same_load.
  assert (R (Bf i)) as HR.
  { exists [], i, bs. split_and!; try done. intros j e' Hj. by apply elem_of_nil in Hj. }
  destruct (refcnt e =? 0) eqn:Hm.
  - wp_steps. eapply wp_mono; [apply move_to_head_total| |done|done].
    intros [] st2 _. simpl. wp_steps.
    apply wp_acquiresleep. intros e9 He9. split; intros Hl; [by wp_steps|done].
  - apply Z.eqb_neq in Hm. wp_steps.
    eapply wp_mono; [apply IH| |done|].
    + intros [b|] st'; [|done]. intros (bs1 & i' & bs2 & -> & -> & Hall).
      exists (i :: bs1), i', bs2. split_and!; try done.
      intros j e' [->|Hj]%elem_of_cons He'.
      * right. simpl in *. congruence.
      * apply (Hall j e' Hj). by rewrite !load_emit.
    + intros b st' (bs1 & i' & bs2 & -> & -> & Hall).
      exists (i :: bs1), i', bs2. split_and!; try done.
      intros j e' [->|Hj]%elem_of_cons He'.
      * right. simpl in *. congruence.
      * apply (Hall j e' Hj). by rewrite !load_emit.
Qed.

Lemma seq_split_lt n bs1 i bs2 j :
  seq 0 n = bs1 ++ i :: bs2 -> (j < i)%nat -> j ∈ bs1.
Proof.
  intros Hs Hj.
  assert (i = length bs1) as ->.
  { assert (seq 0 n !! length bs1 = Some i) as Hl.
    { rewrite Hs. by rewrite list_lookup_middle. }
    apply lookup_seq in Hl. lia. }
  assert (bs1 = seq 0 (length bs1)) as ->.
  { assert (take (length bs1) (seq 0 n) = bs1) as Ht by (by rewrite Hs, take_app_length).
    rewrite <- Ht at 1. rewrite take_seq. f_equal.
    assert (length (seq 0 n) = n) as Hn by apply length_seq.
    rewrite Hs, length_app in Hn. simpl in Hn. lia. }
  apply elem_of_seq. lia.
Qed.

(** A bget that goes as far as the pool scan takes the buffer of lowest
    index among those it can take. *)
Lemma bget_lowest me d n st :
  let R := fun (b : ptr) =>
    (exists s, fast_released st d n b s) \/
    exists i, b = Bf i /\
      forall j e, (j < i)%nat -> load st (Bf j) = Some e ->
        bucket_of (blockno e) = bucket_of n \/ refcnt e <> 0 in
  wp (bget me d n) (fun b _ => R b) (fun _ _ => True) (fun b _ => R b) st.
Proof.
  intros R. unfold bget. wp_steps.
  eapply wp_mono; [apply bget_fast_spec| |done|].
  - intros [b|] st1.
    + intros (s & e1 & Hrel & _). wp_steps. left. by exists s.
    + intros [_ ->]. unfold bget_slow. wp_steps.
      eapply wp_mono; [apply bget_steal_first| |done|].
      * intros [b|] st2; [|intros _; by wp_steps].
        intros (bs1 & i & bs2 & Hbs & -> & Hall). wp_steps. right.
        exists i. split; [done|]. intros j e Hj He. apply (Hall j e).
        -- by eapply seq_split_lt.
        -- by rewrite !load_emit.
      * intros b st2 (bs1 & i & bs2 & Hbs & -> & Hall). right.
        exists i. split; [done|]. intros j e Hj He. apply (Hall j e).
        -- by eapply seq_split_lt.
        -- by rewrite !load_emit.
  - intros b st1 (e1 & Hrel & _). left. by exists st1.
Qed.

Lemma matches_true st d n i :
  matches st d n i = true <-> exists e, load st (Bf i) = Some e /\ dev e = d /\ blockno e = n.
Proof.
  unfold matches. split.
  - destruct (load st (Bf i)) as [e|]; [|done]. intros [H1 H2]%andb_prop.
    apply Z.eqb_eq in H1, H2. by exists e.
  - intros (e & -> & <- & <-). by rewrite !Z.eqb_refl.
Qed.

Lemma matches_false st d n i e :
  matches st d n i = false -> load st (Bf i) = Some e -> nomatch d n e.
Proof. unfold matches, nomatch. intros H He. by rewrite He in H. Qed.

Lemma unused_true st i :
  unused st i = true <-> exists e, load st (Bf i) = Some e /\ refcnt e = 0.
Proof.
  unfold unused. split.
  - destruct (load st (Bf i)) as [e|]; [|done]. intros H%Z.eqb_eq. by exists e.
  - intros (e & -> & ->). done.
Qed.

Lemma unused_false st i e :
  unused st i = false -> load st (Bf i) = Some e -> refcnt e <> 0.
Proof. unfold unused. intros H He. rewrite He in H. by apply Z.eqb_neq. Qed.

Lemma stealable_true st id i :
  stealable st id i = true <->
  exists e, load st (Bf i) = Some e /\ refcnt e = 0 /\ bucket_of (blockno e) <> id.
Proof.
  unfold stealable. split.
  - destruct (load st (Bf i)) as [e|]; [|done]. intros [H1 H2]%andb_prop.
    apply Z.eqb_eq in H1. apply negb_true_iff, Nat.eqb_neq in H2. by exists e.
  - intros (e & -> & -> & H). simpl. by apply negb_true_iff, Nat.eqb_neq.
Qed.

Lemma stealable_false st id i e :
  stealable st id i = false -> load st (Bf i) = Some e ->
  bucket_of (blockno e) = id \/ refcnt e <> 0.
Proof.
  unfold stealable. intros H He. rewrite He in H.
  apply andb_false_iff in H as [H|H].
  - right. by apply Z.eqb_neq.
  - left. by apply negb_false_iff, Nat.eqb_eq in H.
Qed.

Lemma existsb_false {A} (f : A -> bool) (l : list A) x :
  existsb f l = false -> x ∈ l -> f x = false.
Proof.
  intros H Hx. destruct (f x) eqn:Hf; [|done].
  assert (existsb f l = true) as H'; [|congruence].
  apply existsb_exists. exists x. split; [by apply list_elem_of_In|done].
Qed.

(** What a bget does that starts where the lists are in order. *)
Lemma bget_outcome me d n st ls :
  lists_ok st ls -> covers st ls ->
  match bget me d n st with
  | Ret b st' =>
      exists s e1, released st d n b s /\ load s b = Some e1 /\
        locked (lock e1) = 0 /\ st' = store s b (granted me e1)
  | Sleeps b st' =>
      exists e1, released st d n b st' /\ load st' b = Some e1 /\ locked (lock e1) <> 0
  | Panic msg st' =>
      msg = "bget: no buffers"%string /\ missed st d n /\
      none_to_steal st (bucket_of n) /\
      exists js, Forall (fun j => j <> bucket_of n) js /\
        st' = probing (slow_entry (mid st (bucket_of n)) (bucket_of n)) js
  | Fault => False
  | Diverges => False
  end.
Proof.
  intros Hok Hcov. pose proof (bget_safe me d n st ls Hok Hcov) as Hsafe.
  pose proof (bget_spec me d n st) as Hspec. unfold wp in Hspec.
  by destruct (bget me d n st).
Qed.

Lemma released_first_match st ls d n l1 c l2 e0 b s :
  lists_ok st ls -> ls (bucket_of n) = l1 ++ c :: l2 ->
  existsb (matches st d n) l1 = false ->
  load st (Bf c) = Some e0 -> dev e0 = d -> blockno e0 = n ->
  released st d n b s ->
  b = Bf c /\
  s = hit_state (emit (Acq (Bucket (bucket_of n))) st) (Bf c) e0 (bucket_of n).
Proof.
  intros Hok Hls Hl1 He0 Hd0 Hn0 Hrel. pose proof (bucket_of_lt n) as Hid.
  assert (c ∈ ls (bucket_of n)) as Hc.
  { rewrite Hls. apply elem_of_app. right. apply elem_of_cons. by left. }
  destruct Hrel as [Hf|[Hmiss _]].
  2:{ destruct (nomatch_differs d n e0); try done. by eapply missed_nomatch. }
  destruct Hf as [h k b e0' Hh Hk Hw Hb He0' Hd0' Hn0'|h k k' b e0' Hh Hk Hw Hk' Hw' Hb He0' Hr].
  2:{ destruct (nomatch_differs d n e0); try done. by eapply scan_nomatch. }
  destruct (head_loaded _ _ _ Hok Hid) as (h' & Hh' & Hnx & _). same_load.
  rewrite Hnx in Hw.
  destruct (walk_split _ _ _ _ _ _ _ (lo_dll _ _ Hok _ Hid) Hw) as (w1 & w2 & Hw12 & Hbw & Hall).
  destruct w2 as [|c' w2]; [done|]. simpl in Hbw. subst b.
  assert (c = c') as <-.
  { apply (first_unique (fun j => matches st d n j = true) (ls (bucket_of n)) l1 l2 w1 w2);
      try done.
    - apply (lo_nodup _ _ Hok).
    - apply matches_true. by exists e0.
    - apply matches_true. by exists e0'.
    - intros j Hj. by rewrite (existsb_false _ _ _ Hl1 Hj).
    - intros j Hj Hm. apply matches_true in Hm as (e & He & Hde & Hne).
      destruct (Hall j Hj) as (e' & He' & Hs). same_load. by eapply nomatch_differs. }
  by same_load.
Qed.

Lemma released_last_unused st ls d n l1 c l2 e0 b s :
  lists_ok st ls -> ls (bucket_of n) = l1 ++ c :: l2 ->
  existsb (matches st d n) (ls (bucket_of n)) = false ->
  load st (Bf c) = Some e0 -> refcnt e0 = 0 ->
  existsb (unused st) l2 = false ->
  released st d n b s ->
  b = Bf c /\
  s = claim_state (emit (Acq (Bucket (bucket_of n))) st) (Bf c) e0 d n (bucket_of n).
Proof.
  intros Hok Hls Hnm He0 Hr0 Hl2 Hrel. pose proof (bucket_of_lt n) as Hid.
  assert (c ∈ ls (bucket_of n)) as Hc.
  { rewrite Hls. apply elem_of_app. right. apply elem_of_cons. by left. }
  destruct Hrel as [Hf|[Hmiss _]].
  2:{ destruct Hmiss as (h & k & k' & Hh & _ & _ & _ & Hw').
      by destruct (scan_busy _ _ _ _ _ _ _ Hok Hid Hh Hw' Hc He0). }
  destruct (fast_released_on_list _ _ _ _ _ _ Hok Hf) as (i & Hbi & Hi).
  destruct Hf as [h k b e0' Hh Hk Hw Hb He0' Hd0' Hn0'|h k k' b e0' Hh Hk Hw Hk' Hw' Hb He0' Hr].
  { subst b. destruct (nomatch_differs d n e0'); try done.
    eapply matches_false; [|done]. by eapply existsb_false. }
  destruct (head_loaded _ _ _ Hok Hid) as (h' & Hh' & _ & Hpv). same_load.
  rewrite Hpv in Hw'.
  destruct (walk_split_prev _ _ _ _ _ _ _ (lo_dll _ _ Hok _ Hid) Hw') as (w1 & w2 & Hw12 & Hbw & Hall).
  destruct w1 as [|c' w1 _] using rev_ind; [done|].
  rewrite lastp_snoc in Hbw. subst b. injection Hbw as ->.
  rewrite <- app_assoc in Hw12. simpl in Hw12.
  assert (c = c') as <-.
  { apply (last_unique (fun j => unused st j = true) (ls (bucket_of n)) l1 l2 w1 w2);
      try done.
    - apply (lo_nodup _ _ Hok).
    - apply unused_true. by exists e0.
    - apply unused_true. by exists e0'.
    - intros j Hj. by rewrite (existsb_false _ _ _ Hl2 Hj).
    - intros j Hj Hm. apply unused_true in Hm as (e & He & Hre).
      destruct (Hall j Hj) as (e' & He' & Hs). same_load.
      unfold busy in Hs. by apply Z.eqb_neq in Hs. }
  by same_load.
Qed.

Lemma released_stolen st ls d n b s :
  lists_ok st ls ->
  existsb (matches st d n) (ls (bucket_of n)) = false ->
  existsb (unused st) (ls (bucket_of n)) = false ->
  released st d n b s ->
  missed st d n /\ slow_released (mid st (bucket_of n)) d n b s.
Proof.
  intros Hok Hnm Hnu [Hf|H]; [|done]. exfalso.
  destruct (fast_released_on_list _ _ _ _ _ _ Hok Hf) as (i & Hbi & Hi).
  destruct Hf as [h k b e0' Hh Hk Hw Hb He0' Hd0' Hn0'|h k k' b e0' Hh Hk Hw Hk' Hw' Hb He0' Hr];
    subst b.
  - destruct (nomatch_differs d n e0'); try done.
    eapply matches_false; [|done]. by eapply existsb_false.
  - by destruct (unused_false st i e0' (existsb_false _ _ _ Hnu Hi) He0').
Qed.

Lemma slow_released_payload st d n b s :
  slow_released st d n b s ->
  exists i e0 e1, b = Bf i /\ (i < length (bc_buf st))%nat /\
    load st (Bf i) = Some e0 /\ refcnt e0 = 0 /\
    bucket_of (blockno e0) <> bucket_of n /\
    load s (Bf i) = Some e1 /\ payload e1 = payload (claimed d n e0) /\
    (forall q, q <> Bf i -> payload <$> load s q = payload <$> load st q) /\
    bc_disk s = bc_disk st.
Proof.
  destruct 1 as [js i e0 st2 Hjs Hi He0 Hr Hne Hmv].
  pose proof (move_to_head_total (Bf i) (bucket_of n)
                (relabelled (slow_entry st (bucket_of n)) js (Bf i) e0 d n)) as Hsp.
  eapply wp_Ret in Hsp; [|done]. destruct Hsp as (_ & Hsp & _).
  assert (forall q, load (relabelled (slow_entry st (bucket_of n)) js (Bf i) e0 d n) q
                    = if decide (Bf i = q) then Some (claimed d n e0) else load st q) as Hrl.
  { intros q. unfold relabelled. erewrite load_store.
    - case_decide; [done|]. unfold slow_entry. by rewrite load_emit, load_probing, !load_emit.
    - unfold slow_entry. by rewrite load_emit, load_probing, !load_emit. }
  destruct (same_payload_load _ _ (Bf i) (claimed d n e0) Hsp) as (e2 & He2 & Hpl).
  { rewrite Hrl. by rewrite decide_True. }
  exists i, e0, e2. unfold stolen. rewrite !load_emit. split_and!; try done.
  - intros q Hq. rewrite !load_emit. rewrite (sp_load _ _ Hsp). rewrite Hrl.
    by rewrite decide_False.
  - simpl. rewrite (sp_disk _ _ Hsp). unfold relabelled. by rewrite disk_store.
Qed.

Lemma missed_no_match st ls d n c e0 :
  lists_ok st ls -> c ∈ ls (bucket_of n) ->
  load st (Bf c) = Some e0 -> dev e0 = d -> blockno e0 = n -> ~ missed st d n.
Proof.
  intros Hok Hc He0 Hd0 Hn0 Hmiss.
  destruct (nomatch_differs d n e0); try done. by eapply missed_nomatch.
Qed.

Lemma missed_no_unused st ls d n c e0 :
  lists_ok st ls -> c ∈ ls (bucket_of n) ->
  load st (Bf c) = Some e0 -> refcnt e0 = 0 -> ~ missed st d n.
Proof.
  intros Hok Hc He0 Hr0 (h & k & k' & Hh & _ & _ & _ & Hw').
  by destruct (scan_busy _ _ _ _ _ _ _ Hok (bucket_of_lt n) Hh Hw' Hc He0).
Qed.

(** The hit. *)
Lemma bget_first_match_eval me d n st ls l1 c l2 e0 :
  lists_ok st ls -> covers st ls -> ls (bucket_of n) = l1 ++ c :: l2 ->
  existsb (matches st d n) l1 = false ->
  load st (Bf c) = Some e0 -> dev e0 = d -> blockno e0 = n ->
  let s := hit_state (emit (Acq (Bucket (bucket_of n))) st) (Bf c) e0 (bucket_of n) in
  bget me d n st =
    if locked (lock e0) =? 0 then Ret (Bf c) (store s (Bf c) (granted me (bump e0)))
    else Sleeps (Bf c) s.
Proof.
  intros Hok Hcov Hls Hl1 He0 Hd0 Hn0 s.
  assert (c ∈ ls (bucket_of n)) as Hc.
  { rewrite Hls. apply elem_of_app. right. apply elem_of_cons. by left. }
  assert (load s (Bf c) = Some (bump e0)) as Hs.
  { unfold s, hit_state. rewrite load_emit. erewrite load_store_eq; [done|by rewrite load_emit]. }
  pose proof (bget_outcome me d n st ls Hok Hcov) as Hout.
  destruct (bget me d n st) as [b st'|msg st'|b st'| |]; try done.
  - destruct Hout as (s' & e1 & Hrel & He1 & Hlk & ->).
    destruct (released_first_match _ _ _ _ _ _ _ _ _ _ Hok Hls Hl1 He0 Hd0 Hn0 Hrel) as [-> ->].
    fold s in He1. same_load. simpl in Hlk. by rewrite Hlk.
  - destruct Hout as (_ & Hmiss & _). by destruct (missed_no_match _ _ _ _ _ _ Hok Hc He0 Hd0 Hn0).
  - destruct Hout as (e1 & Hrel & He1 & Hlk).
    destruct (released_first_match _ _ _ _ _ _ _ _ _ _ Hok Hls Hl1 He0 Hd0 Hn0 Hrel) as [-> ->].
    fold s in He1. same_load. simpl in Hlk. apply Z.eqb_neq in Hlk. by rewrite Hlk.
Qed.

(** The recycling inside the bucket. *)
Lemma bget_last_unused_eval me d n st ls l1 c l2 e0 :
  lists_ok st ls -> covers st ls -> ls (bucket_of n) = l1 ++ c :: l2 ->
  existsb (matches st d n) (ls (bucket_of n)) = false ->
  load st (Bf c) = Some e0 -> refcnt e0 = 0 ->
  existsb (unused st) l2 = false ->
  let s := claim_state (emit (Acq (Bucket (bucket_of n))) st) (Bf c) e0 d n (bucket_of n) in
  bget me d n st =
    if locked (lock e0) =? 0 then Ret (Bf c) (store s (Bf c) (granted me (claimed d n e0)))
    else Sleeps (Bf c) s.
Proof.
  intros Hok Hcov Hls Hnm He0 Hr0 Hl2 s.
  assert (c ∈ ls (bucket_of n)) as Hc.
  { rewrite Hls. apply elem_of_app. right. apply elem_of_cons. by left. }
  assert (load s (Bf c) = Some (claimed d n e0)) as Hs.
  { unfold s, claim_state. rewrite load_emit. erewrite load_store_eq; [done|by rewrite load_emit]. }
  pose proof (bget_outcome me d n st ls Hok Hcov) as Hout.
  destruct (bget me d n st) as [b st'|msg st'|b st'| |]; try done.
  - destruct Hout as (s' & e1 & Hrel & He1 & Hlk & ->).
    destruct (released_last_unused _ _ _ _ _ _ _ _ _ _ Hok Hls Hnm He0 Hr0 Hl2 Hrel) as [-> ->].
    fold s in He1. same_load. simpl in Hlk. by rewrite Hlk.
  - destruct Hout as (_ & Hmiss & _). by destruct (missed_no_unused _ _ d n _ _ Hok Hc He0 Hr0).
  - destruct Hout as (e1 & Hrel & He1 & Hlk).
    destruct (released_last_unused _ _ _ _ _ _ _ _ _ _ Hok Hls Hnm He0 Hr0 Hl2 Hrel) as [-> ->].
    fold s in He1. same_load. simpl in Hlk. apply Z.eqb_neq in Hlk. by rewrite Hlk.
Qed.

Lemma existsb_false_intro {A} (f : A -> bool) (l : list A) :
  (forall x, x ∈ l -> f x = false) -> existsb f l = false.
Proof.
  intros H. destruct (existsb f l) eqn:He; [|done].
  apply existsb_exists in He as (x & Hx & Hf). apply list_elem_of_In in Hx.
  rewrite (H x Hx) in Hf. done.
Qed.

(** The buffer taken from another bucket. *)
Lemma bget_steal_eval me d n st ls i :
  lists_ok st ls -> covers st ls ->
  existsb (matches st d n) (ls (bucket_of n)) = false ->
  existsb (unused st) (ls (bucket_of n)) = false ->
  stealable st (bucket_of n) i = true ->
  existsb (stealable st (bucket_of n)) (seq 0 i) = false ->
  exists e0 st' e1, load st (Bf i) = Some e0 /\
    bget me d n st
      = (if locked (lock e0) =? 0 then Ret (Bf i) st' else Sleeps (Bf i) st') /\
    load st' (Bf i) = Some e1 /\
    dev e1 = d /\ blockno e1 = n /\ valid e1 = 0 /\ refcnt e1 = 1 /\ data e1 = data e0 /\
    lists_ok st' (moved ls i (bucket_of n)) /\
    (forall q, q <> Bf i -> payload <$> load st' q = payload <$> load st q).
Proof.
  intros Hok Hcov Hnm Hnu Hi Hmin.
  apply stealable_true in Hi as (e0 & He0 & Hr0 & Hb0).
  assert (forall b s, released st d n b s ->
            (exists s0, fast_released st d n b s0) \/
            (exists i', b = Bf i' /\
               forall j e, (j < i')%nat -> load st (Bf j) = Some e ->
                 bucket_of (blockno e) = bucket_of n \/ refcnt e <> 0) ->
            b = Bf i /\ exists e1, load s (Bf i) = Some e1 /\
              payload e1 = payload (claimed d n e0) /\
              lists_ok s (moved ls i (bucket_of n)) /\
              (forall q, q <> Bf i -> payload <$> load s q = payload <$> load st q)) as Hkey.
  { intros b s Hrel Hlow.
    destruct (released_stolen _ _ _ _ _ _ Hok Hnm Hnu Hrel) as [Hmiss Hslow].
    destruct Hlow as [[s0 Hf]|(i' & -> & Hlow)].
    { exfalso. destruct (fast_released_on_list _ _ _ _ _ _ Hok Hf) as (c & Hbc & Hc).
      destruct Hf as [h k b e0' Hh Hk Hw Hb He0' Hd0' Hn0'
                     |h k k' b e0' Hh Hk Hw Hk' Hw' Hb He0' Hr]; subst b.
      - destruct (nomatch_differs d n e0'); try done.
        eapply matches_false; [|done]. by eapply existsb_false.
      - by destruct (unused_false st c e0' (existsb_false _ _ _ Hnu Hc) He0'). }
    destruct (lists_slow_released (mid st (bucket_of n)) ls d n (Bf i') s)
      as (i1 & Hi1 & Hinv' & _); [by do 2 apply lists_ok_emit|done|done|].
    injection Hi1 as <-.
    destruct (slow_released_payload _ _ _ _ _ Hslow)
      as (i2 & e0' & e1 & Hi2 & _ & He0' & Hr0' & Hb0' & He1 & Hpl & Hfr & _).
    injection Hi2 as <-. rewrite load_mid in He0'.
    assert (i' = i) as ->.
    { destruct (Nat.lt_trichotomy i' i) as [Hlt|[Heq|Hgt]]; [|done|].
      - assert (stealable st (bucket_of n) i' = false) as Hf.
        { apply (existsb_false _ _ _ Hmin). apply elem_of_seq. lia. }
        destruct (stealable_false _ _ _ _ Hf He0'); done.
      - destruct (Hlow i e0 Hgt He0); done. }
    same_load. split; [done|]. exists e1. do 3 (split; [done|]).
    intros q Hq. rewrite (Hfr q Hq). by rewrite load_mid. }
  pose proof (bget_outcome me d n st ls Hok Hcov) as Hout.
  pose proof (bget_lowest me d n st) as Hlow. unfold wp in Hlow.
  exists e0. destruct (bget me d n st) as [b st'|msg st'|b st'| |]; try done.
  - destruct Hout as (s & e1 & Hrel & He1 & Hlk & ->).
    destruct (Hkey b s Hrel Hlow) as (-> & e1' & He1' & Hpl & Hinv' & Hfr). same_load.
    apply payload_eq_fields in Hpl as (Hv & Hd' & Hn' & Hl & Hr & Hdt).
    simpl in Hv, Hd', Hn', Hl, Hr, Hdt.
    exists (store s (Bf i) (granted me e1)), (granted me e1).
    assert (locked (lock e0) = 0) as Hlk0 by congruence. rewrite Hlk0.
    change (0 =? 0) with true. cbv iota.
    split; [done|]. split; [done|]. split; [by erewrite load_store_eq|].
    do 5 (split; [done|]). split.
    { eapply lists_ok_same_links; [done| |by rewrite nbuf_store|by rewrite nhead_store].
      intros q. erewrite load_store by done. case_decide as Hq; [|done].
      subst q. by rewrite He1. }
    intros q Hq. rewrite load_store_ne by done. by apply Hfr.
  - exfalso. destruct Hout as (_ & _ & Hnone & _).
    destruct (Hnone i e0 He0); done.
  - destruct Hout as (e1 & Hrel & He1 & Hlk).
    destruct (Hkey b st' Hrel Hlow) as (-> & e1' & He1' & Hpl & Hinv' & Hfr). same_load.
    apply payload_eq_fields in Hpl as (Hv & Hd' & Hn' & Hl & Hr & Hdt).
    simpl in Hv, Hd', Hn', Hl, Hr, Hdt.
    exists st', e1.
    assert ((locked (lock e0) =? 0) = false) as -> by (apply Z.eqb_neq; congruence).
    split_and!; done.
Qed.

(** The panic. *)
Lemma bget_panic_iff me d n st ls :
  lists_ok st ls -> covers st ls ->
  (exists st', bget me d n st = Panic "bget: no buffers" st') <->
  existsb (matches st d n) (ls (bucket_of n)) = false /\
  existsb (unused st) (ls (bucket_of n)) = false /\
  existsb (stealable st (bucket_of n)) (seq 0 (length (bc_buf st))) = false.
Proof.
  intros Hok Hcov. pose proof (bget_outcome me d n st ls Hok Hcov) as Hout. split.
  - intros [st' Hp]. rewrite Hp in Hout. destruct Hout as (_ & Hmiss & Hnone & _).
    split_and!; apply existsb_false_intro; intros i Hi.
    + destruct (matches st d n i) eqn:Hm; [|done].
      apply matches_true in Hm as (e & He & Hd' & Hn').
      by destruct (missed_no_match _ _ _ _ _ _ Hok Hi He Hd' Hn').
    + destruct (unused st i) eqn:Hm; [|done].
      apply unused_true in Hm as (e & He & Hr).
      by destruct (missed_no_unused _ _ d n _ _ Hok Hi He Hr).
    + destruct (stealable st (bucket_of n) i) eqn:Hm; [|done].
      apply stealable_true in Hm as (e & He & Hr & Hb).
      destruct (Hnone i e He); done.
  - intros (Hnm & Hnu & Hns).
    assert (forall b s, released st d n b s -> False) as Hno.
    { intros b s Hrel.
      destruct (released_stolen _ _ _ _ _ _ Hok Hnm Hnu Hrel) as [_ Hslow].
      destruct (slow_released_payload _ _ _ _ _ Hslow)
        as (i & e0 & e1 & -> & Hi & He0 & Hr0 & Hb0 & _).
      rewrite load_mid in He0.
      assert (stealable st (bucket_of n) i = true) as Ht.
      { apply stealable_true. by exists e0. }
      rewrite (existsb_false _ _ i Hns) in Ht; [done|].
      apply elem_of_seq. unfold mid in Hi. simpl in Hi. lia. }
    destruct (bget me d n st) as [b st'|msg st'|b st'| |]; try done.
    + destruct Hout as (s & e1 & Hrel & _). by destruct (Hno b s).
    + destruct Hout as (-> & _). by exists st'.
    + destruct Hout as (e1 & Hrel & _). by destruct (Hno b st').
Qed.

(** ** What a call leaves alone *)

Lemma store_same st p e : load st p = Some e -> store st p e = st.
Proof.
  destruct st as [bufs heads dsk lg]. destruct p as [|k|i]; simpl; intros H; [done| |];
    by rewrite list_insert_id.
Qed.

Lemma drop_bump e : 0 <= refcnt e < 2 ^ 32 -> drop (bump e) = e.
Proof.
  intros Hr. destruct e as [v dv bn lk rc pv nx dt]. unfold drop, bump, set_refcnt, wrap32.
  simpl in *. f_equal. rewrite Zminus_mod_idemp_l. rewrite Z.mod_small; lia.
Qed.

Lemma bump_drop e : 0 <= refcnt e < 2 ^ 32 -> bump (drop e) = e.
Proof.
  intros Hr. destruct e as [v dv bn lk rc pv nx dt]. unfold drop, bump, set_refcnt, wrap32.
  simpl in *. f_equal. rewrite Zplus_mod_idemp_l. rewrite Z.mod_small; lia.
Qed.

Lemma brelse_eval me i e st ls :
  lists_ok st ls -> covers st ls -> load st (Bf i) = Some e -> holding e me = true ->
  exists st' e', brelse me (Bf i) st = Ret tt st' /\
    load st' (Bf i) = Some e' /\ payload e' = payload (drop (unlocked e)) /\
    (forall q, q <> Bf i -> payload <$> load st' q = payload <$> load st q) /\
    bc_disk st' = bc_disk st /\
    lists_ok st' (if wrap32 (refcnt e - 1) =? 0
                  then moved ls i (bucket_of (blockno e)) else ls) /\
    length (bc_buf st') = length (bc_buf st).
Proof.
  intros Hok Hcov He Hh. rewrite (brelse_held _ _ _ _ He Hh).
  set (D := brelse_dropped st (Bf i) e).
  assert (i < length (bc_buf st))%nat as Hi by (by eapply lookup_lt_Some).
  assert (length (bc_buf D) = length (bc_buf st)) as HnbD.
  { unfold D, brelse_dropped. rewrite nbuf_store.
    change (length (bc_buf (emit ?ev ?s))) with (length (bc_buf s)). by rewrite nbuf_store. }
  assert (lists_ok D ls) as HokD.
  { eapply lists_ok_same_links; [done| |done|].
    - intros q. unfold D. rewrite (load_brelse_dropped _ _ _ _ He).
      case_decide as Hq; [|done]. subst q. by rewrite He.
    - unfold D, brelse_dropped. rewrite nhead_store.
      change (length (bc_head (emit ?ev ?s))) with (length (bc_head s)). by rewrite nhead_store. }
  assert (load D (Bf i) = Some (drop (unlocked e))) as HDi.
  { unfold D. rewrite (load_brelse_dropped _ _ _ _ He). by rewrite decide_True. }
  assert (bc_disk D = bc_disk st) as HdD.
  { unfold D, brelse_dropped. rewrite disk_store.
    change (bc_disk (emit ?ev ?s)) with (bc_disk s). by rewrite disk_store. }
  destruct (wrap32 (refcnt e - 1) =? 0).
  - destruct (move_to_head_rep D ls i (bucket_of (blockno e)) HokD)
      as (st2 & Hrun & Hsp & Hok2 & _).
    { intros x Hx. rewrite HnbD in Hx. by apply Hcov. }
    { by rewrite HnbD. }
    { apply bucket_of_lt. }
    rewrite (bind_Ret _ _ _ _ _ Hrun).
    destruct (same_payload_load _ _ _ _ Hsp HDi) as (e' & He' & Hpl).
    exists (emit (Rel (Bucket (bucket_of (blockno e)))) st2), e'. split_and!; try done.
    + intros q Hq. rewrite load_emit, (sp_load _ _ Hsp). unfold D.
      rewrite (load_brelse_dropped _ _ _ _ He). by rewrite decide_False.
    + simpl. by rewrite (sp_disk _ _ Hsp).
    + by apply lists_ok_emit.
    + simpl. by rewrite (sp_nbuf _ _ Hsp).
  - exists (emit (Rel (Bucket (bucket_of (blockno e)))) D), (drop (unlocked e)).
    split_and!; try done.
    + intros q Hq. rewrite load_emit. unfold D.
      rewrite (load_brelse_dropped _ _ _ _ He). by rewrite decide_False.
    + by apply lists_ok_emit.
Qed.

(** ** The lists stay well formed *)

Lemma final_Ret {A} (a : A) s st' : final (Ret a s) = Some st' -> st' = s.
Proof. by intros [= <-]. Qed.

Lemma well_linked_lists st :
  well_linked st ->
  exists ls, lists_ok st ls /\ covers st ls /\ forall k l, dll st k l -> ls k = l.
Proof.
  intros (ls & Hok & Hcov). exists ls. split; [done|]. split; [done|]. intros k l Hdl.
  assert (k < nbuckets)%nat as Hk.
  { destruct (nxt_is_Some _ _ _ (path_first _ _ _ _ Hdl)) as (h & Hh & _).
    apply lookup_lt_Some in Hh. by rewrite (lo_heads _ _ Hok) in Hh. }
  apply (path_unique _ _ _ _ _ (lo_dll _ _ Hok k Hk) Hdl).
Qed.

Lemma well_linked_same_links st st' :
  well_linked st ->
  (forall q, links <$> load st' q = links <$> load st q) ->
  length (bc_buf st') = length (bc_buf st) ->
  length (bc_head st') = length (bc_head st) ->
  well_linked st'.
Proof.
  intros (ls & Hok & Hcov) Hl Hnb Hnh. exists ls. split.
  - by eapply lists_ok_same_links.
  - intros i Hi. rewrite Hnb in Hi. by apply Hcov.
Qed.

Lemma well_linked_emit st ev : well_linked st -> well_linked (emit ev st).
Proof.
  intros H. eapply well_linked_same_links; [done| |done|done]. intros q. by rewrite load_emit.
Qed.

(** A store that leaves the pointers of the cell alone. *)
Lemma well_linked_store st p e e' :
  well_linked st -> load st p = Some e -> links e' = links e ->
  well_linked (store st p e').
Proof.
  intros H He Hl. eapply well_linked_same_links; [done| | |].
  - intros q. erewrite load_store by done. case_decide as Hq; [|done].
    subst q. rewrite He. simpl. by rewrite Hl.
  - apply nbuf_store.
  - apply nhead_store.
Qed.

Lemma well_linked_init NBUF : well_linked (init NBUF).
Proof.
  destruct (init_inv NBUF) as [[ls Hinv] _]. exists ls.
  split; [apply (ia_ok _ _ Hinv)|apply (ia_cov _ _ Hinv)].
Qed.

Lemma well_linked_released st d n b s :
  well_linked st -> released st d n b s -> well_linked s.
Proof.
  intros (ls & Hok & Hcov) [Hrel|[_ Hrel]].
  - destruct (lists_fast_released _ _ _ _ _ _ Hok Hrel) as [Hok' Hnb].
    exists ls. split; [done|]. intros i Hi. rewrite Hnb in Hi. by apply Hcov.
  - destruct (lists_slow_released (mid st (bucket_of n)) ls d n b s) as (i & _ & Hok' & Hcov');
      [by do 2 apply lists_ok_emit|done|done|].
    by eexists.
Qed.

Lemma well_linked_bget me d n st st' :
  well_linked st -> final (bget me d n st) = Some st' -> well_linked st'.
Proof.
  intros Hwl Hfin. destruct Hwl as (ls & Hok & Hcov).
  pose proof (bget_outcome me d n st ls Hok Hcov) as Hout.
  assert (well_linked st) as Hwl by (by exists ls).
  destruct (bget me d n st) as [b s'|msg s'|b s'| |]; try done; injection Hfin as ->.
  - destruct Hout as (s & e1 & Hrel & He1 & _ & ->).
    apply (well_linked_store _ _ e1); [by eapply well_linked_released|done|done].
  - destruct Hout as (_ & _ & _ & js & _ & ->).
    eapply well_linked_same_links; [done| |done|done].
    intros q. unfold slow_entry. by rewrite load_probing, !load_emit, load_mid.
  - destruct Hout as (e1 & Hrel & _). by eapply well_linked_released.
Qed.

Lemma well_linked_bread me d n st st' :
  well_linked st -> final (bread me d n st) = Some st' -> well_linked st'.
Proof.
  intros Hwl Hfin. unfold bread in Hfin. unfold mbind at 1, M_bind at 1 in Hfin.
  destruct (bget me d n st) as [b s|msg s|b s| |] eqn:Hg; try done.
  - assert (well_linked s) as Hs by (apply (well_linked_bget me d n st); [done|by rewrite Hg]).
    unfold mbind at 1, M_bind at 1, rd in Hfin.
    destruct (load s b) as [e|] eqn:He; [|done].
    destruct (valid e =? 0).
    + unfold mbind, M_bind, virtio_disk_rw in Hfin. rewrite He in Hfin.
      unfold upd in Hfin. rewrite load_emit in Hfin.
      erewrite load_store_eq in Hfin by done. injection Hfin as <-.
      eapply (well_linked_store _ _ (set_data (disk_lookup (bc_disk s) (dev e) (blockno e)) e));
        [|by rewrite load_emit; erewrite load_store_eq|done].
      apply well_linked_emit. by apply (well_linked_store _ _ e).
    + by injection Hfin as <-.
  - injection Hfin as <-. apply (well_linked_bget me d n st); [done|by rewrite Hg].
  - injection Hfin as <-. apply (well_linked_bget me d n st); [done|by rewrite Hg].
Qed.

Lemma well_linked_brelse me i st st' :
  well_linked st -> (i < length (bc_buf st))%nat ->
  final (brelse me (Bf i) st) = Some st' -> well_linked st'.
Proof.
  intros Hwl Hi Hfin. destruct (lookup_lt_is_Some_2 (bc_buf st) i Hi) as [e He].
  change (bc_buf st !! i = Some e) with (load st (Bf i) = Some e) in He.
  destruct (holding e me) eqn:Hh.
  - destruct Hwl as (ls & Hok & Hcov).
    destruct (brelse_eval me i e st ls Hok Hcov He Hh)
      as (s & e' & Hrun & _ & _ & _ & _ & Hok' & Hnb).
    rewrite Hrun in Hfin. injection Hfin as <-.
    eexists. split; [done|]. intros c Hc. rewrite Hnb in Hc.
    destruct (Hcov c Hc) as [k Hk]. destruct (wrap32 (refcnt e - 1) =? 0); [|by exists k].
    destruct (decide (c = i)) as [->|Hne].
    + exists (bucket_of (blockno e)). apply moved_elem. by left.
    + exists k. apply moved_elem. by right.
  - rewrite (brelse_unheld _ _ _ _ He Hh) in Hfin. by injection Hfin as <-.
Qed.

(** Every call of the interface takes well-formed lists to well-formed
    lists, however it ends. *)
Lemma well_linked_exec c st st' :
  well_linked st -> call_ok st c -> final (exec c st) = Some st' -> well_linked st'.
Proof.
  intros Hwl Hc Hfin.
  destruct c as [me d n|me d n|me b|me b|b|b]; simpl in Hc; cbv beta iota delta [exec] in Hfin.
  - apply (well_linked_bget me d n st); [done|].
    unfold mbind, M_bind in Hfin. by destruct (bget me d n st).
  - apply (well_linked_bread me d n st); [done|].
    unfold mbind, M_bind in Hfin. by destruct (bread me d n st).
  - destruct Hc as (i & -> & Hi).
    destruct (lookup_lt_is_Some_2 (bc_buf st) i Hi) as [e He].
    change (bc_buf st !! i = Some e) with (load st (Bf i) = Some e) in He.
    destruct (holding e me) eqn:Hh.
    + rewrite (bwrite_held _ _ _ _ He Hh) in Hfin. apply final_Ret in Hfin as ->.
      by eapply well_linked_same_links.
    + rewrite (bwrite_unheld _ _ _ _ He Hh) in Hfin. by injection Hfin as <-.
  - destruct Hc as (i & -> & Hi). by eapply well_linked_brelse.
  - destruct Hc as (i & -> & Hi).
    destruct (lookup_lt_is_Some_2 (bc_buf st) i Hi) as [e He].
    change (bc_buf st !! i = Some e) with (load st (Bf i) = Some e) in He.
    rewrite (bpin_eval _ _ _ He) in Hfin. apply final_Ret in Hfin as ->.
    apply well_linked_emit. apply (well_linked_store _ _ e); [by apply well_linked_emit|..]; done.
  - destruct Hc as (i & -> & Hi).
    destruct (lookup_lt_is_Some_2 (bc_buf st) i Hi) as [e He].
    change (bc_buf st !! i = Some e) with (load st (Bf i) = Some e) in He.
    rewrite (bunpin_eval _ _ _ He) in Hfin. apply final_Ret in Hfin as ->.
    apply well_linked_emit. apply (well_linked_store _ _ e); [by apply well_linked_emit|..]; done.
Qed.

Lemma well_linked_run c st :
  well_linked st -> call_ok st c -> well_linked (run (exec c) st).
Proof.
  intros Hwl Hc. unfold run. destruct (exec c st) as [a s|msg s|b s| |] eqn:Hrun; try done;
    simpl; apply (well_linked_exec c st); try done; by rewrite Hrun.
Qed.

Lemma well_linked_run_bget me d n st : well_linked st -> well_linked (run (bget me d n) st).
Proof.
  intros Hwl. unfold run. destruct (bget me d n st) as [a s|msg s|b s| |] eqn:Hrun; try done;
    simpl; apply (well_linked_bget me d n st); try done; by rewrite Hrun.
Qed.

Lemma pinned12_well_linked : well_linked pinned12.
Proof. do 2 apply well_linked_run_bget. apply well_linked_init. Qed.

Lemma pinned0_well_linked : well_linked pinned0.
Proof. do 3 apply well_linked_run_bget. apply well_linked_init. Qed.

(** ** The discipline of the spin locks *)

Lemma wl_acq held l r :
  l ∉ held -> well_locked held (Acq l :: r) = well_locked (l :: held) r.
Proof. intros H. simpl. by rewrite bool_decide_eq_false_2. Qed.

Lemma wl_rel held l r : well_locked (l :: held) (Rel l :: r) = well_locked held r.
Proof.
  change (well_locked (l :: held) (Rel l :: r))
    with (bool_decide (l ∈ l :: held) && well_locked (remove_lock l (l :: held)) r).
  rewrite bool_decide_eq_true_2 by (apply elem_of_cons; by left).
  by rewrite remove_lock_top.
Qed.

Lemma ha_rel held l r : held_after (l :: held) (Rel l :: r) = held_after held r.
Proof.
  change (held_after (l :: held) (Rel l :: r)) with (held_after (remove_lock l (l :: held)) r).
  by rewrite remove_lock_top.
Qed.

Lemma wl_probe held js r :
  Forall (fun j => Bucket j ∉ held) js ->
  well_locked held (probe_log js ++ r) = well_locked held r.
Proof.
  induction 1 as [|j js Hj _ IH]; [done|].
  change (probe_log (j :: js) ++ r) with (Acq (Bucket j) :: Rel (Bucket j) :: (probe_log js ++ r)).
  by rewrite wl_acq, wl_rel.
Qed.

Lemma ha_probe held js r : held_after held (probe_log js ++ r) = held_after held r.
Proof.
  induction js as [|j js IH]; [done|].
  change (probe_log (j :: js) ++ r) with (Acq (Bucket j) :: Rel (Bucket j) :: (probe_log js ++ r)).
  change (held_after held (Acq (Bucket j) :: Rel (Bucket j) :: (probe_log js ++ r)))
    with (held_after (Bucket j :: held) (Rel (Bucket j) :: (probe_log js ++ r))).
  by rewrite ha_rel.
Qed.

Lemma wl_disk ev evs : forall held,
  match ev with DiskRead _ _ | DiskWrite _ _ _ => True | _ => False end ->
  well_locked held (evs ++ [ev]) = well_locked held evs /\
  held_after held (evs ++ [ev]) = held_after held evs.
Proof.
  induction evs as [|[l|l|d b|d b bytes] evs IH]; intros held Hev; simpl.
  - by destruct ev.
  - destruct (IH (l :: held) Hev) as [-> ->]. done.
  - destruct (IH (remove_lock l held) Hev) as [-> ->]. done.
  - by apply IH.
  - by apply IH.
Qed.

Lemma not_held_1 i j : j <> i -> Bucket j ∉ [Bucket i; Global].
Proof.
  intros Hne [H|H]%elem_of_cons; [congruence|].
  apply elem_of_cons in H as [H|H]; [done|by apply elem_of_nil in H].
Qed.

Lemma disciplined_pair st id :
  disciplined st [] (emit (Rel (Bucket id)) (emit (Acq (Bucket id)) st)).
Proof.
  exists [Acq (Bucket id); Rel (Bucket id)]. split_and!.
  - unfold appends. simpl. by rewrite <- app_assoc.
  - rewrite wl_acq, wl_rel; [done|]. apply not_elem_of_nil.
  - exact (ha_rel [] _ []).
Qed.

Lemma disciplined_store st tail st' p v :
  disciplined st tail st' -> disciplined st tail (store st' p v).
Proof.
  intros (evs & H & Hc). exists evs. split; [|done]. unfold appends. by rewrite log_store.
Qed.

Lemma disciplined_refl st : disciplined st [] st.
Proof. exists []. split; [|done]. unfold appends. by rewrite app_nil_r. Qed.

Lemma released_disciplined st d n b s : released st d n b s -> disciplined st [] s.
Proof.
  intros [H|[_ H]].
  - exists [Acq (Bucket (bucket_of n)); Rel (Bucket (bucket_of n))]. split_and!.
    + apply (fast_released_log _ _ _ _ _ H).
    + rewrite wl_acq, wl_rel; [done|]. apply not_elem_of_nil.
    + exact (ha_rel [] _ []).
  - apply slow_released_log in H as (js & e0 & Hjs & _ & _ & Hne & Hlog).
    set (id := bucket_of n) in *. set (new := bucket_of (blockno e0)) in *.
    exists ([Acq (Bucket id); Rel (Bucket id); Acq Global; Acq (Bucket id)] ++ probe_log js ++
            [Acq (Bucket new); Rel (Bucket new); Rel (Bucket id); Rel Global]).
    split_and!.
    + unfold appends. rewrite Hlog. unfold mid. simpl. by rewrite <- !app_assoc.
    + simpl app. rewrite wl_acq by apply not_elem_of_nil. rewrite wl_rel.
      rewrite wl_acq by apply not_elem_of_nil.
      rewrite wl_acq by (intros [H|H]%elem_of_cons; [done|by apply elem_of_nil in H]).
      rewrite wl_probe by (eapply Forall_impl; [done|]; intros j Hj; by apply not_held_1).
      rewrite wl_acq by (by apply not_held_1). by rewrite !wl_rel.
    + simpl app.
      change (held_after [] (Acq (Bucket id) :: Rel (Bucket id) :: Acq Global :: Acq (Bucket id) :: ?r))
        with (held_after [Bucket id] (Rel (Bucket id) :: Acq Global :: Acq (Bucket id) :: r)).
      rewrite ha_rel.
      change (held_after [] (Acq Global :: Acq (Bucket id) :: ?r))
        with (held_after [Bucket id; Global] r).
      rewrite ha_probe.
      change (held_after ?h (Acq (Bucket new) :: ?r)) with (held_after (Bucket new :: h) r).
      by rewrite !ha_rel.
Qed.

Lemma bget_disciplined me d n st :
  wp (bget me d n) (fun _ => disciplined st [])
    (fun _ => disciplined st [Bucket (bucket_of n); Global])
    (fun _ => disciplined st []) st.
Proof.
  eapply wp_mono; [apply bget_spec| | |].
  - intros b st' (s & e1 & Hrel & _ & _ & ->).
    apply disciplined_store. by eapply released_disciplined.
  - intros msg st' (_ & _ & _ & js & Hjs & ->). set (id := bucket_of n) in *.
    exists ([Acq (Bucket id); Rel (Bucket id); Acq Global; Acq (Bucket id)] ++ probe_log js ++ []).
    split_and!.
    + unfold appends, probing, slow_entry, mid. simpl. by rewrite !app_nil_r, <- !app_assoc.
    + simpl app. rewrite wl_acq by apply not_elem_of_nil. rewrite wl_rel.
      rewrite wl_acq by apply not_elem_of_nil.
      rewrite wl_acq by (intros [H|H]%elem_of_cons; [done|by apply elem_of_nil in H]).
      by rewrite wl_probe by (eapply Forall_impl; [done|]; intros j Hj; by apply not_held_1).
    + simpl app.
      change (held_after [] (Acq (Bucket id) :: Rel (Bucket id) :: Acq Global :: Acq (Bucket id) :: ?r))
        with (held_after [Bucket id] (Rel (Bucket id) :: Acq Global :: Acq (Bucket id) :: r)).
      rewrite ha_rel.
      change (held_after [] (Acq Global :: Acq (Bucket id) :: ?r))
        with (held_after [Bucket id; Global] r).
      by rewrite ha_probe.
  - intros b st' (e1 & Hrel & _). by eapply released_disciplined.
Qed.

Lemma exec_disciplined c st :
  wp (exec c) (fun _ => disciplined st []) (fun _ => disciplined st (held_at_panic c))
    (fun _ => disciplined st []) st.
Proof.
  destruct c as [me d n|me d n|me b|me b|b|b]; simpl.
  - apply wp_bind. eapply wp_mono; [apply bget_disciplined| |done|done].
    intros b st' H. by wp_steps.
  - apply wp_bind. unfold bread. apply wp_bind.
    eapply wp_mono; [apply bget_disciplined| |done|done].
    intros b st1 H1. wp_steps. destruct (valid e =? 0).
    + wp_steps. apply wp_virtio_disk_rw. intros e' He' Happ Hfr. wp_steps.
      apply disciplined_store. destruct H1 as (evs & H1 & Hc & Hh).
      exists (evs ++ [disk_event e' false]). split; [by eapply appends_trans|].
      destruct (wl_disk (disk_event e' false) evs [] I) as [-> ->]. done.
    + by wp_steps.
  - unfold bwrite, holdingsleep. wp_steps. destruct (negb _).
    + wp_steps. apply disciplined_refl.
    + apply wp_virtio_disk_rw. intros e' He' Happ Hfr.
      exists [disk_event e' true]. split; [done|]. by destruct e'.
  - unfold brelse, holdingsleep. wp_steps. destruct (negb _).
    { wp_steps. apply disciplined_refl. }
    unfold releasesleep. wp_steps.
    match goal with |- wp _ _ _ _ ?s => set (st3 := s) end.
    assert (appends st st3 [Acq (Bucket (bucket_of (blockno e1)))]) as Happ.
    { unfold appends, st3. rewrite log_store. simpl. by rewrite log_store. }
    assert (forall s, bc_log s = bc_log st3 ->
              disciplined st [] (emit (Rel (Bucket (bucket_of (blockno e1)))) s)) as Hfin.
    { intros s Hs.
      exists [Acq (Bucket (bucket_of (blockno e1))); Rel (Bucket (bucket_of (blockno e1)))].
      split_and!.
      - unfold appends in *. simpl. rewrite Hs, Happ. by rewrite <- app_assoc.
      - rewrite wl_acq, wl_rel; [done|]. apply not_elem_of_nil.
      - exact (ha_rel [] _ []). }
    destruct (refcnt e3 =? 0).
    + eapply wp_mono; [apply move_to_head_payload| |done|done].
      intros [] s [Hsp _]. wp_steps. apply Hfin. apply (sp_log _ _ Hsp).
    + wp_steps. by apply Hfin.
  - unfold bpin. wp_steps. rewrite <- store_emit. apply disciplined_store.
    apply disciplined_pair.
  - unfold bunpin. wp_steps. rewrite <- store_emit. apply disciplined_store.
    apply disciplined_pair.
Qed.

(** ** What bio_after.c does differently *)

Lemma kept_links_refl st : kept_links st st.
Proof. split; [|done]. exists []. unfold appends. by rewrite app_nil_r. Qed.

Lemma kept_links_trans st1 st2 st3 :
  kept_links st1 st2 -> kept_links st2 st3 -> kept_links st1 st3.
Proof.
  intros [[evs H1] L1] [[evs' H2] L2]. split.
  - exists (evs ++ evs'). by eapply appends_trans.
  - intros q. by rewrite L2, L1.
Qed.

Lemma kept_links_emit st ev : kept_links st (emit ev st).
Proof. split; [by exists [ev]|]. intros q. by rewrite load_emit. Qed.

Lemma kept_links_store st p e v :
  load st p = Some e -> links v = links e -> kept_links st (store st p v).
Proof.
  intros He Hl. split.
  - exists []. unfold appends. by rewrite log_store, app_nil_r.
  - intros q. rewrite (load_store _ _ _ _ _ He). case_decide as Hq; [|done].
    subst q. rewrite He. simpl. by rewrite Hl.
Qed.

Lemma kept_links_dll st st' k l : kept_links st st' -> dll st k l -> dll st' k l.
Proof.
  intros [_ Hl] Hdl.
  assert (forall q, nxt st' q = nxt st q) as Hn.
  { intros q. unfold nxt. specialize (Hl q). unfold links in Hl.
    destruct (load st' q), (load st q); simpl in *; congruence. }
  assert (forall q, prv st' q = prv st q) as Hp.
  { intros q. unfold prv. specialize (Hl q). unfold links in Hl.
    destruct (load st' q), (load st q); simpl in *; congruence. }
  eapply path_frame; [apply Hdl|auto|auto].
Qed.

Lemma After_steal_kept me d n id bs : forall st,
  let Q := fun st' =>
    kept_links st st' /\
    match bs with
    | [] => True
    | i :: _ => forall e, load st (Bf i) = Some e ->
        exists evs, appends st st' (Acq (Bucket (bucket_of (blockno e))) :: evs)
    end in
  wp (After.bget_steal me d n id bs) (fun _ => Q) never (fun _ => Q) st.
Proof.
  induction bs as [|i bs IH]; intros st Q.
  { simpl. wp_steps. split; [apply kept_links_refl|done]. }
  simpl. wp_steps. rewrite load_emit in H0. same_load.
  set (s1 := emit (Acq (Bucket (bucket_of (blockno e)))) st).
  assert (forall s', kept_links s1 s' -> Q s') as Hfin.
  { intros s' Hk. split.
    - eapply kept_links_trans; [apply kept_links_emit|done].
    - intros e' He'. same_load. destruct Hk as [[evs Hevs] _]. exists evs.
      unfold appends in *. rewrite Hevs. simpl. by rewrite <- app_assoc. }
  destruct (refcnt e =? 0).
  - wp_steps.
    repeat match goal with
      | H : load (store _ _ _) _ = Some _ |- _ =>
          erewrite load_store_eq in H by (by rewrite ?load_emit); injection H as <-
      end.
    unfold s1 in H0. rewrite load_emit in H0. same_load. rewrite !store_store.
    change (set_refcnt 1 (set_valid 0 (set_blockno n (set_dev d e)))) with (claimed d n e).
    assert (kept_links s1 (emit (Rel (Bucket (bucket_of (blockno e))))
                             (emit (Rel (Bucket id)) (emit (Rel Global)
                                (store s1 (Bf i) (claimed d n e)))))) as Hk.
    { eapply kept_links_trans; [|apply kept_links_emit].
      eapply kept_links_trans; [|apply kept_links_emit].
      eapply kept_links_trans; [|apply kept_links_emit].
      apply (kept_links_store _ _ e); [unfold s1; by rewrite load_emit|done]. }
    apply wp_acquiresleep. intros e9 He9. split; intros Hl.
    + wp_steps. apply Hfin. eapply kept_links_trans; [apply Hk|].
      by apply (kept_links_store _ _ e9).
    + by apply Hfin.
  - wp_steps. fold s1.
    eapply wp_mono; [apply IH| |done|].
    + intros r s' [Hk _]. apply Hfin.
      eapply kept_links_trans; [apply kept_links_emit|done].
    + intros b s' [Hk _]. apply Hfin.
      eapply kept_links_trans; [apply kept_links_emit|done].
Qed.

Lemma After_bget_kept me d n st :
  wp (After.bget me d n) (fun _ => kept_links st) (fun _ => kept_links st)
    (fun _ => kept_links st) st.
Proof.
  unfold After.bget. wp_steps. rewrite load_emit in H.
  set (st0 := emit (Acq (Bucket (bucket_of n))) st).
  assert (kept_links st st0) as H0 by apply kept_links_emit.
  eapply wp_mono; [apply bget_cached_spec| |done|].
  - intros [b|] st1.
    + intros (k & e0 & _ & _ & _ & He0 & _ & _ & _ & ->). wp_steps.
      eapply kept_links_trans; [apply H0|]. unfold hit_state.
      eapply kept_links_trans; [apply (kept_links_store st0 b e0 (bump e0) He0 eq_refl)|].
      eapply kept_links_trans; [apply kept_links_emit|].
      apply (kept_links_store _ _ (bump e0)); [|done].
      rewrite load_emit. by erewrite load_store_eq.
    + intros (-> & _). wp_steps.
      eapply wp_mono; [apply After_steal_kept| |done|].
      * intros r s' [Hk _].
        assert (kept_links st s') as Hs.
        { eapply kept_links_trans; [apply H0|].
          do 3 (eapply kept_links_trans; [apply kept_links_emit|]). done. }
        destruct r as [b|]; wp_steps; [done|].
        eapply kept_links_trans; [apply Hs|].
        eapply kept_links_trans; apply kept_links_emit.
      * intros b s' [Hk _]. eapply kept_links_trans; [apply H0|].
        do 3 (eapply kept_links_trans; [apply kept_links_emit|]). done.
  - intros b st1 (k & e0 & _ & _ & _ & He0 & _ & _ & _ & ->).
    eapply kept_links_trans; [apply H0|]. unfold hit_state.
    eapply kept_links_trans; [apply (kept_links_store st0 b e0 (bump e0) He0 eq_refl)|].
    apply kept_links_emit.
Qed.

Lemma nowhere_nomatch st d n b e :
  nowhere st d n = true -> load st b = Some e -> nomatch d n e.
Proof.
  unfold nowhere. intros H He. rewrite forallb_forall in H.
  assert (In e (bc_buf st ++ bc_head st)) as Hin.
  { apply list_elem_of_In, elem_of_app. destruct b as [|k|i]; [done| |].
    - right. by eapply list_elem_of_lookup_2.
    - left. by eapply list_elem_of_lookup_2. }
  apply H in Hin. unfold nomatch. by apply negb_true_iff in Hin.
Qed.

(** bio_after.c takes the lock of the target bucket a second time when the
    first buffer of the array hashes to that bucket. *)
Lemma After_bget_second_acquire me d n st e :
  load st (Bf 0) = Some e -> bucket_of (blockno e) = bucket_of n ->
  nowhere st d n = true ->
  let id := bucket_of n in
  let R := fun st' =>
    exists evs, appends st st'
      ([Acq (Bucket id); Rel (Bucket id); Acq Global; Acq (Bucket id); Acq (Bucket id)] ++ evs) in
  wp (After.bget me d n) (fun _ => R) (fun _ => R) (fun _ => R) st.
Proof.
  intros He Hid Hno id R. unfold After.bget. fold id. wp_steps. rewrite load_emit in H.
  set (st0 := emit (Acq (Bucket id)) st).
  eapply wp_mono; [apply bget_cached_spec| |done|].
  - intros [b|] st1.
    + intros (k & em & _ & _ & _ & Hem & Hd0 & Hn0 & _). exfalso.
      unfold st0 in Hem. rewrite load_emit in Hem.
      by destruct (nomatch_differs d n em (nowhere_nomatch _ _ _ _ _ Hno Hem)).
    + intros (-> & _). wp_steps.
      set (s3 := emit (Acq (Bucket id)) (emit (Acq Global) (emit (Rel (Bucket id)) st0))).
      assert (exists m, length (bc_buf s3) = S m) as [m ->].
      { apply lookup_lt_Some in He. simpl in *. destruct (length (bc_buf st)); [lia|eauto]. }
      assert (load s3 (Bf 0) = Some e) as He3 by (unfold s3, st0; by rewrite !load_emit).
      assert (forall s', (exists evs, appends s3 s' (Acq (Bucket id) :: evs)) -> R s') as Hfin.
      { intros s' [evs Hevs]. exists evs. unfold appends in *. rewrite Hevs.
        unfold s3, st0. simpl. by rewrite <- !app_assoc. }
      eapply wp_mono; [apply After_steal_kept| |done|].
      * intros r s' [Hk Hfirst]. change (seq 0 (S m)) with (0%nat :: seq 1 m) in Hfirst.
        destruct (Hfirst e He3) as [evs Hevs]. rewrite Hid in Hevs. fold id in Hevs.
        destruct r as [b|]; wp_steps.
        -- apply Hfin. by exists evs.
        -- apply Hfin. exists (evs ++ [Rel Global; Rel (Bucket id)]).
           unfold appends in *. simpl. rewrite Hevs. simpl. by rewrite <- !app_assoc.
      * intros b s' [Hk Hfirst]. change (seq 0 (S m)) with (0%nat :: seq 1 m) in Hfirst.
        destruct (Hfirst e He3) as [evs Hevs]. rewrite Hid in Hevs. fold id in Hevs.
        apply Hfin. by exists evs.
  - intros b st1 (k & em & _ & _ & _ & Hem & Hd0 & Hn0 & _). exfalso.
    unfold st0 in Hem. rewrite load_emit in Hem.
    by destruct (nomatch_differs d n em (nowhere_nomatch _ _ _ _ _ Hno Hem)).
Qed.

Lemma sys_shared_serial : serial 30 sys_shared.
Proof.
  eapply serial_next; [eapply serial_next; [eapply serial_next; [apply serial_init|]|]|].
  - apply (serial_bget_return _ 7 1 12 (Bf 12)). vm_compute. reflexivity.
  - apply (serial_bget_return (SerialSys (run (bget 7 1 12) pool30) []) 7 1 25 (Bf 25)).
    vm_compute. reflexivity.
  - apply (serial_bget_return
             (SerialSys (run (bget 7 1 25) (run (bget 7 1 12) pool30)) []) 8 1 38 (Bf 0)).
    vm_compute. reflexivity.
Qed.


(** ** binit, list by list *)

Lemma filter_none (P : nat -> Prop) `{forall x, Decision (P x)} (l : list nat) :
  (forall x, x ∈ l -> ~ P x) -> filter P l = [].
Proof.
  induction l as [|a l IH]; intros Hl; [done|].
  rewrite filter_cons_False by (apply Hl, elem_of_cons; by left).
  apply IH. intros x Hx. apply Hl, elem_of_cons. by right.
Qed.

Lemma mod13_gap k x : (k < x < k + 13)%nat -> (x mod 13 <> k mod 13)%nat.
Proof.
  intros Hx Heq. pose proof (Nat.div_mod_eq x 13). pose proof (Nat.div_mod_eq k 13). lia.
Qed.

Lemma filter_stride i k m :
  (k mod 13 = i)%nat -> (0 < m)%nat ->
  filter (fun c => (c mod 13 = i)%nat) (seq k m)
  = k :: filter (fun c => (c mod 13 = i)%nat) (seq (k + 13) (m - 13)).
Proof.
  intros Hk Hm. destruct m as [|m]; [lia|].
  change (seq k (S m)) with (k :: seq (S k) m). rewrite filter_cons_True by done. f_equal.
  destruct (decide (m < 12)%nat) as [Hlt|Hge].
  - replace (S m - 13)%nat with 0%nat by lia. simpl.
    apply filter_none. intros x Hx%elem_of_seq. rewrite <- Hk. apply mod13_gap. lia.
  - replace m with (12 + (S m - 13))%nat at 1 by lia.
    rewrite seq_app, filter_app.
    rewrite filter_none.
    + simpl. f_equal. f_equal. lia.
    + intros x Hx%elem_of_seq. rewrite <- Hk. apply mod13_gap. lia.
Qed.

Lemma filter_from b NBUF :
  (b < 13)%nat ->
  filter (fun c => (c mod 13 = b)%nat) (seq b (NBUF - b))
  = filter (fun c => (c mod 13 = b)%nat) (seq 0 NBUF).
Proof.
  intros Hb. destruct (decide (b <= NBUF)%nat) as [Hle|Hgt].
  - replace NBUF with (b + (NBUF - b))%nat at 2 by lia.
    rewrite seq_app, filter_app. rewrite (filter_none _ (seq 0 b)); [done|].
    intros x Hx%elem_of_seq. rewrite Nat.mod_small by lia. lia.
  - replace (NBUF - b)%nat with 0%nat by lia. change (seq b 0) with (@nil nat).
    rewrite filter_nil. symmetry.
    apply filter_none. intros x Hx%elem_of_seq. rewrite Nat.mod_small by lia. lia.
Qed.

Lemma binit_bucket_lists NBUF i :
  (i < nbuckets)%nat ->
  forall fuel k st ls,
    lists_ok st ls -> all_free st -> length (bc_buf st) = NBUF ->
    (NBUF <= fuel + k)%nat -> (k mod 13 = i)%nat ->
    (forall b c, c ∈ ls b -> (c < k)%nat \/ (c mod 13 <> i)%nat) ->
    exists st', binit_bucket fuel NBUF i k st = Ret tt st' /\
      all_free st' /\ length (bc_buf st') = NBUF /\
      lists_ok st'
        (fun b => if decide (b = i)
                  then reverse (filter (fun c => (c mod 13 = i)%nat) (seq k (NBUF - k))) ++ ls b
                  else ls b).
Proof.
  intros Hi. induction fuel as [|fuel IH]; intros k st ls Hok Hfree Hlen Hfuel Hk Hold.
  { exists st. split_and!; try done. eapply lists_ok_ext; [|done].
    intros b. case_decide; [|done]. by replace (NBUF - k)%nat with 0%nat by lia. }
  rewrite binit_bucket_S. case_decide as Hlt.
  2:{ exists st. split_and!; try done. eapply lists_ok_ext; [|done].
      intros b. case_decide; [|done]. by replace (NBUF - k)%nat with 0%nat by lia. }
  assert (forall b, k ∉ ls b) as Hfresh.
  { intros b Hb. destruct (Hold b k Hb); [lia|done]. }
  pose proof (lo_dll _ _ Hok i Hi) as Hdl. unfold dll in Hdl.
  destruct (nxt_is_Some _ _ _ (path_first _ _ _ _ Hdl)) as (h & Hh & Hnext).
  destruct (lookup_lt_is_Some_2 (bc_buf st) k) as [eb Hb]; [lia|].
  destruct (push_front_eval (Bf k) i st h eb Hh Hb) as (st1 & Hrun & Hfree1 & Hnb & Hnh & V5 & V6).
  { done. }
  { rewrite Hnext. destruct (firstp_cases (ls i) (Hd i)) as [[_ ->]|(c & Hc & ->)]; [done|].
    intros [= ->]. by apply (Hfresh i). }
  { rewrite Hnext. destruct (prv_is_Some _ _ _ (path_first_prv _ _ _ _ Hdl)) as (e & -> & _). eauto. }
  { done. }
  rewrite Hnext in V5, V6.
  assert (lists_ok st1 (fun b => if decide (b = i) then k :: ls b else ls b)) as Hok1.
  { apply (pushed_lists_ok st _ ls k i Hok Hfresh); [lia|done|by split_and!]. }
  rewrite (bind_Ret _ _ _ _ _ Hrun).
  destruct (IH (k + 13)%nat st1 _ Hok1 Hfree1) as (st' & Hrun' & Hfree' & Hlen' & Hok').
  { lia. }
  { lia. }
  { rewrite <- Hk. replace (k + 13)%nat with (k + 1 * 13)%nat by lia.
    apply Nat.Div0.mod_add. }
  { intros b c. case_decide.
    - intros [->|Hc]%elem_of_cons; [left; lia|]. destruct (Hold b c Hc); [left; lia|by right].
    - intros Hc. destruct (Hold b c Hc); [left; lia|by right]. }
  exists st'. split_and!; try done. eapply lists_ok_ext; [|done].
  intros b. cbv beta. case_decide; [|done].
  rewrite (filter_stride i k (NBUF - k) Hk) by lia. rewrite reverse_cons.
  replace (NBUF - k - 13)%nat with (NBUF - (k + 13))%nat by lia.
  by rewrite <- app_assoc.
Qed.

Lemma binit_list_mod NBUF b c : c ∈ binit_list NBUF b -> (c mod 13 = b)%nat.
Proof.
  unfold binit_list. rewrite elem_of_reverse. by intros [H _]%list_elem_of_filter.
Qed.

Lemma binit_buckets_lists NBUF : forall n i st,
  (i + n = nbuckets)%nat ->
  lists_ok st (fun b => if decide (b < i)%nat then binit_list NBUF b else []) ->
  all_free st -> length (bc_buf st) = NBUF ->
  exists st', binit_buckets n NBUF i st = Ret tt st' /\ all_free st' /\
    lists_ok st' (fun b => if decide (b < i + n)%nat then binit_list NBUF b else []).
Proof.
  induction n as [|n IH]; intros i st Hin Hok Hfree Hlen.
  { exists st. split_and!; try done. eapply lists_ok_ext; [|done].
    intros b. cbv beta. by rewrite Nat.add_0_r. }
  assert (i < 13)%nat as Hi by (unfold nbuckets, NBUCKETS in Hin; lia).
  rewrite binit_buckets_S.
  destruct (binit_bucket_lists NBUF i Hi NBUF i st _ Hok Hfree Hlen)
    as (st1 & Hrun1 & Hfree1 & Hlen1 & Hok1).
  { lia. }
  { by apply Nat.mod_small. }
  { intros b c. case_decide as Hbi; [|by intros Hc%elem_of_nil].
    intros Hc%binit_list_mod. right. lia. }
  rewrite (bind_Ret _ _ _ _ _ Hrun1).
  destruct (IH (S i) st1) as (st' & Hrun' & Hfree' & Hok'); try done.
  { lia. }
  { eapply lists_ok_ext; [|done]. intros b. cbv beta.
    destruct (decide (b = i)) as [->|Hne].
    - rewrite decide_True by lia. rewrite (decide_False (P := (i < i)%nat)) by lia.
      rewrite app_nil_r. unfold binit_list. by rewrite filter_from.
    - destruct (decide (b < i)%nat); [by rewrite decide_True by lia|].
      by rewrite decide_False by lia. }
  exists st'. split_and!; try done. eapply lists_ok_ext; [|done].
  intros b. cbv beta. by replace (i + S n)%nat with (S i + n)%nat by lia.
Qed.

Lemma binit_runs NBUF : binit (boot NBUF) = Ret tt (init NBUF).
Proof.
  destruct (heads_ready_ok NBUF) as (Hok & Hfree & Hlen).
  destruct (binit_buckets_ok NBUF nbuckets 0 (heads_ready NBUF) (fun _ => []))
    as (st' & ls' & Hrun & _); try done.
  { intros c. split; [intros [b Hb]; by apply elem_of_nil in Hb|lia]. }
  assert (binit (boot NBUF) = Ret tt st') as Heq.
  { unfold binit.
    change ((nbuf ≫= ?k) (boot NBUF)) with (k (length (bc_buf (boot NBUF))) (boot NBUF)).
    cbv beta. rewrite (bind_Ret _ _ _ _ _ (binit_heads_eval NBUF)).
    assert (length (bc_buf (boot NBUF)) = NBUF) as -> by apply length_replicate.
    fold nbuckets. by rewrite Hrun. }
  unfold init. by rewrite Heq.
Qed.

Lemma init_lists NBUF :
  lists_ok (init NBUF) (fun b => if decide (b < nbuckets)%nat then binit_list NBUF b else []).
Proof.
  destruct (heads_ready_ok NBUF) as (Hok & Hfree & Hlen).
  destruct (binit_buckets_lists NBUF nbuckets 0 (heads_ready NBUF)) as (st' & Hrun & _ & Hok').
  { reflexivity. }
  { eapply lists_ok_ext; [|exact Hok]. intros b. cbv beta. by rewrite decide_False by lia. }
  { exact Hfree. }
  { exact Hlen. }
  assert (binit (boot NBUF) = Ret tt st') as Heq.
  { unfold binit.
    change ((nbuf ≫= ?k) (boot NBUF)) with (k (length (bc_buf (boot NBUF))) (boot NBUF)).
    cbv beta. rewrite (bind_Ret _ _ _ _ _ (binit_heads_eval NBUF)).
    assert (length (bc_buf (boot NBUF)) = NBUF) as -> by apply length_replicate.
    fold nbuckets. exact Hrun. }
  rewrite binit_runs in Heq. apply Ret_inj in Heq as [_ ->]. exact Hok'.
Qed.

Lemma pristine_store st p e v :
  pristine st -> load st p = Some e -> payload v = payload e -> pristine (store st p v).
Proof.
  intros (Hp & Hl & Hd') He Hv. split_and!.
  - intros q e' Hq. rewrite (load_store _ _ _ _ _ He) in Hq. case_decide; [|by eapply Hp].
    injection Hq as <-. rewrite Hv. by eapply Hp.
  - by rewrite log_store.
  - by rewrite disk_store.
Qed.

Lemma pristine_boot NBUF : pristine (boot NBUF).
Proof.
  split_and!; try done. intros [|k|i] e He; [done| |]; unfold load, boot in He;
    cbn [bc_head bc_buf] in He; apply lookup_replicate in He as [-> _]; done.
Qed.

Lemma push_front_pristine b i st :
  pristine st -> wp (push_front b i) (fun _ => pristine) never never st.
Proof.
  intros Hp. unfold push_front. wp_steps.
  assert (lock e0 = Sleeplock 0 0) as Hl0.
  { destruct Hp as (Hp & _). pose proof (Hp _ _ H0) as Hpl. unfold payload in Hpl.
    simpl in Hpl. congruence. }
  repeat lazymatch goal with
    | |- pristine (store _ _ _) => eapply pristine_store; [|eassumption|]
    end; try done.
  assert (lock e2 = Sleeplock 0 0) as Hl2.
  { assert (pristine (store (store st b (set_next (next e) e0)) b (set_prev (Hd i) e1))) as Hp2.
    { eapply pristine_store; [|eassumption|done]. by eapply pristine_store. }
    destruct Hp2 as (Hp2 & _). pose proof (Hp2 _ _ H2) as Hpl. unfold payload in Hpl.
    simpl in Hpl. congruence. }
  unfold payload. simpl. by rewrite Hl2.
Qed.

Lemma binit_heads_pristine n : forall i st,
  pristine st -> wp (binit_heads n i) (fun _ => pristine) never never st.
Proof.
  induction n as [|n IH]; intros i st Hp; simpl; [by wp_steps|].
  wp_steps. apply IH. eapply pristine_store; [|eassumption|done].
  by eapply pristine_store.
Qed.

Lemma binit_bucket_pristine fuel NBUF i : forall k st,
  pristine st -> wp (binit_bucket fuel NBUF i k) (fun _ => pristine) never never st.
Proof.
  induction fuel as [|fuel IH]; intros k st Hp; [by wp_steps|].
  rewrite binit_bucket_S. case_decide; [|by wp_steps].
  apply wp_bind. eapply wp_mono; [by apply push_front_pristine| |done|done].
  intros [] st1 Hp1. by apply IH.
Qed.

Lemma binit_buckets_pristine n NBUF : forall i st,
  pristine st -> wp (binit_buckets n NBUF i) (fun _ => pristine) never never st.
Proof.
  induction n as [|n IH]; intros i st Hp; [by wp_steps|].
  rewrite binit_buckets_S. apply wp_bind.
  eapply wp_mono; [by apply binit_bucket_pristine| |done|done].
  intros [] st1 Hp1. by apply IH.
Qed.

Lemma init_pristine NBUF : pristine (init NBUF).
Proof.
  assert (wp binit (fun _ => pristine) never never (boot NBUF)) as H.
  { unfold binit. wp_steps. eapply wp_mono; [apply binit_heads_pristine| |done|done].
    - apply pristine_boot.
    - intros [] st1 Hp1. by apply binit_buckets_pristine. }
  by apply (wp_Ret _ _ _ _ _ _ _ H (binit_runs NBUF)).
Qed.

(** * The claims *)







(** C8.  brelse and bwrite panic when the caller does not hold the sleep
    lock of the buffer, and the state they stop in is the state they were
    called in; when the caller holds the lock, neither of them panics. *)
Theorem release_and_write_check_the_token st me b e :
  load st b = Some e ->
  (holding e me = false ->
     holdingsleep b me st = Ret false st /\
     brelse me b st = Panic "brelse" st /\ bwrite me b st = Panic "bwrite" st) /\
  (holding e me = true ->
     holdingsleep b me st = Ret true st /\
     (forall msg s, brelse me b st <> Panic msg s) /\
     (forall msg s, bwrite me b st <> Panic msg s)).
Proof.
  intros H. split; intros Hh.
  - split_and!.
    + by rewrite (holdingsleep_eval _ _ _ _ H), Hh.
    + by eapply brelse_unheld.
    + by eapply bwrite_unheld.
  - split_and!.
    + by rewrite (holdingsleep_eval _ _ _ _ H), Hh.
    + intros msg s. rewrite (brelse_held _ _ _ _ H Hh).
      destruct (_ =? 0); [|done]. intros Hp.
      assert (wp (move_to_head b (bucket_of (blockno e));;
                  release (Bucket (bucket_of (blockno e))))
                (fun _ _ => True) never never (brelse_dropped st b e)) as Hwp.
      { apply wp_bind. eapply wp_mono; [apply move_to_head_payload| |done|done].
        by intros [] s' _. }
      by eapply wp_Panic in Hwp.
    + intros msg s. by rewrite (bwrite_held _ _ _ _ H Hh).
Qed.

Lemma release_and_write_check_the_token_witness :
  (brelse 8 (Bf 0) (run (bget 7 1 0) pool30) = Panic "brelse" (run (bget 7 1 0) pool30) /\
   bwrite 8 (Bf 0) (run (bget 7 1 0) pool30) = Panic "bwrite" (run (bget 7 1 0) pool30)) /\
  ((forall msg s, brelse 7 (Bf 0) (run (bget 7 1 0) pool30) <> Panic msg s) /\
   (forall msg s, bwrite 7 (Bf 0) (run (bget 7 1 0) pool30) <> Panic msg s)).
Proof.
  assert (load (run (bget 7 1 0) pool30) (Bf 0)
          = Some (Buf 0 1 0 (Sleeplock 1 7) 1 (Bf 13) (Hd 0) [])) as H
      by (vm_compute; reflexivity).
  split.
  - apply (proj1 (release_and_write_check_the_token _ 8 _ _ H)). reflexivity.
  - apply (proj2 (release_and_write_check_the_token _ 7 _ _ H)). reflexivity.
Defined.




(** C6.  Whatever call of the interface runs and however it ends, the events
    it appends to the log take the global lock only while no bucket lock is
    held and drop it only after every bucket lock has been dropped; and the
    slow path of bget, when it returns, ends by dropping the lock of the
    probed buffer's bucket, then the lock of the target bucket, then the
    global lock. *)
Theorem coarse_lock_brackets_bucket_locks :
  (forall c st st', final (exec c st) = Some st' ->
     exists evs, bc_log st' = bc_log st ++ evs /\ coarse_first [] evs = true) /\
  (forall me d n st b st', bget_slow me d n st = Ret b st' ->
     exists js e0, load st b = Some e0 /\
       bc_log st' = bc_log st ++ [Acq Global; Acq (Bucket (bucket_of n))] ++ probe_log js ++
         [Acq (Bucket (bucket_of (blockno e0))); Rel (Bucket (bucket_of (blockno e0)));
          Rel (Bucket (bucket_of n)); Rel Global]).
Proof.
  split.
  - intros c st st' Hfin. by apply (wp_final _ _ _ _ (exec_locks_in_order c st)).
  - intros me d n st b st' Hret. pose proof (bget_slow_spec me d n st) as H.
    eapply wp_Ret in H; [|done]. destruct H as (s & e1 & Hrel & _ & _ & ->).
    apply slow_released_log in Hrel as (js & e0 & _ & He0 & _ & _ & Hlog).
    exists js, e0. split; [done|]. by rewrite log_store.
Qed.

Lemma coarse_lock_brackets_bucket_locks_witness :
  (exists evs, bc_log (run (exec (Cbget 7 1 38)) pinned12) = bc_log pinned12 ++ evs /\
               coarse_first [] evs = true) /\
  (exists js e0, load (mid pinned12 12) (Bf 0) = Some e0 /\
     bc_log (run (bget_slow 7 1 38) (mid pinned12 12)) =
       bc_log (mid pinned12 12) ++ [Acq Global; Acq (Bucket (bucket_of 38))] ++ probe_log js ++
         [Acq (Bucket (bucket_of (blockno e0))); Rel (Bucket (bucket_of (blockno e0)));
          Rel (Bucket (bucket_of 38)); Rel Global]).
Proof.
  split.
  - apply (proj1 coarse_lock_brackets_bucket_locks (Cbget 7 1 38) pinned12).
    vm_compute. reflexivity.
  - apply (proj2 coarse_lock_brackets_bucket_locks 7 1 38 (mid pinned12 12) (Bf 0)).
    vm_compute. reflexivity.
Defined.

(** bio_after.c drops the global lock first, while two bucket locks are
    still held. *)
Lemma After_bget_drops_global_lock_first :
  exists st' evs, After.bget 7 1 38 pinned12 = Ret (Bf 0) st' /\
    bc_log st' = bc_log pinned12 ++ evs /\
    evs = [Acq (Bucket 12); Rel (Bucket 12); Acq Global; Acq (Bucket 12);
           Acq (Bucket 0); Rel Global; Rel (Bucket 12); Rel (Bucket 0)] /\
    coarse_first [] evs = false.
Proof. do 2 eexists. split_and!; vm_compute; reflexivity. Qed.

(** C4, as amended.  The pool scan passes over every buffer whose block
    number hashes to the target bucket: it takes no lock for it and leaves it
    as it is, free or not.  The free buffers on the target bucket's list are
    claimed by the scan of that list which runs before: the buffer is
    relabelled, marked invalid and given the count 1 where it is, no pointer
    is changed and no lock is taken. *)
Theorem pool_scan_skips_target_bucket :
  (forall me d n id i bs st e,
     load st (Bf i) = Some e -> bucket_of (blockno e) = id ->
     bget_steal me d n id (i :: bs) st = bget_steal me d n id bs st) /\
  (forall fuel me d n id p st b st',
     bget_recycle fuel me d n id p st = Ret (Some b) st' ->
     exists e0, load st b = Some e0 /\ refcnt e0 = 0 /\
       load st' b = Some (Buf 0 d n (Sleeplock 1 me) 1 (prev e0) (next e0) (data e0)) /\
       (forall q, q <> b -> load st' q = load st q) /\
       bc_log st' = bc_log st ++ [Rel (Bucket id)]).
Proof.
  split.
  - intros me d n id i bs st e He Hid. simpl.
    rewrite (bind_rd _ _ _ _ He). by rewrite decide_True.
  - intros fuel me d n id p st b st' Hret.
    pose proof (bget_recycle_spec fuel me d n id p st) as H.
    eapply wp_Ret in H; [|done].
    destruct H as (k & e0 & _ & _ & _ & He0 & Hr & Hlk & ->).
    exists e0. unfold claim_state. split_and!; try done.
    + erewrite load_store_eq; [done|]. rewrite load_emit. by erewrite load_store_eq.
    + intros q Hq. by rewrite load_store_ne, load_emit, load_store_ne.
    + by rewrite log_store; simpl; rewrite log_store.
Qed.

Lemma pool_scan_skips_target_bucket_witness :
  bget_steal 9 1 39 0 (seq 0 30) pool30 = bget_steal 9 1 39 0 (seq 1 29) pool30 /\
  (exists e0, load pool30 (Bf 0) = Some e0 /\ refcnt e0 = 0 /\
     load (run (bget_recycle 5 7 1 0 0 (Bf 0)) pool30) (Bf 0)
       = Some (Buf 0 1 0 (Sleeplock 1 7) 1 (prev e0) (next e0) (data e0)) /\
     (forall q, q <> Bf 0 -> load (run (bget_recycle 5 7 1 0 0 (Bf 0)) pool30) q = load pool30 q) /\
     bc_log (run (bget_recycle 5 7 1 0 0 (Bf 0)) pool30) = bc_log pool30 ++ [Rel (Bucket 0)]).
Proof.
  split.
  - apply (proj1 pool_scan_skips_target_bucket 9 1 39 0%nat 0%nat (seq 1 29) pool30
             (Buf 0 0 0 (Sleeplock 0 0) 0 (Bf 13) (Hd 0) [])).
    + vm_compute. reflexivity.
    + reflexivity.
  - apply (proj2 pool_scan_skips_target_bucket 5%nat 7 1 0 0%nat (Bf 0) pool30 (Bf 0)).
    vm_compute. reflexivity.
Defined.

(** C4 as stated fails.  A caller misses in bucket 0 while its three
    buffers are pinned; before the caller enters the pool scan the holder of
    buffer 0 releases it.  The scan then meets buffer 0, which is free, on
    the list of the target bucket and hashes to it, and passes over it: the
    buffer is not claimed, and the call ends in the panic. *)
Lemma pool_scan_passes_over_free_buffer :
  let st_b := run (bget_fast 9 1 39) pinned0 in
  let st_c := run (brelse 7 (Bf 0)) st_b in
  bget_fast 9 1 39 pinned0 = Ret None st_b /\
  brelse 7 (Bf 0) st_b = Ret tt st_c /\
  (next <$> load st_c (Hd 0)) = Some (Bf 0) /\
  (refcnt <$> load st_c (Bf 0)) = Some 0 /\
  (bucket_of <$> (blockno <$> load st_c (Bf 0))) = Some (bucket_of 39) /\
  exists st', bget_slow 9 1 39 st_c = Panic "bget: no buffers" st' /\
    load st' (Bf 0) = load st_c (Bf 0).
Proof.
  split_and!; try (vm_compute; reflexivity).
  eexists. split; vm_compute; reflexivity.
Qed.

(** C5: the code panics although the pool has free buffers.  With the three
    buffers of bucket 0 pinned, a request for a fourth block of that bucket
    ends in "bget: no buffers" while the other 27 buffers have a reference
    count of 0: their block number is still 0, which hashes to the target
    bucket, and the pool scan passes over them. *)
Theorem bget_panics_while_buffers_are_free :
  (exists st', bget 7 1 39 pinned0 = Panic "bget: no buffers" st') /\
  length (filter (fun e => refcnt e = 0) (bc_buf pinned0)) = 27%nat.
Proof. split; [eexists|]; vm_compute; reflexivity. Qed.

(** C9.  In a sequential run, after bread of a block, a change of the
    buffer's data, bwrite and brelse, a second bread of the same block
    returns the same buffer, valid and holding the bytes written, and all it
    appends to the log is the taking and dropping of the bucket lock: it
    takes the hit path and calls the disk for no read. *)
Theorem second_bread_hits_the_cache st me d n b st1 bytes st2 st3 st4 :
  bread me d n st = Ret b st1 ->
  upd b (set_data bytes) st1 = Ret tt st2 ->
  bwrite me b st2 = Ret tt st3 ->
  brelse me b st3 = Ret tt st4 ->
  exists st5 e, bread me d n st4 = Ret b st5 /\ load st5 b = Some e /\
    valid e <> 0 /\ data e = bytes /\
    bc_log st5 = bc_log st4 ++ [Acq (Bucket (bucket_of n)); Rel (Bucket (bucket_of n))].
Proof.
  intros Hbread Hupd Hbwrite Hbrelse.
  apply bread_inv in Hbread
    as (sta & ea & e1 & Hg & Hea & He1 & Hv1 & Hd1 & Hn1 & Hl1 & Hr1 & Hfr1 & Hlen1).
  pose proof (bget_spec me d n st) as H. eapply wp_Ret in H; [|done].
  destruct H as (s & es & Hrel & Hes & Hlk & ->).
  erewrite load_store_eq in Hea by done. injection Hea as <-.
  assert (b <> Hd (bucket_of n)) as Hb by (by eapply released_not_head).
  pose proof (released_walk_len _ _ _ _ _ Hrel) as Hlens.
  destruct (released_reserved _ _ _ _ _ Hrel)
    as (e0 & es' & He0 & Hes' & Hds & Hns & _ & _ & Hcase & _).
  same_load.
  (* the change of the data and bwrite *)
  unfold upd in Hupd. rewrite He1 in Hupd. injection Hupd as <-.
  set (e2 := set_data bytes e1) in *.
  assert (load (store st1 b e2) b = Some e2) as He2 by (by erewrite load_store_eq).
  assert (holding e2 me = true) as Hh.
  { unfold holding, e2. simpl. rewrite Hl1. simpl. by rewrite Z.eqb_refl. }
  rewrite (bwrite_held _ _ _ _ He2 Hh) in Hbwrite. injection Hbwrite as <-.
  match type of Hbrelse with brelse _ _ ?s = _ => set (st3 := s) in * end.
  assert (load st3 b = Some e2) as He3 by done.
  assert (forall q, q <> b -> load st3 q = load s q) as Hfr3.
  { intros q Hq. transitivity (load (store st1 b e2) q); [by destruct q|].
    rewrite load_store_ne by done. rewrite Hfr1 by done. by rewrite load_store_ne. }
  assert (walk_len st3 = walk_len st) as Hlen3.
  { transitivity (walk_len (store st1 b e2)); [done|].
    by rewrite walk_len_store, Hlen1, walk_len_store. }
  assert (blockno e2 = n /\ dev e2 = d /\ refcnt e2 = refcnt es /\ valid e2 <> 0) as (Hn2 & Hd2 & Hr2 & Hv2).
  { unfold e2. simpl. rewrite Hn1, Hd1, Hr1. simpl. done. }
  (* brelse *)
  rewrite (brelse_held _ _ _ _ He3 Hh) in Hbrelse. rewrite Hn2 in Hbrelse.
  assert (forall st4 e4 h4 k,
            load st4 b = Some e4 -> payload e4 = payload (drop (unlocked e2)) ->
            load st4 (Hd (bucket_of n)) = Some h4 ->
            walk st4 next (bucket_of n) (nomatch d n) k (next h4) b ->
            (k < walk_len st4)%nat ->
            exists st5 e, bread me d n st4 = Ret b st5 /\ load st5 b = Some e /\
              valid e <> 0 /\ data e = bytes /\
              bc_log st5 = bc_log st4 ++ [Acq (Bucket (bucket_of n)); Rel (Bucket (bucket_of n))])
    as Hfinish.
  { clear Hbrelse. intros s4 e4 h4 k He4 Hp4 Hh4 Hw4 Hk4.
    apply payload_eq_fields in Hp4 as (Hv4 & Hd4 & Hn4 & Hl4 & Hr4 & Hdt4).
    simpl in *.
    eexists _, (granted me (bump e4)). split_and!.
    - eapply bread_hit.
      + eapply (bget_hit me d n k h4 b e4); try done; try congruence.
        by rewrite Hl4.
      + erewrite load_store_eq; [done|]. unfold hit_state. rewrite load_emit.
        erewrite load_store_eq; [done|]. by rewrite load_emit.
      + simpl. congruence.
    - erewrite load_store_eq; [done|]. unfold hit_state. rewrite load_emit.
      erewrite load_store_eq; [done|]. by rewrite load_emit.
    - simpl. congruence.
    - simpl. congruence.
    - rewrite log_store. unfold hit_state. simpl. rewrite log_store. simpl.
      by rewrite <- app_assoc. }
  destruct (wrap32 (refcnt e2 - 1) =? 0) eqn:Hz.
  - (* the count reached zero: the buffer is now first on its list *)
    apply bind_Ret_inv in Hbrelse as ([] & stm & Hmv & Hrel4).
    injection Hrel4 as <-.
    pose proof (move_to_head_payload b (bucket_of n) (brelse_dropped st3 b e2)) as Hsp.
    eapply wp_Ret in Hsp; [|done]. destruct Hsp as [Hsp Hnext].
    destruct (same_payload_load _ _ b (drop (unlocked e2)) Hsp) as (e4 & He4 & Hp4).
    { rewrite (load_brelse_dropped _ _ _ _ He3). by rewrite decide_True. }
    destruct (load stm (Hd (bucket_of n))) as [h4|] eqn:Hh4; [|done].
    injection Hnext as Hnext.
    apply (Hfinish _ e4 h4 0%nat); try (by rewrite load_emit).
    + done.
    + rewrite Hnext. constructor.
    + unfold walk_len. lia.
  - (* the count did not: nothing moved since the first bget, which was a hit *)
    injection Hbrelse as <-.
    assert (exists h k, load st (Hd (bucket_of n)) = Some h /\ (k < walk_len st)%nat /\
              walk st next (bucket_of n) (nomatch d n) k (next h) b /\
              dev e0 = d /\ blockno e0 = n /\
              forall q, q <> b -> load s q = load st q) as (h & k & Hh0 & Hk & Hw & Hd0 & Hn0 & Hfr0).
    { apply Z.eqb_neq in Hz. rewrite Hr2 in Hz.
      destruct Hrel as [Hf|[_ Hs]].
      - destruct Hf as [h k b e0' Hh0 Hk Hw _ He0' Hd0 Hn0|h k k' b e0' ? ? ? ? ? ? He0' ?].
        + same_load. exists h, k. split_and!; try done.
          intros q Hq. unfold hit_state. by rewrite load_emit, load_store_ne, load_emit.
        + exfalso. apply Hz. unfold claim_state in Hes. rewrite load_emit in Hes.
          erewrite load_store_eq in Hes by (by rewrite load_emit).
          by injection Hes as <-.
      - exfalso. apply Hz.
        pose proof (slow_released_log _ _ _ _ _ Hs) as (js & e0s & _ & He0s & Hr0s & _).
        apply slow_released_reserved in Hs as (e0s' & es' & He0s' & Hes' & _ & _ & _ & _ & Hc & _).
        same_load. destruct Hc as [(_ & _ & -> & _)|(_ & -> & _)]; [|done].
        by rewrite Hr0s. }
    assert (forall q, load (emit (Rel (Bucket (bucket_of n))) (brelse_dropped st3 b e2)) q
                      = if decide (b = q) then Some (drop (unlocked e2)) else load st q) as Hl4.
    { intros q. rewrite load_emit, (load_brelse_dropped _ _ _ _ He3).
      case_decide as Hq; [done|]. rewrite Hfr3 by done. by apply Hfr0. }
    apply (Hfinish _ (drop (unlocked e2)) h k).
    + rewrite Hl4. by rewrite decide_True.
    + done.
    + rewrite Hl4. by rewrite decide_False.
    + apply (walk_frame st _ next _ _ k _ _ b e0); [done|done| |].
      * unfold nomatch. rewrite Hd0, Hn0, !Z.eqb_refl. done.
      * intros r Hr. rewrite Hl4. by rewrite decide_False.
    + rewrite walk_len_emit. unfold brelse_dropped.
      rewrite walk_len_store, walk_len_emit, walk_len_store. by rewrite Hlen3.
Qed.

Lemma second_bread_hits_the_cache_witness :
  let st1 := run (bread 7 1 5) cached5 in
  let st2 := run (upd (Bf 5) (set_data [104; 105])) st1 in
  let st3 := run (bwrite 7 (Bf 5)) st2 in
  let st4 := run (brelse 7 (Bf 5)) st3 in
  exists st5 e, bread 7 1 5 st4 = Ret (Bf 5) st5 /\ load st5 (Bf 5) = Some e /\
    valid e <> 0 /\ data e = [104; 105] /\
    bc_log st5 = bc_log st4 ++ [Acq (Bucket (bucket_of 5)); Rel (Bucket (bucket_of 5))].
Proof.
  intros st1 st2 st3 st4.
  apply (second_bread_hits_the_cache cached5 7 1 5 (Bf 5) st1 [104; 105] st2 st3 st4);
    vm_compute; reflexivity.
Defined.

(** C3: the code breaks the claim.  The pool scan takes, for the buffer it
    probes, the lock of the bucket that the buffer's block number hashes to
    (lines 115-119), not the lock of the bucket on whose list the buffer is.
    Buffer 1 has never been used: it is on the list of bucket 1 and its
    block number is 0.  In [race_tested] caller 8, in the pool scan of
    bget(1, 38), holds the global lock and the locks of buckets 12 and 0,
    and caller 9, in bget(1, 1), holds the lock of bucket 1; both have read
    the count 0 of buffer 1 (lines 121 and 94) and both are about to write
    to it.  Caller 8 relabels the buffer, moves it to the list of bucket 12
    and returns with it; then caller 9 relabels it for block 1.  In
    [race_relabelled] no spin lock is held, buffer 1 has the count 1 and the
    block number 1, which hashes to bucket 1, and it is on the list of
    bucket 12. *)
Theorem steal_overlaps_recycling_in_another_bucket :
  reachable 30 race_tested /\
  held race_tested = [(Bucket 1, 9); (Bucket 0, 8); (Bucket 12, 8); (Global, 8)] /\
  about_to race_tested 8 = Some (OPut (Bf 1)) /\
  about_to race_tested 9 = Some (OPut (Bf 1)) /\
  (exists e, load (mem race_tested) (Bf 1) = Some e /\ refcnt e = 0 /\ blockno e = 0) /\
  dll (mem race_tested) 1 [27; 14; 1]%nat /\
  reachable 30 race_relabelled /\
  held race_relabelled = [] /\
  about_to race_relabelled 8 = None /\
  about_to race_relabelled 9 = Some (OAcquireSleep (Bf 1)) /\
  exists e, load (mem race_relabelled) (Bf 1) = Some e /\
    refcnt e = 1 /\ dev e = 1 /\ blockno e = 1 /\ lock e = Sleeplock 1 8 /\
    bucket_of (blockno e) = 1%nat /\
    dll (mem race_relabelled) 1 [27; 14]%nat /\
    dll (mem race_relabelled) 12 [1; 25; 12]%nat /\
    ~ on_list (mem race_relabelled) (bucket_of (blockno e)) 1.
Proof.
  assert (reachable 30 race_tested) as Hr.
  { do 3 apply play_reachable. apply reach_init. }
  split; [done|].
  split; [vm_compute; reflexivity|]. split; [vm_compute; reflexivity|].
  split; [vm_compute; reflexivity|].
  split; [eexists; split_and!; vm_compute; reflexivity|].
  split; [vm_compute; repeat split|].
  split; [by do 2 apply play_reachable|].
  split; [vm_compute; reflexivity|]. split; [vm_compute; reflexivity|].
  split; [vm_compute; reflexivity|].
  assert (dll (mem race_relabelled) 1 [27; 14]%nat) as Hdl by (vm_compute; repeat split).
  eexists. split; [vm_compute; reflexivity|].
  split; [reflexivity|]. split; [reflexivity|]. split; [reflexivity|].
  split; [reflexivity|]. split; [reflexivity|]. split; [done|].
  split; [vm_compute; repeat split|].
  intros (l & Hl & Hin). change (bucket_of (blockno _)) with 1%nat in Hl.
  rewrite <- (path_unique _ _ _ _ _ Hdl Hl) in Hin.
  apply elem_of_cons in Hin as [Hin|Hin]; [done|].
  apply elem_of_cons in Hin as [Hin|Hin]; [done|]. by apply elem_of_nil in Hin.
Qed.

(** C2: the code breaks the claim.  The state [race_second] is reachable:
    after the two misses the first caller's pool scan takes buffer 0 for
    block 38, and the second caller's pool scan, which does not look at the
    bucket again, takes buffer 1 for the same block.  Both buffers are then
    referenced and carry the identity (1, 38), and the two overlapping
    acquires were served by different buffers. *)
Theorem interleaved_misses_duplicate_a_block :
  reachable 30 race_second /\
  bget_slow 8 1 38 (mem race_missed) = Ret (Bf 0) (mem race_first) /\
  bget_slow 9 1 38 (mem race_first) = Ret (Bf 1) (mem race_second) /\
  exists e e', load (mem race_second) (Bf 0) = Some e /\
    load (mem race_second) (Bf 1) = Some e' /\
    refcnt e = 1 /\ refcnt e' = 1 /\
    dev e = 1 /\ dev e' = 1 /\ blockno e = 38 /\ blockno e' = 38.
Proof.
  split_and!.
  - do 4 apply play_reachable. apply reach_init.
  - vm_compute. reflexivity.
  - vm_compute. reflexivity.
  - do 2 eexists. split_and!; vm_compute; reflexivity.
Qed.

(** * More about the code *)

(** X1.  binit (lines 39-68), for a pool of any size.  binit runs to its
    end without taking a lock or calling the disk, and writes nothing but
    list pointers: every buffer is still unreferenced, unlocked and invalid.
    It puts buffer [c] on the list of bucket [c mod 13]; each list holds its
    buffers with the highest index first, the one pushed last, and a bucket
    that got no buffer keeps its head linked to itself. *)
Theorem binit_builds_the_buckets NBUF :
  binit (boot NBUF) = Ret tt (init NBUF) /\
  length (bc_buf (init NBUF)) = NBUF /\
  bc_log (init NBUF) = [] /\ bc_disk (init NBUF) = [] /\
  (forall i e, load (init NBUF) (Bf i) = Some e ->
     refcnt e = 0 /\ lock e = Sleeplock 0 0 /\ valid e = 0 /\ dev e = 0 /\ blockno e = 0) /\
  (forall k, (k < 13)%nat ->
     dll (init NBUF) k (reverse (filter (fun c => (c mod 13 = k)%nat) (seq 0 NBUF)))).
Proof.
  pose proof (init_lists NBUF) as Hok. destruct (init_pristine NBUF) as (Hp & Hl & Hd').
  split; [apply binit_runs|]. split_and!; try done.
  - destruct (heads_ready_ok NBUF) as (Hok0 & Hfree & Hlen).
    destruct (binit_buckets_ok NBUF nbuckets 0 (heads_ready NBUF) (fun _ => []))
      as (st' & ls' & Hrun & _ & _ & Hlen' & _); try done.
    { intros c. split; [intros [b Hb]; by apply elem_of_nil in Hb|lia]. }
    assert (binit (boot NBUF) = Ret tt st') as Heq.
    { unfold binit.
      change ((nbuf ≫= ?k) (boot NBUF)) with (k (length (bc_buf (boot NBUF))) (boot NBUF)).
      cbv beta. rewrite (bind_Ret _ _ _ _ _ (binit_heads_eval NBUF)).
      assert (length (bc_buf (boot NBUF)) = NBUF) as -> by apply length_replicate.
      fold nbuckets. exact Hrun. }
    rewrite binit_runs in Heq. by apply Ret_inj in Heq as [_ ->].
  - intros i e He. apply Hp in He. unfold payload in He. simpl in He.
    by injection He as -> -> -> -> -> _.
  - intros k Hk. pose proof (lo_dll _ _ Hok k Hk) as H. cbv beta in H.
    by rewrite decide_True in H by done.
Qed.

Lemma binit_builds_the_buckets_witness :
  dll (init 30) 12 [25; 12]%nat /\ dll (init 5) 7 [].
Proof.
  split.
  - apply (proj2 (proj2 (proj2 (proj2 (proj2 (binit_builds_the_buckets 30))))) 12%nat). lia.
  - apply (proj2 (proj2 (proj2 (proj2 (proj2 (binit_builds_the_buckets 5))))) 7%nat). lia.
Defined.

(** X2.  bget, the hit (lines 83-90), run with no other caller inside the
    cache, in any state whose lists are well formed.  The buffer bget takes
    for a block that is cached is the first one on the bucket's list that
    holds the block, whatever its reference count.  The count goes up
    by one modulo 2^32 and the bucket lock is dropped; then the caller takes
    the sleep lock if it is free, and otherwise goes to sleep holding the
    reference it has just taken.  No other buffer is written. *)
Theorem bget_takes_first_match st me d n l1 c l2 :
  well_linked st ->
  dll st (bucket_of n) (l1 ++ c :: l2) ->
  existsb (matches st d n) l1 = false ->
  matches st d n c = true ->
  exists e0, load st (Bf c) = Some e0 /\
    let s := hit_state (emit (Acq (Bucket (bucket_of n))) st) (Bf c) e0 (bucket_of n) in
    bget me d n st =
      if locked (lock e0) =? 0 then Ret (Bf c) (store s (Bf c) (granted me (bump e0)))
      else Sleeps (Bf c) s.
Proof.
  intros (ls & Hok & Hcov & Hls)%well_linked_lists Hdl Hl1 (e0 & He0 & Hd0 & Hn0)%matches_true.
  exists e0. split; [done|].
  apply (bget_first_match_eval me d n st ls l1 c l2 e0); try done. by apply Hls.
Qed.

Lemma bget_takes_first_match_witness :
  exists e0, load pinned12 (Bf 12) = Some e0 /\
    let s := hit_state (emit (Acq (Bucket (bucket_of 12))) pinned12) (Bf 12) e0
               (bucket_of 12) in
    bget 8 1 12 pinned12 =
      if locked (lock e0) =? 0 then Ret (Bf 12) (store s (Bf 12) (granted 8 (bump e0)))
      else Sleeps (Bf 12) s.
Proof.
  apply (bget_takes_first_match pinned12 8 1 12 [25%nat] 12%nat []).
  - apply pinned12_well_linked.
  - vm_compute. repeat split.
  - vm_compute. reflexivity.
  - vm_compute. reflexivity.
Defined.

(** X3.  bget, the recycling inside the bucket (lines 93-103), run with no
    other caller inside the cache, in any state whose lists are well formed.
    When no buffer on the bucket's list holds the block, bget takes the unused buffer nearest the tail of the list, the one
    released longest ago: it gives it the new identity, clears the valid
    flag and sets the count to 1 where the buffer is, without touching a
    pointer, another buffer or the global lock. *)
Theorem bget_recycles_nearest_the_tail st me d n l1 c l2 :
  well_linked st ->
  dll st (bucket_of n) (l1 ++ c :: l2) ->
  existsb (matches st d n) (l1 ++ c :: l2) = false ->
  unused st c = true ->
  existsb (unused st) l2 = false ->
  exists e0, load st (Bf c) = Some e0 /\
    let s := claim_state (emit (Acq (Bucket (bucket_of n))) st) (Bf c) e0 d n
               (bucket_of n) in
    bget me d n st =
      if locked (lock e0) =? 0 then Ret (Bf c) (store s (Bf c) (granted me (claimed d n e0)))
      else Sleeps (Bf c) s.
Proof.
  intros (ls & Hok & Hcov & Hls)%well_linked_lists Hdl Hnm (e0 & He0 & Hr0)%unused_true Hl2.
  exists e0. split; [done|]. apply Hls in Hdl.
  apply (bget_last_unused_eval me d n st ls l1 c l2 e0); try done. by rewrite Hdl.
Qed.

Lemma bget_recycles_nearest_the_tail_witness :
  exists e0, load pinned0 (Bf 4) = Some e0 /\
    let s := claim_state (emit (Acq (Bucket (bucket_of 4))) pinned0) (Bf 4) e0 1 4
               (bucket_of 4) in
    bget 8 1 4 pinned0 =
      if locked (lock e0) =? 0 then Ret (Bf 4) (store s (Bf 4) (granted 8 (claimed 1 4 e0)))
      else Sleeps (Bf 4) s.
Proof.
  apply (bget_recycles_nearest_the_tail pinned0 8 1 4 [17%nat] 4%nat []).
  - apply pinned0_well_linked.
  - vm_compute. repeat split.
  - vm_compute. reflexivity.
  - vm_compute. reflexivity.
  - vm_compute. reflexivity.
Defined.

(** X4.  bget, the pool scan (lines 111-139), run with no other caller
    inside the cache, in any state whose lists are well formed.  When the
    bucket's list holds neither the block nor an unused buffer, bget
    takes the buffer of lowest index in the array that is unused and whose
    old block number hashes to another bucket.  The buffer gets the new
    identity, valid 0 and count 1, keeps its data, leaves the list it was on
    and becomes the first buffer of the target bucket's list; the order of
    the other buffers on every list is kept and no other buffer is
    written. *)
Theorem bget_steals_lowest_index st me d n l i :
  well_linked st ->
  dll st (bucket_of n) l ->
  existsb (matches st d n) l = false ->
  existsb (unused st) l = false ->
  stealable st (bucket_of n) i = true ->
  existsb (stealable st (bucket_of n)) (seq 0 i) = false ->
  exists e0 st' e1, load st (Bf i) = Some e0 /\
    bget me d n st
      = (if locked (lock e0) =? 0 then Ret (Bf i) st' else Sleeps (Bf i) st') /\
    load st' (Bf i) = Some e1 /\
    dev e1 = d /\ blockno e1 = n /\ valid e1 = 0 /\ refcnt e1 = 1 /\ data e1 = data e0 /\
    dll st' (bucket_of n) (i :: l) /\
    (forall k l', k <> bucket_of n -> dll st k l' ->
       dll st' k (filter (fun c => c <> i) l')) /\
    (forall q, q <> Bf i -> payload <$> load st' q = payload <$> load st q).
Proof.
  intros (ls & Hok & Hcov & Hls)%well_linked_lists Hdl Hnm Hnu Hi Hmin.
  pose proof (Hls _ _ Hdl) as Hl. subst l.
  destruct (bget_steal_eval me d n st ls i Hok Hcov Hnm Hnu Hi Hmin)
    as (e0 & st' & e1 & He0 & Hrun & He1 & Hd1 & Hn1 & Hv1 & Hr1 & Hdt & Hok' & Hfr).
  exists e0, st', e1. do 8 (split; [done|]).
  apply stealable_true in Hi as (e0' & He0' & Hr0 & Hb0).
  assert (e0' = e0) as -> by congruence.
  assert (i ∉ ls (bucket_of n)) as Hni.
  { intros Hin. by destruct (unused_false _ _ _ (existsb_false _ _ _ Hnu Hin) He0). }
  split_and!.
  - pose proof (lo_dll _ _ Hok' _ (bucket_of_lt n)) as H.
    unfold moved in H. rewrite decide_True in H by done.
    by rewrite (filter_ne_id _ _ Hni) in H.
  - intros k l' Hk Hdl'. rewrite <- (Hls _ _ Hdl').
    assert (k < nbuckets)%nat as Hlt.
    { destruct (nxt_is_Some _ _ _ (path_first _ _ _ _ Hdl')) as (h & Hh & _).
      apply lookup_lt_Some in Hh. by rewrite (lo_heads _ _ Hok) in Hh. }
    pose proof (lo_dll _ _ Hok' k Hlt) as H.
    unfold moved in H. by rewrite decide_False in H by done.
  - done.
Qed.

Lemma bget_steals_lowest_index_witness :
  exists e0 st' e1, load pinned12 (Bf 0) = Some e0 /\
    bget 8 1 38 pinned12
      = (if locked (lock e0) =? 0 then Ret (Bf 0) st' else Sleeps (Bf 0) st') /\
    load st' (Bf 0) = Some e1 /\
    dev e1 = 1 /\ blockno e1 = 38 /\ valid e1 = 0 /\ refcnt e1 = 1 /\ data e1 = data e0 /\
    dll st' (bucket_of 38) [0; 25; 12]%nat /\
    (forall k l', k <> bucket_of 38 -> dll pinned12 k l' ->
       dll st' k (filter (fun c => c <> 0%nat) l')) /\
    (forall q, q <> Bf 0 -> payload <$> load st' q = payload <$> load pinned12 q).
Proof.
  apply (bget_steals_lowest_index pinned12 8 1 38 [25; 12]%nat 0%nat).
  - apply pinned12_well_linked.
  - vm_compute. repeat split.
  - vm_compute. reflexivity.
  - vm_compute. reflexivity.
  - vm_compute. reflexivity.
  - vm_compute. reflexivity.
Defined.

(** X5.  bget, the panic (line 147), run with no other caller inside the
    cache, in any state whose lists are well formed.  bget ends in
    "bget: no buffers" exactly when the list of the target bucket holds
    neither the block nor an unused buffer and every unused buffer of the
    pool has an old block number that hashes to the target bucket. *)
Theorem bget_panics_exactly_when st me d n l :
  well_linked st ->
  dll st (bucket_of n) l ->
  (exists st', bget me d n st = Panic "bget: no buffers" st') <->
  existsb (matches st d n) l = false /\
  existsb (unused st) l = false /\
  existsb (stealable st (bucket_of n)) (seq 0 (length (bc_buf st))) = false.
Proof.
  intros (ls & Hok & Hcov & Hls)%well_linked_lists Hdl. rewrite <- (Hls _ _ Hdl).
  by apply bget_panic_iff.
Qed.

Lemma bget_panics_exactly_when_witness :
  (exists st', bget 8 1 39 pinned0 = Panic "bget: no buffers" st') <->
  existsb (matches pinned0 1 39) [26; 13; 0]%nat = false /\
  existsb (unused pinned0) [26; 13; 0]%nat = false /\
  existsb (stealable pinned0 (bucket_of 39)) (seq 0 (length (bc_buf pinned0))) = false.
Proof.
  apply (bget_panics_exactly_when pinned0 8 1 39 [26; 13; 0]%nat).
  - apply pinned0_well_linked.
  - vm_compute. repeat split.
Defined.

(** X6.  Whatever the state, bget writes the fields other than [prev] and
    [next] of one buffer only, the one it hands out or goes to sleep on; it
    never calls the disk; and when it panics it has written nothing at
    all. *)
Theorem bget_writes_one_buffer me d n st :
  match bget me d n st with
  | Ret b st' =>
      (forall q, q <> b -> payload <$> load st' q = payload <$> load st q) /\
      bc_disk st' = bc_disk st
  | Sleeps b st' =>
      (forall q, q <> b -> payload <$> load st' q = payload <$> load st q) /\
      bc_disk st' = bc_disk st
  | Panic _ st' => (forall q, load st' q = load st q) /\ bc_disk st' = bc_disk st
  | Fault => True
  | Diverges => True
  end.
Proof.
  pose proof (bget_spec me d n st) as Hspec. unfold wp in Hspec.
  destruct (bget me d n st) as [b st'|msg st'|b st'| |]; try done.
  - destruct Hspec as (s & e1 & Hrel & He1 & _ & ->).
    destruct (released_reserved _ _ _ _ _ Hrel) as (e0 & e1' & _ & _ & _ & _ & _ & _ & _ & Hfr & Hdk).
    split.
    + intros q Hq. rewrite load_store_ne by done. by apply Hfr.
    + by rewrite disk_store.
  - destruct Hspec as (_ & _ & _ & js & _ & ->). split; [|done].
    intros q. unfold slow_entry. by rewrite load_probing, !load_emit, load_mid.
  - destruct Hspec as (e1 & Hrel & _).
    destruct (released_reserved _ _ _ _ _ Hrel) as (e0 & e1' & _ & _ & _ & _ & _ & _ & _ & Hfr & Hdk).
    done.
Qed.



(** X8.  brelse by the holder of the sleep lock, run with no other caller
    inside the cache, in any state whose lists are well formed.  The call
    returns; the sleep lock is free again and the count is one less
    (modulo 2^32); the identity, the valid flag and the data of the buffer
    stay, and so does every other buffer and the disk.  When the count has
    reached zero the buffer is now the first on the list of the bucket its
    block number hashes to, and the other buffers keep their order;
    otherwise no list changes. *)
Theorem brelse_puts_unused_buffer_first st me i e :
  well_linked st -> load st (Bf i) = Some e -> holding e me = true ->
  exists st' e', brelse me (Bf i) st = Ret tt st' /\
    load st' (Bf i) = Some e' /\
    lock e' = Sleeplock 0 0 /\ refcnt e' = wrap32 (refcnt e - 1) /\
    dev e' = dev e /\ blockno e' = blockno e /\ valid e' = valid e /\ data e' = data e /\
    (forall q, q <> Bf i -> payload <$> load st' q = payload <$> load st q) /\
    bc_disk st' = bc_disk st /\
    forall k l, dll st k l ->
      dll st' k
        (if wrap32 (refcnt e - 1) =? 0
         then (if decide (k = bucket_of (blockno e)) then [i] else [])
              ++ filter (fun c => c <> i) l
         else l).
Proof.
  intros (ls & Hok & Hcov & Hls)%well_linked_lists He Hh.
  destruct (brelse_eval me i e st ls Hok Hcov He Hh)
    as (st' & e' & Hrun & He' & Hpl & Hfr & Hdk & Hok' & _).
  apply payload_eq_fields in Hpl as (Hv & Hd' & Hn' & Hl & Hr & Hdt).
  exists st', e'. split_and!; try done.
  intros k l Hdl. rewrite <- (Hls _ _ Hdl).
  assert (k < nbuckets)%nat as Hlt.
  { destruct (nxt_is_Some _ _ _ (path_first _ _ _ _ Hdl)) as (h & Hh' & _).
    apply lookup_lt_Some in Hh'. by rewrite (lo_heads _ _ Hok) in Hh'. }
  pose proof (lo_dll _ _ Hok' k Hlt) as H. by destruct (_ =? _).
Qed.

Lemma brelse_puts_unused_buffer_first_witness :
  exists st' e', brelse 7 (Bf 12) pinned12 = Ret tt st' /\
    load st' (Bf 12) = Some e' /\
    lock e' = Sleeplock 0 0 /\ refcnt e' = wrap32 (1 - 1) /\
    dev e' = 1 /\ blockno e' = 12 /\ valid e' = 0 /\ data e' = [] /\
    (forall q, q <> Bf 12 -> payload <$> load st' q = payload <$> load pinned12 q) /\
    bc_disk st' = bc_disk pinned12 /\
    forall k l, dll pinned12 k l ->
      dll st' k
        (if wrap32 (1 - 1) =? 0
         then (if decide (k = bucket_of 12) then [12%nat] else [])
              ++ filter (fun c => c <> 12%nat) l
         else l).
Proof.
  apply (brelse_puts_unused_buffer_first pinned12 7 12
           (Buf 0 1 12 (Sleeplock 1 7) 1 (Bf 25) (Hd 12) [])).
  - apply pinned12_well_linked.
  - vm_compute. reflexivity.
  - reflexivity.
Defined.

(** X9.  bpin and bunpin undo each other: a bunpin after a bpin, and a bpin
    after a bunpin, leave every buffer, every list head and the disk as they
    were, also when the count wraps in between; each call takes and drops
    the lock of the buffer's bucket once. *)
Theorem bpin_and_bunpin_cancel st b e :
  load st b = Some e -> 0 <= refcnt e < 2 ^ 32 ->
  let k := bucket_of (blockno e) in
  (exists st1 st2, bpin b st = Ret tt st1 /\ bunpin b st1 = Ret tt st2 /\
     (refcnt <$> load st1 b) = Some (wrap32 (refcnt e + 1)) /\
     bc_buf st2 = bc_buf st /\ bc_head st2 = bc_head st /\ bc_disk st2 = bc_disk st /\
     bc_log st2 = bc_log st ++ [Acq (Bucket k); Rel (Bucket k); Acq (Bucket k); Rel (Bucket k)]) /\
  (exists st1 st2, bunpin b st = Ret tt st1 /\ bpin b st1 = Ret tt st2 /\
     (refcnt <$> load st1 b) = Some (wrap32 (refcnt e - 1)) /\
     bc_buf st2 = bc_buf st /\ bc_head st2 = bc_head st /\ bc_disk st2 = bc_disk st /\
     bc_log st2 = bc_log st ++ [Acq (Bucket k); Rel (Bucket k); Acq (Bucket k); Rel (Bucket k)]).
Proof.
  intros He Hr k.
  split.
  - exists (emit (Rel (Bucket k)) (store (emit (Acq (Bucket k)) st) b (bump e))).
    eexists. split; [by apply bpin_eval|]. split.
    { erewrite bunpin_eval by (rewrite load_emit; erewrite load_store_eq; [done|by rewrite load_emit]).
      done. }
    split.
    { rewrite load_emit. erewrite load_store_eq by (by rewrite load_emit). done. }
    change (blockno (bump e)) with (blockno e). fold k.
    rewrite (drop_bump e Hr). rewrite !store_emit, store_store, (store_same _ _ _ He).
    split_and!; try done. simpl. by rewrite <- !app_assoc.
  - exists (emit (Rel (Bucket k)) (store (emit (Acq (Bucket k)) st) b (drop e))).
    eexists. split; [by apply bunpin_eval|]. split.
    { erewrite bpin_eval by (rewrite load_emit; erewrite load_store_eq; [done|by rewrite load_emit]).
      done. }
    split.
    { rewrite load_emit. erewrite load_store_eq by (by rewrite load_emit). done. }
    change (blockno (drop e)) with (blockno e). fold k.
    rewrite (bump_drop e Hr). rewrite !store_emit, store_store, (store_same _ _ _ He).
    split_and!; try done. simpl. by rewrite <- !app_assoc.
Qed.

Lemma bpin_and_bunpin_cancel_witness :
  let st := mem sys_pinned12 in
  let k := bucket_of 12 in
  (exists st1 st2, bpin (Bf 12) st = Ret tt st1 /\ bunpin (Bf 12) st1 = Ret tt st2 /\
     (refcnt <$> load st1 (Bf 12)) = Some (wrap32 (1 + 1)) /\
     bc_buf st2 = bc_buf st /\ bc_head st2 = bc_head st /\ bc_disk st2 = bc_disk st /\
     bc_log st2 = bc_log st ++ [Acq (Bucket k); Rel (Bucket k); Acq (Bucket k); Rel (Bucket k)]) /\
  (exists st1 st2, bunpin (Bf 12) st = Ret tt st1 /\ bpin (Bf 12) st1 = Ret tt st2 /\
     (refcnt <$> load st1 (Bf 12)) = Some (wrap32 (1 - 1)) /\
     bc_buf st2 = bc_buf st /\ bc_head st2 = bc_head st /\ bc_disk st2 = bc_disk st /\
     bc_log st2 = bc_log st ++ [Acq (Bucket k); Rel (Bucket k); Acq (Bucket k); Rel (Bucket k)]).
Proof.
  apply (bpin_and_bunpin_cancel (mem sys_pinned12) (Bf 12)
           (Buf 0 1 12 (Sleeplock 1 7) 1 (Bf 25) (Hd 12) [])).
  - vm_compute. reflexivity.
  - simpl. lia.
Defined.

(** X10.  Run with no other caller inside the cache, in any state whose
    lists are well formed, every call of the interface whose buffer argument
    points into the pool comes to an end: it returns, puts the caller to
    sleep on a sleep lock, or panics.  It dereferences no pointer outside
    [bcache.buf] and [bcache.head], and none of its walks along a list goes
    on for ever. *)
Theorem interface_calls_end st c :
  well_linked st -> call_ok st c -> safe (exec c st).
Proof.
  intros (ls & Hok & Hcov) Hc. by apply (exec_safe c st ls).
Qed.

Lemma interface_calls_end_witness : safe (exec (Cbrelse 7 (Bf 12)) pinned12).
Proof.
  apply (interface_calls_end pinned12 (Cbrelse 7 (Bf 12))).
  - apply pinned12_well_linked.
  - exists 12%nat. split; [reflexivity|]. vm_compute. lia.
Defined.

(** X11.  The lists stay lists.  binit leaves well-formed lists, and every
    call of the interface that runs with no other caller inside the cache
    takes well-formed lists to well-formed lists, however it ends and
    whatever the reference counts are.  In the state it leaves, every buffer
    of the pool is on the list of exactly one bucket, no list holds a buffer
    twice, and the pointers of the buffer agree with those of its
    neighbours: [b->next->prev] and [b->prev->next] are [b]. *)
Theorem lists_stay_well_formed NBUF st c st' :
  well_linked (init NBUF) /\
  (well_linked st -> call_ok st c -> final (exec c st) = Some st' ->
   well_linked st' /\
   (forall k l, dll st' k l -> NoDup l) /\
   (forall i, (i < length (bc_buf st'))%nat ->
      (exists k, on_list st' k i /\ forall k', on_list st' k' i -> k' = k) /\
      exists e, load st' (Bf i) = Some e /\
        prv st' (next e) = Some (Bf i) /\ nxt st' (prev e) = Some (Bf i))).
Proof.
  split; [apply well_linked_init|]. intros Hwl Hc Hfin.
  pose proof (well_linked_exec c st st' Hwl Hc Hfin) as Hwl'. split; [done|].
  destruct (well_linked_lists _ Hwl') as (ls & Hok & Hcov & Hls). split.
  - intros k l Hdl. rewrite <- (Hls _ _ Hdl). apply (lo_nodup _ _ Hok).
  - intros i Hi. destruct (Hcov i Hi) as [k Hk].
    destruct (lo_range _ _ Hok k i Hk) as [Hlt _].
    pose proof (lo_dll _ _ Hok k Hlt) as Hdl. split.
    + exists k. split; [by exists (ls k)|].
      intros k' Hon. destruct (on_list_inv _ _ _ _ Hok Hon) as [_ Hk'].
      by apply (lo_disj _ _ Hok k' k i).
    + destruct (list_elem_of_split _ _ Hk) as (l1 & l2 & Hsplit).
      unfold dll in Hdl. rewrite Hsplit in Hdl. apply path_app in Hdl as [P1 P2].
      destruct (nxt_is_Some _ _ _ (path_first _ _ _ _ P2)) as (e & He & Hnx).
      destruct (prv_is_Some _ _ _ (path_last _ _ _ _ P1)) as (e' & He' & Hpv).
      same_load. exists e. split; [done|]. rewrite Hnx, Hpv. split.
      * apply (path_first_prv _ _ _ _ P2).
      * apply (path_last_nxt _ _ _ _ P1).
Qed.

Lemma lists_stay_well_formed_witness :
  let st' := run (brelse 7 (Bf 12)) pinned12 in
  well_linked st' /\
  (forall k l, dll st' k l -> NoDup l) /\
  (forall i, (i < length (bc_buf st'))%nat ->
     (exists k, on_list st' k i /\ forall k', on_list st' k' i -> k' = k) /\
     exists e, load st' (Bf i) = Some e /\
       prv st' (next e) = Some (Bf i) /\ nxt st' (prev e) = Some (Bf i)).
Proof.
  apply (proj2 (lists_stay_well_formed 30 pinned12 (Cbrelse 7 (Bf 12))
                  (run (brelse 7 (Bf 12)) pinned12))).
  - apply pinned12_well_linked.
  - exists 12%nat. split; [reflexivity|]. vm_compute. lia.
  - vm_compute. reflexivity.
Defined.

(** X12.  The spin locks of kernel/bio.c.  Whatever call of the interface
    runs in whatever state, it never takes a spin lock it holds already and
    never drops one it does not hold; when it returns or puts the caller to
    sleep it holds no spin lock; and when bget panics it still holds the
    global lock and the lock of the target bucket, which line 147 does not
    give back. *)
Theorem calls_leave_no_spin_lock_behind c st :
  match exec c st with
  | Ret _ st' => disciplined st [] st'
  | Sleeps _ st' => disciplined st [] st'
  | Panic _ st' => disciplined st (held_at_panic c) st'
  | Fault => True
  | Diverges => True
  end.
Proof.
  pose proof (exec_disciplined c st) as H. unfold wp in H. by destruct (exec c st).
Qed.

(** X13.  When the callers take turns (no two of them are inside the cache
    at once) and call brelse, bpin and bunpin only on buffers whose count is
    not zero, the invariant of unique identities holds: in every state
    reached from binit, no two buffers with a count other than zero hold the
    same block of the same device. *)
Theorem serial_calls_keep_identities_unique NBUF σ :
  serial NBUF σ -> unique_live (cache σ).
Proof.
  intros Hreach. destruct (serial_inv2 _ _ Hreach) as (ls & Hinv & Hfm).
  by eapply first_match_unique.
Qed.

Lemma serial_calls_keep_identities_unique_witness : unique_live (cache sys_shared).
Proof.
  apply (serial_calls_keep_identities_unique 30 sys_shared).
  apply sys_shared_serial.
Defined.

(** X14.  When the callers take turns and call brelse, bpin and bunpin only
    on buffers whose count is not zero, a block that is in use is never
    given a second buffer: in every state reached from binit, bget for the
    block of a referenced buffer takes that very buffer, returning it if its
    sleep lock is free and sleeping on it otherwise. *)
Theorem serial_bget_shares_the_buffer NBUF σ me d n i e :
  serial NBUF σ ->
  load (cache σ) (Bf i) = Some e -> refcnt e <> 0 -> dev e = d -> blockno e = n ->
  let s := hit_state (emit (Acq (Bucket (bucket_of n))) (cache σ)) (Bf i) e (bucket_of n) in
  bget me d n (cache σ) =
    if locked (lock e) =? 0 then Ret (Bf i) (store s (Bf i) (granted me (bump e)))
    else Sleeps (Bf i) s.
Proof.
  intros (ls & Hinv & Hfm)%serial_inv2 He Hr Hd' Hn'.
  pose proof (ia_bucket _ _ Hinv i e He Hr) as Hi. rewrite Hn' in Hi.
  destruct (list_elem_of_split _ _ Hi) as (l1 & l2 & Hsplit).
  apply (bget_first_match_eval me d n (cache σ) ls l1 i l2 e); try done.
  - apply (ia_ok _ _ Hinv).
  - apply (ia_cov _ _ Hinv).
  - apply existsb_false_intro. intros j Hj.
    destruct (matches (cache σ) d n j) eqn:Hm; [|done].
    apply matches_true in Hm as (e' & He' & Hde & Hne).
    destruct (Hfm (bucket_of n) l1 i l2 e j e'); try done; congruence.
Qed.

Lemma serial_bget_shares_the_buffer_witness :
  let e := Buf 0 1 38 (Sleeplock 1 8) 1 (Hd 12) (Bf 25) [] in
  let s := hit_state (emit (Acq (Bucket (bucket_of 38))) (cache sys_shared)) (Bf 0) e
             (bucket_of 38) in
  bget 9 1 38 (cache sys_shared) =
    if locked (lock e) =? 0 then Ret (Bf 0) (store s (Bf 0) (granted 9 (bump e)))
    else Sleeps (Bf 0) s.
Proof.
  apply (serial_bget_shares_the_buffer 30 sys_shared 9 1 38 0
           (Buf 0 1 38 (Sleeplock 1 8) 1 (Hd 12) (Bf 25) [])).
  - apply sys_shared_serial.
  - vm_compute. reflexivity.
  - simpl. lia.
  - reflexivity.
  - reflexivity.
Defined.

(** X15.  The pool scan of bio_after.c takes the lock of the probed buffer's
    bucket without the test of line 117.  When the block is not cached and
    the block number of [bcache.buf[0]] hashes to the target bucket, its
    bget takes the lock of the target bucket while holding it: the call
    would wait for itself. *)
Theorem After_bget_takes_a_lock_it_holds me d n st e st' :
  load st (Bf 0) = Some e -> bucket_of (blockno e) = bucket_of n ->
  nowhere st d n = true ->
  final (After.bget me d n st) = Some st' ->
  exists evs, appends st st' evs /\ well_locked [] evs = false.
Proof.
  intros He Hid Hno Hfin.
  pose proof (After_bget_second_acquire me d n st e He Hid Hno) as H.
  apply (wp_final _ _ _ _ H) in Hfin as [evs Hevs].
  eexists. split; [apply Hevs|].
  simpl app. rewrite wl_acq by apply not_elem_of_nil. rewrite wl_rel.
  rewrite wl_acq by apply not_elem_of_nil.
  rewrite wl_acq by (intros [H'|H']%elem_of_cons; [done|by apply elem_of_nil in H']).
  simpl. rewrite bool_decide_eq_true_2; [done|]. apply elem_of_cons. by left.
Qed.

Lemma After_bget_takes_a_lock_it_holds_witness :
  exists evs, appends pool30 (run (After.bget 7 1 0) pool30) evs /\
    well_locked [] evs = false.
Proof.
  apply (After_bget_takes_a_lock_it_holds 7 1 0 pool30
           (Buf 0 0 0 (Sleeplock 0 0) 0 (Bf 13) (Hd 0) [])).
  - vm_compute. reflexivity.
  - reflexivity.
  - vm_compute. reflexivity.
  - vm_compute. reflexivity.
Defined.

(** X16.  The bget of bio_after.c changes no [prev] and no [next], however
    it ends: every list holds after the call the buffers it held before, in
    the same order.  A buffer that its pool scan takes for a block of
    another bucket therefore stays on the list it was on, where the scan of
    lines 83-90 for its new block does not look. *)
Theorem After_bget_never_relinks me d n st st' :
  final (After.bget me d n st) = Some st' ->
  (forall q, links <$> load st' q = links <$> load st q) /\
  (forall k l, dll st k l -> dll st' k l) /\
  (forall k i, on_list st k i -> on_list st' k i).
Proof.
  intros Hfin. pose proof (After_bget_kept me d n st) as H.
  apply (wp_final _ _ _ _ H) in Hfin as Hk. split_and!.
  - apply Hk.
  - intros k l. by apply kept_links_dll.
  - intros k i (l & Hdl & Hi). exists l. split; [|done]. by eapply kept_links_dll.
Qed.

Lemma After_bget_never_relinks_witness :
  (forall q, links <$> load (run (After.bget 7 1 38) pinned12) q = links <$> load pinned12 q) /\
  (forall k l, dll pinned12 k l -> dll (run (After.bget 7 1 38) pinned12) k l) /\
  (forall k i, on_list pinned12 k i -> on_list (run (After.bget 7 1 38) pinned12) k i).
Proof.
  apply (After_bget_never_relinks 7 1 38 pinned12 (run (After.bget 7 1 38) pinned12)).
  vm_compute. reflexivity.
Defined.

(** X17.  When the callers take turns and call brelse, bpin and bunpin only
    on buffers whose count is not zero, then in every state reached from
    binit, for any pool size, a buffer whose reference count is not zero is
    on the list of the bucket its block number hashes to, so that a buffer
    sitting on any other list has the count 0; and when the slow path of
    bget returns, the buffer it hands back is on the list of the target
    bucket. *)
Theorem serial_calls_keep_referenced_buffers_in_their_bucket NBUF σ :
  serial NBUF σ ->
  (forall i e, load (cache σ) (Bf i) = Some e -> refcnt e <> 0 ->
     on_list (cache σ) (bucket_of (blockno e)) i) /\
  (forall k i e, on_list (cache σ) k i -> load (cache σ) (Bf i) = Some e ->
     k <> bucket_of (blockno e) -> refcnt e = 0) /\
  (forall me d n b st', bget_slow me d n (cache σ) = Ret b st' ->
     exists i, b = Bf i /\ on_list st' (bucket_of n) i).
Proof.
  intros (ls & Hinv & _)%serial_inv2. split_and!.
  - intros i e He Hr. exists (ls (bucket_of (blockno e))). split.
    + apply (lo_dll _ _ (ia_ok _ _ Hinv)). apply bucket_of_lt.
    + by apply (ia_bucket _ _ Hinv).
  - intros k i e Hon He Hk. destruct (decide (refcnt e = 0)) as [|Hr]; [done|].
    destruct (on_list_inv _ _ _ _ (ia_ok _ _ Hinv) Hon) as [_ Hi].
    destruct Hk. eapply (lo_disj _ _ (ia_ok _ _ Hinv)); [done|].
    by apply (ia_bucket _ _ Hinv).
  - intros me d n b st' Hrun.
    pose proof (bget_slow_spec me d n (cache σ)) as H. eapply wp_Ret in H; [|done].
    destruct H as (s & e1 & Hrel & He1 & _ & ->).
    destruct (inv_slow_released _ _ _ _ _ _ Hinv Hrel) as (i & -> & Hinv').
    exists i. split; [done|].
    pose proof (inv_granted _ _ _ _ me Hinv' He1) as Hinv''.
    exists (moved ls i (bucket_of n) (bucket_of n)). split.
    + apply (lo_dll _ _ (ia_ok _ _ Hinv'')). apply bucket_of_lt.
    + apply moved_elem. by left.
Qed.

Lemma serial_calls_keep_referenced_buffers_in_their_bucket_witness :
  (forall i e, load (cache sys_shared) (Bf i) = Some e -> refcnt e <> 0 ->
     on_list (cache sys_shared) (bucket_of (blockno e)) i) /\
  (forall k i e, on_list (cache sys_shared) k i -> load (cache sys_shared) (Bf i) = Some e ->
     k <> bucket_of (blockno e) -> refcnt e = 0) /\
  (forall me d n b st', bget_slow me d n (cache sys_shared) = Ret b st' ->
     exists i, b = Bf i /\ on_list st' (bucket_of n) i).
Proof.
  apply (serial_calls_keep_referenced_buffers_in_their_bucket 30 sys_shared).
  apply sys_shared_serial.
Defined.

(** X18.  Calls that overlap can knot a list.  After the race of
    [race_relabelled] buffer 1 is on the list of bucket 12 with a block
    number of bucket 1.  In [race_linking] caller 10, in the pool scan of
    bget(1, 51), holds the global lock and the locks of buckets 12 and 0 and
    has run lines 131-132 for buffer 0: [b->next] is buffer 1.  Caller 8
    then releases buffer 1: brelse unlinks it from the list of bucket 12
    under the lock of bucket 1 and puts it on the list of bucket 1.  Caller
    10 runs lines 133-139.  In [race_knotted] no spin lock is held, and from
    [bcache.head[12]] the [next] pointers lead through buffers 0, 1, 27 and
    14 to [bcache.head[1]] and on to buffer 1 again: the lists are no longer
    well formed, and the loop of lines 83-90 of a bget for block 64, which
    belongs to bucket 12, never meets [bcache.head[12]]: the call does not
    come to an end, with whatever bound on the length of the walk. *)
Theorem overlapping_calls_can_knot_a_list :
  reachable 30 race_linking /\
  held race_linking = [(Bucket 0, 10); (Bucket 12, 10); (Global, 10)] /\
  about_to race_linking 10 = Some (OGet (Hd 12)) /\
  nxt (mem race_linking) (Bf 0) = Some (Bf 1) /\
  reachable 30 race_knotted /\
  held race_knotted = [] /\
  about_to race_knotted 8 = None /\ about_to race_knotted 10 = None /\
  nxt (mem race_knotted) (Hd 12) = Some (Bf 0) /\
  nxt (mem race_knotted) (Bf 0) = Some (Bf 1) /\
  nxt (mem race_knotted) (Bf 1) = Some (Bf 27) /\
  nxt (mem race_knotted) (Bf 27) = Some (Bf 14) /\
  nxt (mem race_knotted) (Bf 14) = Some (Hd 1) /\
  nxt (mem race_knotted) (Hd 1) = Some (Bf 1) /\
  (forall fuel,
     bget_cached fuel 11 1 64 12 (Bf 0) (emit (Acq (Bucket 12)) (mem race_knotted))
     = Diverges) /\
  bget 11 1 64 (mem race_knotted) = Diverges /\
  ~ well_linked (mem race_knotted).
Proof.
  assert (reachable 30 race_linking) as Hr.
  { do 6 apply play_reachable. apply reach_init. }
  assert (bget 11 1 64 (mem race_knotted) = Diverges) as Hdiv by (vm_compute; reflexivity).
  split; [done|]. do 3 (split; [vm_compute; reflexivity|]).
  split; [by apply play_reachable|]. do 9 (split; [vm_compute; reflexivity|]).
  split; [|split; [done|]].
  - intros fuel.
    apply (walk_in_cycle [Bf 0; Bf 1; Bf 27; Bf 14; Hd 1]); [|apply elem_of_cons; by left].
    intros p Hp.
    assert (p = Bf 0 \/ p = Bf 1 \/ p = Bf 27 \/ p = Bf 14 \/ p = Hd 1) as Hcase.
    { revert Hp. rewrite !elem_of_cons, elem_of_nil. tauto. }
    clear Hp Hdiv Hr.
    destruct Hcase as [-> | [-> | [-> | [-> | ->]]]];
      (split; [discriminate|]); eexists; (split; [vm_compute; reflexivity|]);
      (split; [reflexivity|]); vm_compute;
      repeat (apply elem_of_cons; first [left; reflexivity|right]).
  - intros (ls & Hok & Hcov).
    pose proof (bget_safe 11 1 64 (mem race_knotted) ls Hok Hcov) as Hs.
    by rewrite Hdiv in Hs.
Qed.
